(** * NL-to-SQL guardrail pipeline (Nl2sql/Generate_sql.py)

    A shallow embedding of the guardrail and execution functions of
    [Generate_sql.py], followed by the properties of the validator, the
    rewriter, the execution step and the orchestrator.

    Modelling conventions.
    - A Python [str] is a list of characters whose code points lie in
      U+0000..U+00FF; a character is an [ascii] (its eight bits are the code
      point).  The character tables below ([isspace], [isalnum], [lower_chr],
      [upper_cp]) are the tables of CPython for that range.  Every theorem
      is a statement about such texts.  Beyond U+00FF, [re.IGNORECASE] also
      reads U+017F as an s and U+0130, U+0131 as an i, so that the patterns
      of the file match words that no change of case of ASCII letters gives;
      the theorems that characterise a gate exactly say so.
    - The [re] module is embedded as a backtracking matcher over the
      constructs that the patterns of the file use.
    - A pandas [DataFrame] is the list of its rows; the language model and the
      database engine are fields of a [World] record, and a call that raises
      is a [Raised] value carrying the text of the exception. *)

From Stdlib Require Import List Ascii String ZArith NArith Lia Bool Arith.
From Stdlib Require Import DecimalString.
Import ListNotations.

(* ================================================================== *)
(** * Python strings *)
(* ================================================================== *)

Module PyStr.

Definition str : Type := list ascii.

(** String literals of the source are written [py "..."]. *)
Definition py (s : string) : str := list_ascii_of_string s.

Definition ord (c : ascii) : N := N_of_ascii c.

Definition in_range (lo hi : N) (c : ascii) : bool :=
  ((lo <=? ord c) && (ord c <=? hi))%N.

Definition chr_eqb (a b : ascii) : bool := Ascii.eqb a b.

(** [str.isspace] on one character, which is also the class [\s]. *)
Definition isspace (c : ascii) : bool :=
  in_range 9 13 c || in_range 28 32 c || (ord c =? 133)%N || (ord c =? 160)%N.

(** The class [\d]: decimal digits. *)
Definition isdecimal (c : ascii) : bool := in_range 48 57 c.

Definition is_ascii_upper (c : ascii) : bool := in_range 65 90 c.
Definition is_ascii_lower (c : ascii) : bool := in_range 97 122 c.
Definition is_ascii_letter (c : ascii) : bool :=
  is_ascii_upper c || is_ascii_lower c.

(** [str.isalnum] on one character. *)
Definition isalnum (c : ascii) : bool :=
  is_ascii_letter c || isdecimal c
  || (ord c =? 170)%N || in_range 178 179 c || (ord c =? 181)%N
  || in_range 185 186 c || in_range 188 190 c
  || in_range 192 214 c || in_range 216 246 c || in_range 248 255 c.

(** The class [\w]. *)
Definition is_word (c : ascii) : bool := isalnum c || chr_eqb c "_".

(** The class [[A-Za-z_]]. *)
Definition ident_start (c : ascii) : bool := is_ascii_letter c || chr_eqb c "_".

(** The class [[A-Za-z0-9_]]. *)
Definition ident_char (c : ascii) : bool :=
  is_ascii_letter c || isdecimal c || chr_eqb c "_".

(** [str.lower] on one character. *)
Definition lower_chr (c : ascii) : ascii :=
  if is_ascii_upper c || in_range 192 214 c || in_range 216 222 c
  then ascii_of_N (ord c + 32) else c.

Definition lower (s : str) : str := map lower_chr s.

(** [str.upper] on one character, as code points: three characters of the
    range leave it, and one becomes two characters. *)
Definition upper_cp (c : ascii) : list N :=
  if is_ascii_lower c || in_range 224 246 c || in_range 248 254 c
  then [(ord c - 32)%N]
  else if (ord c =? 181)%N then [924%N]
  else if (ord c =? 223)%N then [83%N; 83%N]
  else if (ord c =? 255)%N then [376%N]
  else [ord c].

Definition upper (s : str) : list N := flat_map upper_cp s.

Definition codes (s : str) : list N := map ord s.

Fixpoint drop_while (p : ascii -> bool) (s : str) : str :=
  match s with
  | [] => []
  | c :: t => if p c then drop_while p t else s
  end.

Definition lstrip_by (p : ascii -> bool) (s : str) : str := drop_while p s.
Definition rstrip_by (p : ascii -> bool) (s : str) : str :=
  rev (drop_while p (rev s)).

(** [s.strip()] *)
Definition strip (s : str) : str := rstrip_by isspace (lstrip_by isspace s).

(** [s.rstrip(chars)] *)
Definition rstrip (chars : str) (s : str) : str :=
  rstrip_by (fun c => existsb (chr_eqb c) chars) s.

Fixpoint starts_with {A : Type} (eqb : A -> A -> bool) (p s : list A) : bool :=
  match p, s with
  | [], _ => true
  | _ :: _, [] => false
  | a :: p', b :: s' => eqb a b && starts_with eqb p' s'
  end.

(** [needle in hay] *)
Fixpoint contains {A : Type} (eqb : A -> A -> bool) (needle hay : list A) : bool :=
  starts_with eqb needle hay
  || match hay with
     | [] => false
     | _ :: t => contains eqb needle t
     end.

(** [str(n)] for an [int], as an f-string renders it. *)
Definition str_of_int (n : Z) : str :=
  list_ascii_of_string (NilZero.string_of_int (Z.to_int n)).

End PyStr.
Import PyStr.

(* ================================================================== *)
(** * The [re] module *)
(* ================================================================== *)

Module Re.

(** The constructs that occur in the patterns of the file.  [Star] and [Plus]
    are the greedy repetitions of a one-character class, the only repetitions
    used.  A class is given by its members; the classes of the file contain,
    with a letter, its other case, so that [re.IGNORECASE] adds nothing to
    them (lemma [classes_ignore_case]). *)
Inductive regex : Type :=
| Bol                         (* ^ *)
| WordB                       (* \b *)
| Lit (w : str)               (* literal text *)
| Cls (p : ascii -> bool)     (* one character of a class *)
| Star (p : ascii -> bool)    (* class, zero or more times *)
| Plus (p : ascii -> bool)    (* class, one or more times *)
| Cat (r1 r2 : regex)
| Alt (r1 r2 : regex)
| Grp (r : regex).            (* ( ... ) *)

Definition wordp (c : option ascii) : bool :=
  match c with Some a => is_word a | None => false end.

(** [\b] holds where exactly one of the two neighbours is a word character;
    outside the string counts as a non-word character. *)
Definition at_boundary (prev : option ascii) (s : str) : bool :=
  xorb (wordp prev) (wordp (hd_error s)).

(** Equality of a pattern character and a subject character; under
    [re.IGNORECASE] both are compared in lower case. *)
Definition lit_eqb (ic : bool) (a b : ascii) : bool :=
  if ic then chr_eqb (lower_chr a) (lower_chr b) else chr_eqb a b.

(** Literal [w] at the front of [s]: the last character read and the rest. *)
Fixpoint lit_prefix (ic : bool) (w : str) (prev : option ascii) (s : str)
  : option (option ascii * str) :=
  match w with
  | [] => Some (prev, s)
  | a :: w' =>
      match s with
      | [] => None
      | b :: s' => if lit_eqb ic a b then lit_prefix ic w' (Some b) s' else None
      end
  end.

(** A match in progress: the groups closed so far, the character before the
    current position ([None] at the start of the string) and the text from
    the current position on. *)
Record mstate : Type := MState {
  groups : list str;
  before : option ascii;
  rest : str
}.

Definition cont : Type := list str -> option ascii -> str -> option mstate.

Definition accept : cont := fun g prev s => Some (MState g prev s).

(** Greedy repetition: the longest run first, then shorter ones. *)
Fixpoint star_loop (p : ascii -> bool) (k : option ascii -> str -> option mstate)
  (prev : option ascii) (s : str) : option mstate :=
  match s with
  | c :: s' =>
      if p c then
        match star_loop p k (Some c) s' with
        | Some m => Some m
        | None => k prev s
        end
      else k prev s
  | [] => k prev []
  end.

Fixpoint exec (ic : bool) (r : regex) (g : list str) (prev : option ascii)
  (s : str) (k : cont) : option mstate :=
  match r with
  | Bol => match prev with None => k g prev s | Some _ => None end
  | WordB => if at_boundary prev s then k g prev s else None
  | Lit w =>
      match lit_prefix ic w prev s with
      | Some (prev', s') => k g prev' s'
      | None => None
      end
  | Cls p =>
      match s with
      | c :: s' => if p c then k g (Some c) s' else None
      | [] => None
      end
  | Star p => star_loop p (k g) prev s
  | Plus p =>
      match s with
      | c :: s' => if p c then star_loop p (k g) (Some c) s' else None
      | [] => None
      end
  | Cat r1 r2 => exec ic r1 g prev s (fun g' prev' s' => exec ic r2 g' prev' s' k)
  | Alt r1 r2 =>
      match exec ic r1 g prev s k with
      | Some m => Some m
      | None => exec ic r2 g prev s k
      end
  | Grp r1 =>
      exec ic r1 g prev s
        (fun g' prev' s' => k (g' ++ [firstn (List.length s - List.length s') s]) prev' s')
  end.

(** The match of [r] that starts at the current position, if any. *)
Definition match_here (ic : bool) (r : regex) (prev : option ascii) (s : str)
  : option mstate :=
  exec ic r [] prev s accept.

(** [re.match(r, s)] *)
Definition re_match (ic : bool) (r : regex) (s : str) : option mstate :=
  match_here ic r None s.

Fixpoint search_from (ic : bool) (r : regex) (prev : option ascii) (s : str)
  : option mstate :=
  match match_here ic r prev s with
  | Some m => Some m
  | None =>
      match s with
      | [] => None
      | c :: s' => search_from ic r (Some c) s'
      end
  end.

(** [re.search(r, s)]: the leftmost match. *)
Definition search (ic : bool) (r : regex) (s : str) : option mstate :=
  search_from ic r None s.

(** The scan of [finditer]: [skip] characters remain inside the match found
    last; at a free position the pattern is tried, and after a match of [n]
    characters the scan resumes at its end.  (After an empty match the scan
    moves one character on; no pattern of the file matches the empty
    string.) *)
Fixpoint scan (ic : bool) (r : regex) (skip : nat) (prev : option ascii)
  (s : str) : list (list str) :=
  match skip with
  | S n =>
      match s with
      | [] => []
      | c :: s' => scan ic r n (Some c) s'
      end
  | O =>
      match match_here ic r prev s with
      | Some m =>
          groups m ::
          match s with
          | [] => []
          | c :: s' => scan ic r (List.length s - List.length (rest m) - 1) (Some c) s'
          end
      | None =>
          match s with
          | [] => []
          | c :: s' => scan ic r 0 (Some c) s'
          end
      end
  end.

(** [r.finditer(s)], each match given by its groups. *)
Definition finditer (ic : bool) (r : regex) (s : str) : list (list str) :=
  scan ic r 0 None s.

Definition is_some {A : Type} (o : option A) : bool :=
  match o with Some _ => true | None => false end.

End Re.
Import Re.

(* ================================================================== *)
(** * Nl2sql/Generate_sql.py *)
(* ================================================================== *)

Module Generate_sql.

Definition str_eqb (a b : str) : bool :=
  (List.length a =? List.length b) && starts_with chr_eqb a b.

Definition ALLOWED_TABLE : str := py "transactions".

Definition ALLOWED_COLUMNS : list str :=
  [py "id"; py "ts"; py "amount"; py "ccy"; py "counterparty"; py "book"].

(** ** Guardrails *)

Definition IGNORECASE : bool := true.
Definition NOFLAGS : bool := false.

(** An alternation [w|w1|...|wn] of literal words. *)
Fixpoint alts (w : str) (ws : list str) : regex :=
  match ws with
  | [] => Lit w
  | w' :: t => Alt (Lit w) (alts w' t)
  end.

Definition DDL_DML_WORDS : list str :=
  [py "DELETE"; py "UPDATE"; py "INSERT"; py "ALTER"; py "CREATE";
   py "TRUNCATE"; py "ATTACH"; py "PRAGMA"; py "VACUUM"].

(** The pattern "\b(DROP|DELETE|UPDATE|INSERT|ALTER|CREATE|TRUNCATE|ATTACH|PRAGMA|VACUUM)\b". *)
Definition DDL_DML_PATTERN : regex :=
  Cat WordB (Cat (Grp (alts (py "DROP") DDL_DML_WORDS)) WordB).

(** The pattern "[A-Za-z_][A-Za-z0-9_]*". *)
Definition IDENT_PATTERN : regex := Cat (Cls ident_start) (Star ident_char).

Definition AGG_FUNCS : list str :=
  [py "COUNT"; py "SUM"; py "AVG"; py "MIN"; py "MAX"].

(** The pattern "^\s*SELECT\b". *)
Definition SELECT_PATTERN : regex :=
  Cat Bol (Cat (Star isspace) (Cat (Lit (py "SELECT")) WordB)).

Definition is_select (sql : str) : bool :=
  is_some (re_match IGNORECASE SELECT_PATTERN sql).

Definition TABLE_NAME : str := lower ALLOWED_TABLE.
Definition ALLOWED_COLS_LC : list str := map lower ALLOWED_COLUMNS.

(** The pattern "\bFROM\s+(I)", where I is the text of [IDENT_PATTERN]. *)
Definition TABLE_FROM_PATTERN : regex :=
  Cat WordB (Cat (Lit (py "FROM")) (Cat (Plus isspace) (Grp IDENT_PATTERN))).

(** The pattern "\bJOIN\s+(I)", where I is the text of [IDENT_PATTERN]. *)
Definition TABLE_JOIN_PATTERN : regex :=
  Cat WordB (Cat (Lit (py "JOIN")) (Cat (Plus isspace) (Grp IDENT_PATTERN))).

(** The pattern "\b(I)\.(I)", where I is the text of [IDENT_PATTERN]; it is
    compiled without flags. *)
Definition DOT_COL_PATTERN : regex :=
  Cat WordB (Cat (Grp IDENT_PATTERN) (Cat (Lit (py ".")) (Grp IDENT_PATTERN))).

(** [m.group(i)] for [i >= 1]. *)
Definition group (i : nat) (m : list str) : str := nth (i - 1) m [].

(** The first loop that meets a table other than [TABLE_NAME] returns
    [False]; otherwise at least one [FROM <identifier>] is required. *)
Definition only_allowed_tables (sql : str) : bool :=
  if existsb (fun m => negb (str_eqb (lower (group 1 m)) TABLE_NAME))
       (finditer IGNORECASE TABLE_FROM_PATTERN sql)
  then false
  else if existsb (fun m => negb (str_eqb (lower (group 1 m)) TABLE_NAME))
            (finditer IGNORECASE TABLE_JOIN_PATTERN sql)
  then false
  else is_some (search IGNORECASE TABLE_FROM_PATTERN sql).

Definition dot_columns_are_allowed (sql : str) : bool :=
  if existsb
       (fun m =>
          let t := lower (group 1 m) in
          let c := lower (group 2 m) in
          negb (str_eqb t TABLE_NAME) || negb (existsb (str_eqb c) ALLOWED_COLS_LC))
       (finditer NOFLAGS DOT_COL_PATTERN sql)
  then false
  else true.

(** The pattern "\bLIMIT\s+\d+\b". *)
Definition LIMIT_PATTERN : regex :=
  Cat WordB (Cat (Lit (py "LIMIT")) (Cat (Plus isspace) (Cat (Plus isdecimal) WordB))).

Definition has_limit (sql : str) : bool :=
  is_some (search IGNORECASE LIMIT_PATTERN sql).

Definition is_aggregate (sql : str) : bool :=
  existsb (fun func => contains N.eqb (codes func) (upper sql)) AGG_FUNCS.

Definition DEFAULT_LIMIT : Z := 100.

Definition add_default_limit (sql : str) (default_limit : Z) : str :=
  if negb (has_limit sql) && negb (is_aggregate sql)
  then rstrip (py ";") sql ++ py " LIMIT " ++ str_of_int default_limit ++ py ";"
  else sql.

Definition MSG_ONLY_SELECT : str := py "Only SELECT queries are allowed.".
Definition MSG_DDL_DML : str :=
  py "Destructive or unsafe SQL detected (DDL/DML not allowed).".
Definition MSG_TABLES : str :=
  py "Query references unknown or disallowed tables.".
Definition MSG_COLUMNS : str :=
  py "Query references unknown columns via dot notation.".

(** [sql.strip().rstrip(";") + ";"] *)
Definition clean (sql : str) : str := rstrip (py ";") (strip sql) ++ py ";".

Definition sanitize_sql (sql : str) : bool * str :=
  let sql_clean := clean sql in
  if negb (is_select sql_clean) then (false, MSG_ONLY_SELECT)
  else if is_some (search IGNORECASE DDL_DML_PATTERN sql_clean)
  then (false, MSG_DDL_DML)
  else if negb (only_allowed_tables sql_clean) then (false, MSG_TABLES)
  else if negb (dot_columns_are_allowed sql_clean) then (false, MSG_COLUMNS)
  else (true, add_default_limit sql_clean DEFAULT_LIMIT).

(** ** Execution and the entry point *)

(** What a call gives: a value, or an exception with its text. *)
Inductive result (A : Type) : Type :=
| Returned (a : A)
| Raised (e : str).
Arguments Returned {A} a.
Arguments Raised {A} e.

(** What the database connection is asked to do, in order. *)
Inductive event : Type :=
| Connect (db_path : str)
| Query (sql : str)
| Close.

Section Pipeline.

Variable Row : Type.

Definition DataFrame : Type := list Row.

(** The collaborators of the pipeline: the file system, the language-model
    adapter [llm_sql] and the database engine. *)
Record World : Type := {
  path_exists : str -> bool;
  llm_sql : str -> str -> result str;
  sqlite3_connect : str -> result unit;
  read_sql_query : str -> str -> result DataFrame
}.

(** [df.head(n)], which is [df.iloc[:n]]: the first [n] rows, and for a
    negative [n] all rows but the last [-n]. *)
Definition head (n : Z) (df : DataFrame) : DataFrame :=
  if (0 <=? n)%Z then firstn (Z.to_nat n) df
  else firstn (Z.to_nat (Z.of_nat (List.length df) + n)) df.

Definition DEFAULT_LIMIT_ROWS : Z := 100.

Definition execute_sql (w : World) (db_path sql : str) (limit_rows : Z)
  : result DataFrame * list event :=
  match sqlite3_connect w db_path with
  | Raised e => (Raised e, [Connect db_path])
  | Returned _ =>
      match read_sql_query w db_path sql with
      | Returned df =>
          let df' :=
            if (Z.of_nat (List.length df) >? limit_rows)%Z
            then head limit_rows df else df in
          (Returned df', [Connect db_path; Query sql; Close])
      | Raised e => (Raised e, [Connect db_path; Query sql; Close])
      end
  end.

Definition DEFAULT_DB_PATH : str := py "data/transactions.db".
Definition DEFAULT_MODEL : str := py "gpt-4o-mini".

(** The triple [(generated_sql, dataframe, error_message)]. *)
Definition Outcome : Type := option str * option DataFrame * option str.

Definition generated_sql (o : Outcome) : option str := fst (fst o).
Definition dataframe (o : Outcome) : option DataFrame := snd (fst o).
Definition error_message (o : Outcome) : option str := snd o.

Definition nl2sql_run (w : World) (user_query db_path model : str)
  : Outcome * list event :=
  if negb (path_exists w db_path) then
    ((None, None,
      Some (py "Database not found at " ++ db_path
            ++ py ". Run data/make_transactions_db.py first.")), [])
  else
    match llm_sql w user_query model with
    | Raised e => ((None, None, Some (py "LLM error: " ++ e)), [])
    | Returned raw_sql =>
        let (ok, safe_or_msg) := sanitize_sql raw_sql in
        if negb ok then
          ((Some raw_sql, None, Some (py "Blocked query: " ++ safe_or_msg)), [])
        else
          match execute_sql w db_path safe_or_msg DEFAULT_LIMIT_ROWS with
          | (Returned df, tr) => ((Some safe_or_msg, Some df, None), tr)
          | (Raised e, tr) =>
              ((Some safe_or_msg, None, Some (py "SQL execution error: " ++ e)), tr)
          end
    end.

End Pipeline.

Arguments path_exists {Row} w _.
Arguments llm_sql {Row} w _ _.
Arguments sqlite3_connect {Row} w _.
Arguments read_sql_query {Row} w _ _.
Arguments head {Row} n df.
Arguments execute_sql {Row} w db_path sql limit_rows.
Arguments generated_sql {Row} o.
Arguments dataframe {Row} o.
Arguments error_message {Row} o.
Arguments nl2sql_run {Row} w user_query db_path model.

End Generate_sql.
Import Generate_sql.

(* ================================================================== *)
(** * The words of the specification *)
(* ================================================================== *)

(** The notions that the specification uses to describe the gates, written
    directly on the text (no pattern matching engine), to be compared with
    the functions above. *)

Module Spec.

(** The verdicts of the validator and their messages. *)
Inductive reason : Type :=
| NotASelect
| UnsafeKeyword
| UnknownTable
| UnknownColumn.

Definition reason_message (r : reason) : str :=
  match r with
  | NotASelect => MSG_ONLY_SELECT
  | UnsafeKeyword => MSG_DDL_DML
  | UnknownTable => MSG_TABLES
  | UnknownColumn => MSG_COLUMNS
  end.

Definition Rejected (r : reason) : bool * str := (false, reason_message r).
Definition Accepted (sql : str) : bool * str := (true, sql).

(** The character before the position reached by reading [u], when the
    character before [u] is [prev]. *)
Fixpoint last_or (prev : option ascii) (u : str) : option ascii :=
  match u with
  | [] => prev
  | c :: t => last_or (Some c) t
  end.

Definition ident_charp (c : option ascii) : bool :=
  match c with Some a => ident_char a | None => false end.

(** [w] occurs in [s] as a whole word, in any case: some [u] that equals [w]
    up to case lies between two non-word neighbours (or the ends). *)
Definition whole_word_in (w s : str) : Prop :=
  exists pre u post,
    s = pre ++ u ++ post /\ lower u = lower w /\
    wordp (last_or None pre) = false /\ wordp (hd_error post) = false.

(** The same, decided position by position. *)
Fixpoint has_word_from (w : str) (prev : option ascii) (s : str) : bool :=
  (negb (wordp prev)
   && starts_with chr_eqb (lower w) (lower s)
   && negb (wordp (hd_error (skipn (List.length w) s))))
  || match s with
     | [] => false
     | c :: t => has_word_from w (Some c) t
     end.

Definition has_word (w s : str) : bool := has_word_from w None s.

Definition DENYLIST : list str :=
  [py "DROP"; py "DELETE"; py "UPDATE"; py "INSERT"; py "ALTER"; py "CREATE";
   py "TRUNCATE"; py "ATTACH"; py "PRAGMA"; py "VACUUM"].

Definition AGGREGATE_WORDS : list str :=
  [py "COUNT"; py "SUM"; py "AVG"; py "MIN"; py "MAX"].

(** An aggregate query in the words of the specification: one of the
    aggregate function names appears as a whole word. *)
Definition aggregate_word (s : str) : Prop :=
  exists f, In f AGGREGATE_WORDS /\ whole_word_in f s.

Definition has_aggregate_word (s : str) : bool :=
  existsb (fun f => has_word f s) AGGREGATE_WORDS.

(** The text begins, after optional white space, with the keyword SELECT in
    any case, as a whole word. *)
Definition starts_with_select (s : str) : Prop :=
  exists ws u post,
    s = ws ++ u ++ post /\ forallb isspace ws = true /\
    lower u = py "select" /\ wordp (hd_error post) = false.

(** Terminators outside quoted literals. *)
Fixpoint top_level_semicolons (in_quote : bool) (s : str) : nat :=
  match s with
  | [] => 0
  | c :: t =>
      if chr_eqb c "'" then top_level_semicolons (negb in_quote) t
      else if chr_eqb c ";" && negb in_quote
           then S (top_level_semicolons in_quote t)
           else top_level_semicolons in_quote t
  end.

(** A single statement: the cleaned text has its final terminator and no
    other. *)
Definition single_statement (s : str) : bool :=
  top_level_semicolons false s =? 1.

Definition is_identifier (id : str) : bool :=
  match id with
  | [] => false
  | c :: t => ident_start c && forallb ident_char t
  end.

(** [id] is an identifier that immediately follows the keyword [kw]: the
    keyword (any case) starts a word, white space follows, then the whole of
    the identifier. *)
Definition follows_keyword (kw id s : str) : Prop :=
  exists pre u ws post,
    s = pre ++ u ++ ws ++ id ++ post /\
    wordp (last_or None pre) = false /\ lower u = lower kw /\
    ws <> [] /\ forallb isspace ws = true /\
    is_identifier id = true /\ ident_charp (hd_error post) = false.

Definition is_allowed_table (id : str) : Prop := lower id = py "transactions".

(** Every identifier after FROM or JOIN is the allowed table, and some
    FROM names it. *)
Definition tables_allowed (s : str) : Prop :=
  (forall id,
      follows_keyword (py "FROM") id s \/ follows_keyword (py "JOIN") id s ->
      is_allowed_table id) /\
  (exists id, follows_keyword (py "FROM") id s /\ is_allowed_table id).

(** A name written as a quoted identifier of SQL, between double quotes. *)
Definition DQUOTE : ascii := "034"%char.
Definition quoted (name : str) : str := DQUOTE :: name ++ [DQUOTE].

(** [t.c] occurs in [s]: two whole identifiers joined by a dot, the first
    starting a word. *)
Definition qualified_ref (t c s : str) : Prop :=
  exists pre post,
    s = pre ++ t ++ py "." ++ c ++ post /\
    wordp (last_or None pre) = false /\
    is_identifier t = true /\ is_identifier c = true /\
    ident_charp (hd_error post) = false.

Definition COLUMNS : list str :=
  [py "id"; py "ts"; py "amount"; py "ccy"; py "counterparty"; py "book"].

Definition is_allowed_column (c : str) : Prop := In (lower c) COLUMNS.

(** Only white space and terminators. *)
Definition blank (s : str) : bool :=
  forallb (fun c => isspace c || chr_eqb c ";") s.

(** [out] is the first [n] rows of [df], exactly. *)
Definition first_rows {Row : Type} (n : Z) (df out : list Row) : Prop :=
  (exists tl, df = out ++ tl) /\ Z.of_nat (List.length out) = n.

Definition is_prefix {Row : Type} (out df : list Row) : Prop :=
  exists tl, df = out ++ tl.

(** No character of class [p] at the head of [s]. *)
Definition stops (p : ascii -> bool) (s : str) : Prop :=
  match s with
  | [] => True
  | c :: _ => p c = false
  end.

(** The candidate passes the statement-shape gate and the forbidden-keyword
    gate of [sanitize_sql], so that the table gate is consulted. *)
Definition reaches_table_gate (s : str) : bool :=
  is_select (clean s)
  && negb (is_some (search IGNORECASE DDL_DML_PATTERN (clean s))).

(** A world for examples: the database file exists, the language model
    answers with the text of the question, and every query returns the rows
    [0 .. n-1]. *)
Definition echo_world (n : nat) : World nat :=
  {| path_exists := fun _ => true;
     llm_sql := fun q _ => Returned q;
     sqlite3_connect := fun _ => Returned tt;
     read_sql_query := fun _ _ => Returned (seq 0 n) |}.

End Spec.
Import Spec.

(* ================================================================== *)
(** * re.sub and counted repetitions *)
(* ================================================================== *)

Module ReSub.

(** A compiled pattern, as the match it finds at a position: the character
    before the position and the text from the position on. *)
Definition matcher : Type := option ascii -> str -> option mstate.

Definition compiled (ic : bool) (r : regex) : matcher := match_here ic r.

(** The scan of [pattern.sub(repl, s)]: the text outside the matches is
    copied, each match is replaced by [repl] and the scan resumes at its end.
    After an empty match the replacement is written and the scan moves one
    character on. *)
Fixpoint sub_scan (m : matcher) (repl : str) (skip : nat)
  (prev : option ascii) (s : str) : str :=
  match skip with
  | S n =>
      match s with
      | [] => []
      | c :: s' => sub_scan m repl n (Some c) s'
      end
  | O =>
      match m prev s with
      | Some ms =>
          repl ++
          match s with
          | [] => []
          | c :: s' =>
              match List.length s - List.length (rest ms) with
              | O => c :: sub_scan m repl 0 (Some c) s'
              | S n => sub_scan m repl n (Some c) s'
              end
          end
      | None =>
          match s with
          | [] => []
          | c :: s' => c :: sub_scan m repl 0 (Some c) s'
          end
      end
  end.

Definition sub (m : matcher) (repl s : str) : str := sub_scan m repl 0 None s.

(** The pattern "r?" *)
Definition optional (r : regex) : regex := Alt r (Lit []).

(** The pattern "c{n}r": [n] characters of the class, then [r]. *)
Fixpoint times (p : ascii -> bool) (n : nat) (r : regex) : regex :=
  match n with
  | O => r
  | S n' => Cat (Cls p) (times p n' r)
  end.

(** The pattern "c{0,m}": at most [m] characters of the class, as many as
    possible first. *)
Fixpoint upto (p : ascii -> bool) (m : nat) : regex :=
  match m with
  | O => Lit []
  | S m' => Alt (Cat (Cls p) (upto p m')) (Lit [])
  end.

End ReSub.
Import ReSub.

(* ================================================================== *)
(** * Utils/Privacy.py *)
(* ================================================================== *)

Module Privacy.

Definition one_of (chars : str) (c : ascii) : bool := existsb (chr_eqb c) chars.

(** The class "[A-Za-z0-9._%+-]" *)
Definition email_local (c : ascii) : bool :=
  is_ascii_letter c || in_range 48 57 c || one_of (py "._%+-") c.

(** The class "[A-Za-z0-9.-]" *)
Definition email_domain (c : ascii) : bool :=
  is_ascii_letter c || in_range 48 57 c || one_of (py ".-") c.

(** The class "[\d\s\-()]" *)
Definition phone_char (c : ascii) : bool :=
  isdecimal c || isspace c || one_of (py "-()") c.

(** The pattern "\b[A-Za-z0-9._%+-]+@[A-Za-z0-9.-]+\.[A-Za-z]{2,}\b" *)
Definition EMAIL : regex :=
  Cat WordB
    (Cat (Plus email_local)
       (Cat (Lit (py "@"))
          (Cat (Plus email_domain)
             (Cat (Lit (py "."))
                (Cat (times is_ascii_letter 2 (Star is_ascii_letter)) WordB))))).

(** The pattern "\b\d{10,16}\b" *)
Definition ACCOUNT : regex :=
  Cat WordB (Cat (times isdecimal 10 (upto isdecimal 6)) WordB).

(** The pattern "\b\+?\d[\d\s\-()]{7,}\b" *)
Definition PHONE : regex :=
  Cat WordB
    (Cat (optional (Lit (py "+")))
       (Cat (Cls isdecimal)
          (Cat (times phone_char 7 (Star phone_char)) WordB))).

Definition redact (text : str) : str :=
  let text := sub (compiled NOFLAGS EMAIL) (py "[EMAIL]") text in
  let text := sub (compiled NOFLAGS ACCOUNT) (py "[ACCT]") text in
  let text := sub (compiled NOFLAGS PHONE) (py "[PHONE]") text in
  text.

End Privacy.
Import Privacy.

(* ================================================================== *)
(** * The text that [llm_sql] returns *)
(* ================================================================== *)

Module Llm_sql.

(** The first alternative of the fence pattern, "^```(?:sql)?\s*". *)
Definition FENCE_OPEN : regex :=
  Cat Bol (Cat (Lit (py "```")) (Cat (optional (Lit (py "sql"))) (Star isspace))).

(** The second alternative without its anchor, "\s*```". *)
Definition FENCE_CLOSE : regex := Cat (Star isspace) (Lit (py "```")).

(** The anchor "$": the end of the string, or just before a newline that
    ends the string. *)
Definition at_end (s : str) : bool :=
  match s with
  | [] => true
  | [c] => chr_eqb c "010"
  | _ => false
  end.

(** The pattern "^```(?:sql)?\s*|\s*```$" under [re.IGNORECASE]: the first
    alternative, and the second when the first finds nothing. *)
Definition FENCE : matcher := fun prev s =>
  match exec IGNORECASE FENCE_OPEN [] prev s accept with
  | Some m => Some m
  | None =>
      exec IGNORECASE FENCE_CLOSE [] prev s
        (fun g prev' s' => if at_end s' then accept g prev' s' else None)
  end.

(** [s.replace(c, new)] for a one-character [c]. *)
Definition replace_char (c : ascii) (new : str) (s : str) : str :=
  flat_map (fun x => if chr_eqb x c then new else [x]) s.

(** Lines 61-66 of [llm_sql]: what the function returns when the reply of the
    model has the text [content].  (The replacement of the typographic
    apostrophe U+2019 is the identity on the strings modelled here.) *)
Definition llm_sql_text (content : str) : str :=
  let sql := strip content in
  let sql := strip (sub FENCE [] sql) in
  replace_char "`" [] sql.

End Llm_sql.
Import Llm_sql.

(* ================================================================== *)
(** * Rag/Ingest.py *)
(* ================================================================== *)

Module Ingest.

(** [s.split()]: the maximal runs of characters that are not white space;
    [cur] holds the run being read, last character first. *)
Fixpoint split_from (cur : str) (s : str) : list str :=
  match s with
  | [] => match cur with [] => [] | _ :: _ => [rev cur] end
  | c :: t =>
      if isspace c
      then match cur with
           | [] => split_from [] t
           | _ :: _ => rev cur :: split_from [] t
           end
      else split_from (c :: cur) t
  end.

Definition split (s : str) : list str := split_from [] s.

(** [sep.join(l)] *)
Definition join (sep : str) (l : list str) : str :=
  match l with
  | [] => []
  | w :: t => w ++ flat_map (fun x => sep ++ x) t
  end.

(** A bound of a slice, brought into [0 .. len]. *)
Definition slice_index (len i : Z) : Z :=
  (if i <? 0 then Z.max 0 (len + i) else Z.min len i)%Z.

(** [l[a:b]] *)
Definition slice {A : Type} (l : list A) (a b : Z) : list A :=
  let len := Z.of_nat (List.length l) in
  let a' := slice_index len a in
  let b' := slice_index len b in
  firstn (Z.to_nat (b' - a')) (skipn (Z.to_nat a') l).

Definition range_length (start stop step : Z) : Z :=
  (if 0 <? step
   then (if start <? stop then (stop - start - 1) / step + 1 else 0)
   else (if stop <? start then (start - stop - 1) / (- step) + 1 else 0))%Z.

(** [list(range(start, stop, step))]; a zero step raises ValueError. *)
Definition range (start stop step : Z) : result (list Z) :=
  if (step =? 0)%Z then Raised (py "range() arg 3 must not be zero")
  else Returned
         (map (fun j => (start + Z.of_nat j * step)%Z)
            (seq 0 (Z.to_nat (range_length start stop step)))).

Definition chunk_text (text : str) (words_per_chunk overlap : Z)
  : result (list str) :=
  let words := split text in
  let step := (words_per_chunk - overlap)%Z in
  match range 0 (Z.max 1 (Z.of_nat (List.length words))) step with
  | Raised e => Raised e
  | Returned indices =>
      Returned
        (flat_map
           (fun i =>
              let chunk := join (py " ") (slice words i (i + words_per_chunk)) in
              match strip chunk with
              | [] => []
              | _ :: _ => [chunk]
              end)
           indices)
  end.

Definition DEFAULT_WORDS_PER_CHUNK : Z := 300.
Definition DEFAULT_OVERLAP : Z := 50.

(** [s.endswith(suffix)] *)
Definition endswith (s suffix : str) : bool :=
  starts_with chr_eqb (rev suffix) (rev s).

(** One entry of the list that [load_pdfs_to_chunks] builds. *)
Record Doc : Type := MkDoc {
  doc_text : str;
  doc_source : str;
  doc_page : Z
}.

(** A file of the folder: its name and what [fitz.open] gives, the pages
    with what [get_text] gives for each. *)
Definition FolderEntry : Type := str * result (list (result str)).

(** The chunks of the pages from number [page_num] on; reading stops at the
    first exception, with its text, and what was appended before stays. *)
Fixpoint page_docs (fname : str) (page_num : Z) (pages : list (result str))
  : list Doc * option str :=
  match pages with
  | [] => ([], None)
  | Raised e :: _ => ([], Some e)
  | Returned [] :: more => page_docs fname (page_num + 1) more
  | Returned text :: more =>
      match chunk_text text 300 60 with
      | Raised e => ([], Some e)
      | Returned chunks =>
          let (later, err) := page_docs fname (page_num + 1) more in
          (map (fun chunk => MkDoc chunk fname (page_num + 1)) chunks ++ later,
           err)
      end
  end.

(** [load_pdfs_to_chunks]: the entries of the folder in the order of
    [os.listdir]; the result and the warnings printed. *)
Fixpoint load_pdfs_to_chunks (folder : list FolderEntry)
  : list Doc * list str :=
  match folder with
  | [] => ([], [])
  | (fname, opened) :: more =>
      let (docs, warnings) := load_pdfs_to_chunks more in
      if negb (endswith (lower fname) (py ".pdf")) then (docs, warnings)
      else
        match opened with
        | Raised e =>
            (docs, (py "[WARN] Failed to read " ++ fname ++ py ": " ++ e)
                   :: warnings)
        | Returned pages =>
            match page_docs fname 0 pages with
            | (here, None) => (here ++ docs, warnings)
            | (here, Some e) =>
                (here ++ docs,
                 (py "[WARN] Failed to read " ++ fname ++ py ": " ++ e)
                 :: warnings)
            end
        end
  end.

End Ingest.
Import Ingest.

(* ================================================================== *)
(** * App.py *)
(* ================================================================== *)

Module App.

(** What the page shows. *)
Inductive ui (Row : Type) : Type :=
| Caption (label : str)          (* the note that [label] was redacted *)
| Subheader (title : str)
| Code (sql : str)
| Error (msg : str)
| Dataframe (df : list Row).
Arguments Caption {Row} label.
Arguments Subheader {Row} title.
Arguments Code {Row} sql.
Arguments Error {Row} msg.
Arguments Dataframe {Row} df.

(** [apply_privacy], with the state of the sidebar toggle as an argument:
    the text returned and what is shown. *)
Definition apply_privacy {Row : Type} (PRIVACY_ON : bool) (label text : str)
  : str * list (ui Row) :=
  match text with
  | [] => (text, [])
  | _ :: _ =>
      let red := if PRIVACY_ON then redact text else text in
      if negb (str_eqb red text) then (red, [Caption label]) else (red, [])
  end.

Definition truthy (o : option str) : bool :=
  match o with
  | Some (_ :: _) => true
  | _ => false
  end.

(** The handler of the button of the NL-to-SQL tab. *)
Definition run_nl2sql_tab {Row : Type} (PRIVACY_ON : bool) (w : World Row)
  (user_q model_name : str) : list (ui Row) * list event :=
  let (safe_query, shown) := apply_privacy PRIVACY_ON (py "NL Query") user_q in
  let (outcome, tr) := nl2sql_run w safe_query DEFAULT_DB_PATH model_name in
  let sql := generated_sql outcome in
  let df := dataframe outcome in
  let err := error_message outcome in
  (shown
   ++ (match sql with
       | Some (c :: t) => [Subheader (py "Generated SQL"); Code (c :: t)]
       | _ => []
       end)
   ++ (if truthy err
       then match err with Some e => [Error e] | None => [] end
       else match df with
            | Some d => [Subheader (py "Results"); Dataframe d]
            | None => []
            end),
   tr).

End App.
Import App.

(* ================================================================== *)
(** * Words for the further properties *)
(* ================================================================== *)

Module Words.

(** No decimal digit, no at sign. *)
Definition no_digit (s : str) : Prop := forall c, In c s -> isdecimal c = false.
Definition no_at (s : str) : Prop := ~ In "@"%char s.




(** A word as [split] gives it: not empty, without white space. *)
Definition nospace (c : ascii) : bool := negb (isspace c).
Definition pyword (w : str) : Prop := w <> [] /\ forallb nospace w = true.

(** The words from number [j * step] on, at most [size] of them. *)
Definition window {A : Type} (size step : nat) (words : list A) (j : nat)
  : list A :=
  firstn size (skipn (j * step) words).

Definition chunk_count (n step : nat) : nat :=
  if n =? 0 then 0 else (n - 1) / step + 1.

(** What the page shows apart from the notes on redaction. *)
Definition is_caption {Row : Type} (u : ui Row) : bool :=
  match u with Caption _ => true | _ => false end.

Definition without_captions {Row : Type} (shown : list (ui Row))
  : list (ui Row) :=
  filter (fun u => negb (is_caption u)) shown.

Definition newline : str := ["010"%char].
Definition carriage_return : str := ["013"%char].

Definition email_localp (c : option ascii) : bool :=
  match c with Some a => email_local a | None => false end.

Definition email_domainp (c : option ascii) : bool :=
  match c with Some a => email_domain a | None => false end.

End Words.
Import Words.

(* ================================================================== *)
(** * Properties *)
(* ================================================================== *)

(** ** Characters *)

Ltac each_char c :=
  destruct c as [[] [] [] [] [] [] [] []]; vm_compute; try reflexivity;
  try discriminate; auto.

Lemma isspace_not_word c : isspace c = true -> is_word c = false.
Proof. each_char c. Qed.

Lemma ident_char_word c : ident_char c = true -> is_word c = true.
Proof. each_char c. Qed.

Lemma ident_start_char c : ident_start c = true -> ident_char c = true.
Proof. each_char c. Qed.

Lemma letter_ident_start c : is_ascii_letter c = true -> ident_start c = true.
Proof. each_char c. Qed.

Lemma letter_not_space c : is_ascii_letter c = true -> isspace c = false.
Proof. each_char c. Qed.

Lemma isspace_not_ident c : isspace c = true -> ident_char c = false.
Proof. each_char c. Qed.

Lemma decimal_word c : isdecimal c = true -> is_word c = true.
Proof. each_char c. Qed.

Lemma decimal_not_space c : isdecimal c = true -> isspace c = false.
Proof. each_char c. Qed.

Lemma lower_of_letter c :
  is_ascii_letter c = true -> is_ascii_lower (lower_chr c) = true.
Proof. each_char c. Qed.

Lemma letter_of_lower c :
  is_ascii_lower (lower_chr c) = true -> is_ascii_letter c = true.
Proof. each_char c. Qed.

Lemma lower_chr_idem c : lower_chr (lower_chr c) = lower_chr c.
Proof. each_char c. Qed.

Lemma ident_char_lower c : ident_char (lower_chr c) = ident_char c.
Proof. each_char c. Qed.

(** The classes used in the patterns do not tell a character from its other
    case. *)
Lemma classes_ignore_case c :
  isspace (lower_chr c) = isspace c /\ isdecimal (lower_chr c) = isdecimal c /\
  ident_start (lower_chr c) = ident_start c /\
  ident_char (lower_chr c) = ident_char c.
Proof. each_char c. Qed.

Lemma chr_eqb_eq a b : chr_eqb a b = true <-> a = b.
Proof. apply Ascii.eqb_eq. Qed.

Lemma chr_eqb_refl a : chr_eqb a a = true.
Proof. apply Ascii.eqb_refl. Qed.

Lemma lit_eqb_ic a b : lit_eqb true a b = true <-> lower_chr a = lower_chr b.
Proof. unfold lit_eqb. apply chr_eqb_eq. Qed.

Lemma same_case_letter a c :
  lower_chr c = lower_chr a -> is_ascii_letter a = true ->
  is_ascii_letter c = true.
Proof.
  intros E L. apply letter_of_lower. rewrite E. now apply lower_of_letter.
Qed.

(** ** Lists of characters *)

Lemma last_or_app prev a b : last_or prev (a ++ b) = last_or (last_or prev a) b.
Proof. revert prev. induction a as [|c a IH]; intros prev; simpl; auto. Qed.

Lemma last_or_snoc prev a c : last_or prev (a ++ [c]) = Some c.
Proof. now rewrite last_or_app. Qed.

Lemma last_or_cons_some prev c t : last_or prev (c :: t) = last_or (Some c) t.
Proof. reflexivity. Qed.

Lemma last_or_In prev u c : last_or prev u = Some c -> prev = Some c \/ In c u.
Proof.
  revert prev. induction u as [|a u IH]; intros prev H; simpl in *; auto.
  destruct (IH _ H) as [E|I]; [inversion E|]; auto.
Qed.

Lemma last_or_nonempty prev u : u <> [] -> last_or prev u = last_or None u.
Proof. destruct u; [congruence|reflexivity]. Qed.

Lemma last_or_forall (p : ascii -> bool) prev u :
  u <> [] -> forallb p u = true ->
  exists c, last_or prev u = Some c /\ p c = true.
Proof.
  revert prev. induction u as [|a u IH]; intros prev N F; [congruence|].
  simpl in F. apply andb_true_iff in F as [Fa Fu].
  destruct u as [|b u].
  - exists a. now split.
  - simpl. apply (IH (Some a)); [discriminate|exact Fu].
Qed.

Lemma lower_app a b : lower (a ++ b) = lower a ++ lower b.
Proof. apply map_app. Qed.

Lemma lower_length a : List.length (lower a) = List.length a.
Proof. apply length_map. Qed.

Lemma starts_with_same_length a b :
  List.length a = List.length b -> starts_with chr_eqb a b = true -> a = b.
Proof.
  revert b. induction a as [|x a IH]; intros [|y b] L H; simpl in *;
    try discriminate; auto.
  apply andb_true_iff in H as [H1 H2]. apply chr_eqb_eq in H1. subst y.
  f_equal. apply IH; [lia|exact H2].
Qed.

Lemma starts_with_refl a : starts_with chr_eqb a a = true.
Proof. induction a as [|x a IH]; simpl; auto. now rewrite chr_eqb_refl. Qed.

Lemma str_eqb_eq a b : str_eqb a b = true <-> a = b.
Proof.
  unfold str_eqb. rewrite andb_true_iff, Nat.eqb_eq. split.
  - intros [L H]. now apply starts_with_same_length.
  - intros ->. split; [reflexivity|apply starts_with_refl].
Qed.

Lemma str_eqb_neq a b : str_eqb a b = false <-> a <> b.
Proof.
  split.
  - intros H E. apply str_eqb_eq in E. congruence.
  - intros N. destruct (str_eqb a b) eqn:E; [|reflexivity].
    apply str_eqb_eq in E. contradiction.
Qed.

Lemma drop_while_app_stop (p : ascii -> bool) a c b :
  p c = false -> drop_while p (a ++ c :: b) = drop_while p a ++ c :: b.
Proof.
  intros Hc. induction a as [|x a IH]; simpl.
  - now rewrite Hc.
  - destruct (p x); auto.
Qed.

Lemma drop_while_suffix (p : ascii -> bool) s :
  exists d, s = d ++ drop_while p s /\ forallb p d = true.
Proof.
  induction s as [|x s [d [E F]]]; simpl.
  - now exists [].
  - destruct (p x) eqn:Px.
    + exists (x :: d). simpl. rewrite Px, F. split; [now f_equal|reflexivity].
    + now exists [].
Qed.

Lemma drop_while_hd (p : ascii -> bool) s c t :
  drop_while p s = c :: t -> p c = false.
Proof.
  induction s as [|x s IH]; simpl; [discriminate|].
  destruct (p x) eqn:Px; auto. intros E. inversion E; subst. exact Px.
Qed.

Lemma rstrip_by_prefix (p : ascii -> bool) s :
  exists d, s = rstrip_by p s ++ d /\ forallb p d = true.
Proof.
  unfold rstrip_by. destruct (drop_while_suffix p (rev s)) as [d [E F]].
  exists (rev d). split.
  - rewrite <- rev_app_distr, <- E. now rewrite rev_involutive.
  - rewrite forallb_forall in *. intros x Hx. apply F. now apply in_rev.
Qed.

Lemma rstrip_by_app_stop (p : ascii -> bool) a c b :
  p c = false -> rstrip_by p (a ++ c :: b) = a ++ c :: rstrip_by p b.
Proof.
  intros Hc. unfold rstrip_by.
  replace (a ++ c :: b) with ((a ++ [c]) ++ b) by now rewrite <- app_assoc.
  rewrite rev_app_distr, rev_app_distr. simpl.
  destruct (drop_while_suffix p (rev b)) as [d [E F]].
  assert (G : drop_while p (rev b ++ c :: rev a)
              = drop_while p (rev b) ++ c :: rev a)
    by now apply drop_while_app_stop.
  rewrite G, rev_app_distr. simpl.
  rewrite rev_involutive, <- app_assoc. reflexivity.
Qed.

Lemma rstrip_by_last (p : ascii -> bool) s c :
  last_or None (rstrip_by p s) = Some c -> p c = false.
Proof.
  unfold rstrip_by. destruct (drop_while p (rev s)) as [|x t] eqn:E.
  - discriminate.
  - simpl. rewrite last_or_snoc. intros H. inversion H; subst.
    now apply drop_while_hd in E.
Qed.

Lemma rstrip_by_nil_or_hd (p : ascii -> bool) s :
  rstrip_by p s = [] \/ hd_error (rstrip_by p s) = hd_error s.
Proof.
  destruct (rstrip_by_prefix p s) as [d [E _]].
  destruct (rstrip_by p s) as [|x t]; [now left|right].
  rewrite E. reflexivity.
Qed.

Lemma drop_while_last (p : ascii -> bool) s :
  drop_while p s = [] \/ last_or None (drop_while p s) = last_or None s.
Proof.
  destruct (drop_while_suffix p s) as [d [E _]].
  destruct (drop_while p s) as [|x t] eqn:D; [now left|right].
  rewrite E, last_or_app. reflexivity.
Qed.

Lemma drop_while_incl (p : ascii -> bool) s c : In c (drop_while p s) -> In c s.
Proof.
  destruct (drop_while_suffix p s) as [d [E _]]. intros H.
  rewrite E. apply in_or_app. now right.
Qed.

Lemma rstrip_by_incl (p : ascii -> bool) s c : In c (rstrip_by p s) -> In c s.
Proof.
  destruct (rstrip_by_prefix p s) as [d [E _]]. intros H.
  rewrite E. apply in_or_app. now left.
Qed.

(** ** The matcher *)

Lemma lit_prefix_ic_spec w prev s prev' s' :
  lit_prefix true w prev s = Some (prev', s') <->
  exists u, s = u ++ s' /\ lower u = lower w /\ prev' = last_or prev u.
Proof.
  revert prev s. induction w as [|a w IH]; intros prev s; simpl.
  - split.
    + intros H. inversion H; subst. now exists [].
    + intros [u [E [L P]]]. destruct u; [|discriminate]. now subst.
  - destruct s as [|b s].
    + split; [discriminate|].
      intros [u [E [L _]]]. destruct u; discriminate.
    + destruct (chr_eqb (lower_chr a) (lower_chr b)) eqn:Eab.
      * rewrite IH. apply chr_eqb_eq in Eab. split.
        -- intros [u [E [L P]]]. exists (b :: u). subst. simpl.
           repeat split. now rewrite Eab, L.
        -- intros [[|c u] [E [L P]]]; [discriminate|].
           inversion E; subst. inversion L. exists u. now repeat split.
      * split; [discriminate|].
        intros [[|c u] [E [L P]]]; [discriminate|].
        inversion E; subst. inversion L as [[L1 L2]].
        rewrite L1, chr_eqb_refl in Eab. discriminate.
Qed.

Lemma lit_prefix_cs_spec w prev s prev' s' :
  lit_prefix false w prev s = Some (prev', s') <->
  s = w ++ s' /\ prev' = last_or prev w.
Proof.
  revert prev s. induction w as [|a w IH]; intros prev s; simpl.
  - split.
    + intros H. inversion H; subst. now split.
    + intros [E P]. now subst.
  - destruct s as [|b s].
    + split; [discriminate|]. intros [E _]. discriminate.
    + unfold lit_eqb. destruct (chr_eqb a b) eqn:Eab.
      * apply chr_eqb_eq in Eab. subst b. rewrite IH. split.
        -- intros [E P]. subst. now split.
        -- intros [E P]. inversion E. now split.
      * split; [discriminate|]. intros [E _]. inversion E; subst.
        rewrite chr_eqb_refl in Eab. discriminate.
Qed.

Lemma star_loop_inv p k prev s m :
  star_loop p k prev s = Some m ->
  exists u s', s = u ++ s' /\ forallb p u = true /\
               k (last_or prev u) s' = Some m.
Proof.
  revert prev. induction s as [|c s IH]; intros prev H; simpl in H.
  - now exists [], [].
  - destruct (p c) eqn:Pc.
    + destruct (star_loop p k (Some c) s) as [m'|] eqn:E.
      * inversion H; subst m'. destruct (IH _ E) as [u [s' [E1 [F K]]]].
        exists (c :: u), s'. simpl. rewrite Pc, F. subst s. now repeat split.
      * now exists [], (c :: s).
    + now exists [], (c :: s).
Qed.

Lemma star_loop_base p k prev s m :
  k prev s = Some m -> exists m', star_loop p k prev s = Some m'.
Proof.
  intros K. destruct s as [|c s]; simpl; [eauto|].
  destruct (p c); [|eauto].
  destruct (star_loop p k (Some c) s); eauto.
Qed.

Lemma star_loop_some p k prev u s' m :
  forallb p u = true -> k (last_or prev u) s' = Some m ->
  exists m', star_loop p k prev (u ++ s') = Some m'.
Proof.
  revert prev. induction u as [|a u IH]; intros prev F K; simpl in *.
  - eapply star_loop_base; eauto.
  - apply andb_true_iff in F as [Pa F]. rewrite Pa.
    destruct (IH _ F K) as [m' E]. rewrite E. eauto.
Qed.

Lemma star_loop_greedy p k prev u s' m :
  forallb p u = true -> stops p s' -> k (last_or prev u) s' = Some m ->
  star_loop p k prev (u ++ s') = Some m.
Proof.
  revert prev. induction u as [|a u IH]; intros prev F S K; simpl in *.
  - destruct s' as [|c s']; simpl; [exact K|]. simpl in S. now rewrite S.
  - apply andb_true_iff in F as [Pa F]. rewrite Pa.
    now rewrite (IH _ F S K).
Qed.

Lemma star_loop_total p k prev s :
  (forall pv t, k pv t <> None) ->
  exists u s', s = u ++ s' /\ forallb p u = true /\ stops p s' /\
               star_loop p k prev s = k (last_or prev u) s'.
Proof.
  intros T. revert prev. induction s as [|c s IH]; intros prev; simpl.
  - exists [], []. now repeat split.
  - destruct (p c) eqn:Pc.
    + destruct (IH (Some c)) as [u [s' [E [F [S K]]]]].
      exists (c :: u), s'. simpl. rewrite Pc, F, K. subst s.
      repeat split; auto.
      destruct (k (last_or (Some c) u) s') eqn:E; [reflexivity|].
      now apply T in E.
    + exists [], (c :: s). now repeat split.
Qed.

Lemma exec_alts_some w0 ws w g prev s k prev' s' m :
  In w (w0 :: ws) ->
  lit_prefix true w prev s = Some (prev', s') -> k g prev' s' = Some m ->
  exists m', exec true (alts w0 ws) g prev s k = Some m'.
Proof.
  revert w0. induction ws as [|w1 ws IH]; intros w0 I L K; simpl in *.
  - destruct I as [->|[]]. rewrite L. eauto.
  - destruct (lit_prefix true w0 prev s) as [[p1 s1]|] eqn:E0.
    + destruct (k g p1 s1) eqn:K1; [eauto|].
      destruct I as [->|I].
      * rewrite L in E0. inversion E0; subst. congruence.
      * now apply IH.
    + destruct I as [->|I]; [congruence|]. now apply IH.
Qed.

Lemma search_from_some ic r prev pre s' m :
  match_here ic r (last_or prev pre) s' = Some m ->
  exists m', search_from ic r prev (pre ++ s') = Some m'.
Proof.
  revert prev. induction pre as [|c pre IH]; intros prev M; simpl in M.
  - destruct s'; simpl; rewrite M; eauto.
  - simpl. destruct (match_here ic r prev (c :: pre ++ s')); eauto.
Qed.

Lemma search_from_inv ic r prev s m :
  search_from ic r prev s = Some m ->
  exists pre s', s = pre ++ s' /\ match_here ic r (last_or prev pre) s' = Some m.
Proof.
  revert prev. induction s as [|c s IH]; intros prev H; simpl in H.
  - destruct (match_here ic r prev []) eqn:E; [|discriminate].
    inversion H; subst. now exists [], [].
  - destruct (match_here ic r prev (c :: s)) eqn:E.
    + inversion H; subst. now exists [], (c :: s).
    + destruct (IH _ H) as [pre [s' [E1 M]]].
      exists (c :: pre), s'. subst s. now split.
Qed.

Lemma is_some_true {A : Type} (o : option A) :
  is_some o = true <-> exists a, o = Some a.
Proof.
  destruct o; simpl; split; eauto; try discriminate.
  intros [a H]. discriminate.
Qed.

Lemma is_some_false {A : Type} (o : option A) : is_some o = false <-> o = None.
Proof. destruct o; simpl; split; auto; discriminate. Qed.

(** Every match that [scan] reports is a match of the pattern at some
    position of the text. *)
Lemma scan_sound ic r s : forall k prev g,
  In g (scan ic r k prev s) ->
  exists pre s' m, s = pre ++ s' /\
    match_here ic r (last_or prev pre) s' = Some m /\ groups m = g.
Proof.
  induction s as [|c s IH]; intros k prev g H.
  - destruct k; simpl in H; [|contradiction].
    destruct (match_here ic r prev []) eqn:E; [|contradiction].
    destruct H as [<-|[]]. now exists [], [], m.
  - assert (Lift : forall k', In g (scan ic r k' (Some c) s) ->
        exists pre s' m, c :: s = pre ++ s' /\
          match_here ic r (last_or prev pre) s' = Some m /\ groups m = g).
    { intros k' I. destruct (IH _ _ _ I) as [pre [s' [m [E [M G]]]]].
      exists (c :: pre), s', m. subst s. now repeat split. }
    destruct k; simpl in H; [|now apply Lift in H].
    destruct (match_here ic r prev (c :: s)) eqn:E.
    + destruct H as [<-|H]; [now exists [], (c :: s), m|now apply Lift in H].
    + now apply Lift in H.
Qed.

(** Every match of the pattern in the text is reported by [scan], unless it
    starts strictly inside a reported match. *)
Lemma scan_complete ic r s : forall k prev pre s' m,
  s = pre ++ s' -> k <= List.length pre ->
  match_here ic r (last_or prev pre) s' = Some m ->
  In (groups m) (scan ic r k prev s) \/
  exists pre0 s0 m0,
    s = pre0 ++ s0 /\
    match_here ic r (last_or prev pre0) s0 = Some m0 /\
    In (groups m0) (scan ic r k prev s) /\
    List.length pre0 < List.length pre /\
    List.length pre < List.length pre0 + (List.length s0 - List.length (rest m0)).
Proof.
  induction s as [|c s IH]; intros k prev pre s' m E L M.
  - destruct pre; [|discriminate]. destruct s'; [|discriminate].
    simpl in L. assert (k = 0) by lia. subst k. simpl in *. rewrite M.
    left. now left.
  - assert (Step : forall k' pre', pre = c :: pre' -> k' <= List.length pre' ->
        In (groups m) (scan ic r k' (Some c) s) \/
        exists pre0 s0 m0,
          c :: s = pre0 ++ s0 /\
          match_here ic r (last_or prev pre0) s0 = Some m0 /\
          In (groups m0) (scan ic r k' (Some c) s) /\
          List.length pre0 < List.length pre /\
          List.length pre <
            List.length pre0 + (List.length s0 - List.length (rest m0))).
    { intros k' pre' -> L'. simpl in E. injection E as E'.
      destruct (IH k' (Some c) pre' s' m E' L' M)
        as [I|[pre0 [s0 [m0 [E0 [M0 [I0 [L1 L2]]]]]]]]; [now left|right].
      exists (c :: pre0), s0, m0. simpl.
      repeat split; auto; try lia. now rewrite <- E0. }
    destruct k as [|k].
    + simpl. destruct pre as [|c' pre'].
      * simpl in E, M. subst s'. rewrite M. left. now left.
      * simpl in E. injection E as Ec E'; subst c'.
        destruct (match_here ic r prev (c :: s)) as [m0|] eqn:M0.
        -- destruct (Nat.le_gt_cases
                       (List.length (c :: s) - List.length (rest m0) - 1)
                       (List.length pre')) as [Le|Gt].
           ++ destruct (Step _ pre' eq_refl Le)
                as [I|[pre0 [s0 [m1 [E0 [M1 [I1 [L1 L2]]]]]]]].
              ** left. now right.
              ** right. exists pre0, s0, m1. repeat split; auto. now right.
           ++ right. exists [], (c :: s), m0. simpl.
              repeat split; auto; simpl in *; lia.
        -- destruct (Step 0 pre' eq_refl (Nat.le_0_l _))
             as [I|[pre0 [s0 [m1 [E0 [M1 [I1 [L1 L2]]]]]]]]; [now left|right].
           exists pre0, s0, m1. now repeat split.
    + destruct pre as [|c' pre']; [simpl in L; lia|].
      simpl in E. injection E as Ec E'; subst c'. simpl in L.
      simpl. apply (Step k pre' eq_refl). lia.
Qed.

Lemma stops_ident post : stops ident_char post <-> ident_charp (hd_error post) = false.
Proof. destruct post; simpl; intuition. Qed.

Lemma stops_word post : stops is_word post <-> wordp (hd_error post) = false.
Proof. destruct post; simpl; intuition. Qed.

Lemma exec_plus_inv ic p g prev s k m :
  exec ic (Plus p) g prev s k = Some m ->
  exists u s', s = u ++ s' /\ u <> [] /\ forallb p u = true /\
               k g (last_or prev u) s' = Some m.
Proof.
  simpl. destruct s as [|c s]; [discriminate|].
  destruct (p c) eqn:Pc; [|discriminate]. intros H.
  apply star_loop_inv in H as [u [s' [E [F K]]]].
  exists (c :: u), s'. simpl. rewrite Pc, F. subst s.
  repeat split; auto. discriminate.
Qed.

Lemma exec_plus_greedy ic p g prev u s' k m :
  u <> [] -> forallb p u = true -> stops p s' ->
  k g (last_or prev u) s' = Some m ->
  exec ic (Plus p) g prev (u ++ s') k = Some m.
Proof.
  intros N F S K. destruct u as [|c u]; [congruence|].
  simpl in *. apply andb_true_iff in F as [Pc F]. rewrite Pc.
  now apply star_loop_greedy.
Qed.

Arguments Nat.sub : simpl never.

Lemma firstn_consumed (a b : str) :
  firstn (List.length (a ++ b) - List.length b) (a ++ b) = a.
Proof.
  rewrite length_app, Nat.add_sub.
  rewrite firstn_app, Nat.sub_diag, firstn_all. simpl. apply app_nil_r.
Qed.

Lemma exec_ident_group_unfold ic g prev s k :
  exec ic (Grp IDENT_PATTERN) g prev s k =
  match s with
  | c :: s1 =>
      if ident_start c
      then star_loop ident_char
             (fun pv t => k (g ++ [firstn (List.length s - List.length t) s]) pv t)
             (Some c) s1
      else None
  | [] => None
  end.
Proof. destruct s; reflexivity. Qed.

Lemma exec_ident_group_inv ic g prev s k m :
  exec ic (Grp IDENT_PATTERN) g prev s k = Some m ->
  exists id post, s = id ++ post /\ is_identifier id = true /\
                  k (g ++ [id]) (last_or prev id) post = Some m.
Proof.
  rewrite exec_ident_group_unfold. destruct s as [|c s]; [discriminate|].
  destruct (ident_start c) eqn:Pc; [|discriminate]. intros H.
  apply star_loop_inv in H as [u [s' [E [F K]]]].
  exists (c :: u), s'. subst s.
  change (c :: u ++ s') with ((c :: u) ++ s') in K.
  rewrite firstn_consumed in K.
  cbn [is_identifier]. rewrite Pc, F. now repeat split.
Qed.

Lemma exec_ident_group_greedy ic g prev id post k m :
  is_identifier id = true -> stops ident_char post ->
  k (g ++ [id]) (last_or prev id) post = Some m ->
  exec ic (Grp IDENT_PATTERN) g prev (id ++ post) k = Some m.
Proof.
  intros I S K. rewrite exec_ident_group_unfold.
  destruct id as [|c u]; [discriminate|].
  cbn [is_identifier] in I. apply andb_true_iff in I as [Pc F].
  change ((c :: u) ++ post) with (c :: u ++ post) at 1.
  cbv iota beta. rewrite Pc. apply star_loop_greedy; auto.
  now rewrite firstn_consumed.
Qed.

Lemma exec_ident_group_accept ic g prev s m :
  exec ic (Grp IDENT_PATTERN) g prev s accept = Some m <->
  exists id post, s = id ++ post /\ is_identifier id = true /\
                  stops ident_char post /\
                  m = MState (g ++ [id]) (last_or prev id) post.
Proof.
  split.
  - rewrite exec_ident_group_unfold. destruct s as [|c s]; [discriminate|].
    destruct (ident_start c) eqn:Pc; [|discriminate]. intros H.
    destruct (star_loop_total ident_char
                (fun pv t =>
                   accept (g ++ [firstn (List.length (c :: s) - List.length t)
                                   (c :: s)]) pv t)
                (Some c) s) as [u [s' [E [F [S K]]]]]; [discriminate|].
    rewrite K in H. exists (c :: u), s'. subst s.
    change (c :: u ++ s') with ((c :: u) ++ s') in H.
    rewrite firstn_consumed in H. unfold accept in H.
    cbn [is_identifier]. rewrite Pc, F. repeat split; auto. now inversion H.
  - intros [id [post [E [I [S M]]]]]. subst s m.
    now apply exec_ident_group_greedy.
Qed.

(** ** Words in any case *)

Lemma same_case_letters u w :
  lower u = lower w -> forallb is_ascii_letter w = true ->
  forallb is_ascii_letter u = true.
Proof.
  revert w. induction u as [|c u IH]; intros [|a w] E F; simpl in *;
    try discriminate; auto.
  injection E as E1 E2. apply andb_true_iff in F as [Fa Fw].
  rewrite (same_case_letter _ _ E1 Fa). simpl. eauto.
Qed.

Lemma same_case_nonempty u w : lower u = lower w -> w <> [] -> u <> [].
Proof. destruct u, w; simpl; congruence. Qed.

Lemma letter_word c : is_ascii_letter c = true -> is_word c = true.
Proof. each_char c. Qed.

Lemma letters_last prev u :
  u <> [] -> forallb is_ascii_letter u = true -> wordp (last_or prev u) = true.
Proof.
  intros N F. destruct (last_or_forall is_ascii_letter prev u N F) as [c [E L]].
  rewrite E. simpl. now apply letter_word.
Qed.

Lemma letters_hd u t :
  u <> [] -> forallb is_ascii_letter u = true -> wordp (hd_error (u ++ t)) = true.
Proof.
  destruct u as [|c u]; [congruence|]. simpl. intros _ F.
  apply andb_true_iff in F as [F _]. now apply letter_word.
Qed.

Lemma boundary_before prev u t :
  u <> [] -> forallb is_ascii_letter u = true ->
  at_boundary prev (u ++ t) = negb (wordp prev).
Proof.
  intros N F. unfold at_boundary. rewrite (letters_hd u t N F).
  now destruct (wordp prev).
Qed.

Lemma boundary_after prev u t :
  u <> [] -> forallb is_ascii_letter u = true ->
  at_boundary (last_or prev u) t = negb (wordp (hd_error t)).
Proof.
  intros N F. unfold at_boundary. rewrite (letters_last prev u N F).
  reflexivity.
Qed.

(** ** The statement-shape pattern *)

Lemma is_select_spec s : is_select s = true <-> starts_with_select s.
Proof.
  unfold is_select, re_match, match_here, starts_with_select, IGNORECASE.
  rewrite is_some_true. cbn [exec SELECT_PATTERN]. split.
  - intros [m H]. apply star_loop_inv in H as [ws [s' [E [F K]]]].
    destruct (lit_prefix true (py "SELECT") (last_or None ws) s')
      as [[pv t]|] eqn:L; [|discriminate].
    apply lit_prefix_ic_spec in L as [u [E1 [L1 L2]]].
    assert (Fu : forallb is_ascii_letter u = true)
      by (apply (same_case_letters _ _ L1); reflexivity).
    assert (Nu : u <> []) by (apply (same_case_nonempty _ _ L1); discriminate).
    subst pv. rewrite (boundary_after _ u t Nu Fu) in K.
    destruct (wordp (hd_error t)) eqn:W; [discriminate|].
    exists ws, u, t. subst. now repeat split.
  - intros [ws [u [post [E [F [L W]]]]]]. subst s.
    assert (L' : lower u = lower (py "SELECT")) by exact L.
    assert (Fu : forallb is_ascii_letter u = true)
      by (apply (same_case_letters _ _ L'); reflexivity).
    assert (Nu : u <> []) by (apply (same_case_nonempty _ _ L'); discriminate).
    eapply star_loop_some with (m := MState [] (last_or (last_or None ws) u) post);
      [exact F|].
    assert (P : lit_prefix true (py "SELECT") (last_or None ws) (u ++ post)
                = Some (last_or (last_or None ws) u, post))
      by (apply lit_prefix_ic_spec; exists u; now repeat split).
    rewrite P, (boundary_after _ u post Nu Fu), W. reflexivity.
Qed.

(** ** Cleaning and the forbidden-keyword pattern *)

Lemma letter_not_semi c :
  is_ascii_letter c = true -> existsb (chr_eqb c) (py ";") = false.
Proof. each_char c. Qed.

Lemma semi_not_word : wordp (hd_error (py ";")) = false.
Proof. reflexivity. Qed.

Lemma rstrip_by_keeps_hd (p : ascii -> bool) post :
  wordp (hd_error post) = false -> wordp (hd_error (rstrip_by p post)) = false.
Proof.
  intros W. destruct (rstrip_by_nil_or_hd p post) as [E|E]; rewrite E; auto.
Qed.

(** Cleaning keeps every word made of letters, with its two boundaries. *)
Lemma clean_keeps_word kw s :
  kw <> [] -> forallb is_ascii_letter kw = true ->
  whole_word_in kw s -> whole_word_in kw (clean s).
Proof.
  intros Nk Fk [pre [u [post [E [L [Wl Wr]]]]]].
  assert (Fu := same_case_letters u kw L Fk).
  assert (Nu := same_case_nonempty u kw L Nk).
  destruct (exists_last Nu) as [u0 [d Eu]].
  assert (Fd : is_ascii_letter d = true).
  { rewrite Eu, forallb_app in Fu. apply andb_true_iff in Fu as [_ Fd].
    simpl in Fd. now rewrite andb_true_r in Fd. }
  assert (Fc : exists c t, u = c :: t /\ is_ascii_letter c = true).
  { destruct u as [|c t]; [congruence|]. simpl in Fu.
    apply andb_true_iff in Fu as [Fc _]. now exists c, t. }
  destruct Fc as [c [t [Ec Fc]]].
  set (pre1 := drop_while isspace pre).
  set (post1 := rstrip_by isspace post).
  set (post2 := rstrip_by (fun x => existsb (chr_eqb x) (py ";")) post1).
  assert (C : clean s = pre1 ++ u ++ post2 ++ py ";").
  { unfold clean, rstrip, strip, lstrip_by. subst s.
    rewrite Ec at 1. cbn [app].
    rewrite (drop_while_app_stop isspace pre c (t ++ post)
               (letter_not_space c Fc)).
    change (c :: t ++ post) with ((c :: t) ++ post). rewrite <- Ec.
    fold pre1.
    assert (S1 : rstrip_by isspace (pre1 ++ u ++ post) = pre1 ++ u ++ post1).
    { rewrite Eu. rewrite <- !app_assoc. cbn [app].
      rewrite (app_assoc pre1 u0 (d :: post)).
      rewrite (rstrip_by_app_stop isspace (pre1 ++ u0) d post
                 (letter_not_space d Fd)).
      now rewrite <- app_assoc. }
    rewrite S1.
    assert (S2 : rstrip_by (fun x => existsb (chr_eqb x) (py ";"))
                   (pre1 ++ u ++ post1) = pre1 ++ u ++ post2).
    { rewrite Eu. rewrite <- !app_assoc. cbn [app].
      rewrite (app_assoc pre1 u0 (d :: post1)).
      rewrite (rstrip_by_app_stop _ (pre1 ++ u0) d post1 (letter_not_semi d Fd)).
      now rewrite <- app_assoc. }
    rewrite S2. now rewrite <- !app_assoc. }
  rewrite C. exists pre1, u, (post2 ++ py ";"). repeat split; auto.
  - unfold pre1. destruct (drop_while_last isspace pre) as [E1|E1];
      rewrite E1; auto.
  - assert (W2 : wordp (hd_error post2) = false)
      by (unfold post2, post1; now do 2 apply rstrip_by_keeps_hd).
    destruct post2; auto.
Qed.

Lemma denylist_letters kw :
  In kw DENYLIST -> kw <> [] /\ forallb is_ascii_letter kw = true.
Proof.
  intros I. repeat (destruct I as [<-|I]; [split; [discriminate|reflexivity]|]).
  destruct I.
Qed.

Lemma ddl_search_hit kw s :
  In kw DENYLIST -> whole_word_in kw s ->
  is_some (search IGNORECASE DDL_DML_PATTERN s) = true.
Proof.
  intros I [pre [u [post [E [L [Wl Wr]]]]]].
  destruct (denylist_letters kw I) as [Nk Fk].
  assert (Fu := same_case_letters u kw L Fk).
  assert (Nu := same_case_nonempty u kw L Nk).
  apply is_some_true. subst s. unfold search, IGNORECASE.
  assert (M : exists m,
             match_here true DDL_DML_PATTERN (last_or None pre) (u ++ post)
             = Some m).
  { unfold match_here. cbn [exec DDL_DML_PATTERN].
    rewrite (boundary_before _ u post Nu Fu), Wl. cbn [negb].
    eapply exec_alts_some with (w := kw) (prev' := last_or (last_or None pre) u)
                               (s' := post).
    - exact I.
    - apply lit_prefix_ic_spec. exists u. now repeat split.
    - cbv beta. rewrite (boundary_after _ u post Nu Fu), Wr. reflexivity. }
  destruct M as [m M]. eapply search_from_some. exact M.
Qed.

(** ** The table patterns *)

Lemma ident_start_not_space c : ident_start c = true -> isspace c = false.
Proof. each_char c. Qed.

Lemma identifier_stops_space id post :
  is_identifier id = true -> stops isspace (id ++ post).
Proof.
  destruct id as [|c t]; [discriminate|]. simpl. intros H.
  apply andb_true_iff in H as [H _]. now apply ident_start_not_space.
Qed.

(** The match of "\bKW\s+(I)" at a position: the keyword in any case at the
    start of a word, white space, and the longest identifier, which is the
    group of the match. *)
Lemma keyword_ident_match kw prev s m :
  kw <> [] -> forallb is_ascii_letter kw = true ->
  (match_here true
     (Cat WordB (Cat (Lit kw) (Cat (Plus isspace) (Grp IDENT_PATTERN)))) prev s
   = Some m
   <->
   exists u ws id post,
     s = u ++ ws ++ id ++ post /\ wordp prev = false /\ lower u = lower kw /\
     ws <> [] /\ forallb isspace ws = true /\ is_identifier id = true /\
     stops ident_char post /\
     m = MState [id] (last_or prev (u ++ ws ++ id)) post).
Proof.
  intros Nk Fk. unfold match_here.
  cbn [exec]. split.
  - intros H.
    destruct (at_boundary prev s) eqn:B; [|discriminate].
    destruct (lit_prefix true kw prev s) as [[pv t]|] eqn:L; [|discriminate].
    apply lit_prefix_ic_spec in L as [u [E [L P]]].
    assert (Fu := same_case_letters u kw L Fk).
    assert (Nu := same_case_nonempty u kw L Nk).
    change (exec true (Plus isspace) [] pv t
              (fun g' prev' s' => exec true (Grp IDENT_PATTERN) g' prev' s' accept)
            = Some m) in H.
    apply exec_plus_inv in H as [ws [t' [E1 [Nw [Fw K]]]]].
    apply exec_ident_group_accept in K as [id [post [E2 [I [S M]]]]].
    exists u, ws, id, post. subst s t t' pv.
    rewrite (boundary_before prev u _ Nu Fu) in B.
    rewrite !last_or_app. repeat split; auto.
    now destruct (wordp prev).
  - intros [u [ws [id [post [E [W [L [Nw [Fw [I [S M]]]]]]]]]]].
    assert (Fu := same_case_letters u kw L Fk).
    assert (Nu := same_case_nonempty u kw L Nk).
    subst s. rewrite (boundary_before prev u _ Nu Fu), W. cbn [negb].
    assert (P : lit_prefix true kw prev (u ++ ws ++ id ++ post)
                = Some (last_or prev u, ws ++ id ++ post))
      by (apply lit_prefix_ic_spec; exists u; now repeat split).
    rewrite P.
    change (exec true (Plus isspace) [] (last_or prev u) (ws ++ id ++ post)
              (fun g' prev' s' => exec true (Grp IDENT_PATTERN) g' prev' s' accept)
            = Some m).
    apply exec_plus_greedy; auto.
    + now apply identifier_stops_space.
    + apply exec_ident_group_accept. exists id, post.
      subst m. rewrite !last_or_app. now repeat split.
Qed.

Lemma from_pattern_shape :
  TABLE_FROM_PATTERN =
  Cat WordB (Cat (Lit (py "FROM")) (Cat (Plus isspace) (Grp IDENT_PATTERN))).
Proof. reflexivity. Qed.

Lemma join_pattern_shape :
  TABLE_JOIN_PATTERN =
  Cat WordB (Cat (Lit (py "JOIN")) (Cat (Plus isspace) (Grp IDENT_PATTERN))).
Proof. reflexivity. Qed.

(** ** Splitting a text in two ways *)

Lemma app_eq_longer (a b c d : str) :
  a ++ b = c ++ d -> List.length a < List.length c ->
  exists x, x <> [] /\ c = a ++ x /\ b = x ++ d.
Proof.
  revert c. induction a as [|h a IH]; intros c E L.
  - destruct c as [|h' c]; [simpl in L; lia|].
    exists (h' :: c). simpl in *. repeat split; auto. discriminate.
  - destruct c as [|h' c]; [simpl in L; lia|].
    simpl in E, L. injection E as -> E.
    destruct (IH c E) as [x [N [E1 E2]]]; [lia|].
    exists x. subst. now repeat split.
Qed.

Lemma last_or_letters_word prev x z :
  x <> [] -> forallb is_ascii_letter (x ++ z) = true ->
  wordp (last_or prev x) = true.
Proof.
  intros N F. rewrite forallb_app in F. apply andb_true_iff in F as [F _].
  now apply letters_last.
Qed.

Lemma last_or_ident_word prev x :
  x <> [] -> forallb ident_char x = true -> wordp (last_or prev x) = true.
Proof.
  intros N F. destruct (last_or_forall ident_char prev x N F) as [c [E I]].
  rewrite E. simpl. now apply ident_char_word.
Qed.

Lemma identifier_chars id : is_identifier id = true -> forallb ident_char id = true.
Proof.
  destruct id as [|c t]; [discriminate|]. simpl. intros H.
  apply andb_true_iff in H as [H1 H2]. now rewrite (ident_start_char c H1).
Qed.

(** No keyword other than one that starts like the table name can start a
    word strictly inside a match "KW  transactions". *)
Lemma no_keyword_inside prev kw k0 kt u0 ws0 id0 post0 x u rest :
  kw = k0 :: kt -> forallb is_ascii_letter kw = true ->
  lower_chr k0 <> "t"%char ->
  u0 <> [] -> forallb is_ascii_letter u0 = true ->
  forallb isspace ws0 = true ->
  is_identifier id0 = true -> lower id0 = py "transactions" ->
  x <> [] -> u0 ++ ws0 ++ id0 ++ post0 = x ++ u ++ rest ->
  List.length x < List.length (u0 ++ ws0 ++ id0) ->
  wordp (last_or prev x) = false -> lower u = lower kw -> False.
Proof.
  intros Ek Fk Kt Nu0 Fu0 Fw0 I0 L0 Nx E Len W L.
  assert (Nk : kw <> []) by (subst kw; discriminate).
  assert (Fu := same_case_letters u kw L Fk).
  assert (Nu := same_case_nonempty u kw L Nk).
  destruct u as [|b u']; [congruence|].
  assert (Lb : lower_chr b = lower_chr k0)
    by (subst kw; simpl in L; now injection L).
  assert (Fb : is_ascii_letter b = true)
    by (simpl in Fu; now apply andb_true_iff in Fu as [Fb _]).
  (* the rest of the region after x *)
  assert (R : exists y, u0 ++ ws0 ++ id0 = x ++ b :: y).
  { assert (E' : x ++ (b :: u') ++ rest = (u0 ++ ws0 ++ id0) ++ post0)
      by (rewrite <- !app_assoc; symmetry; exact E).
    destruct (app_eq_longer _ _ _ _ E' Len) as [y [Ny [Ey Ez]]].
    destruct y as [|b' y]; [congruence|].
    simpl in Ez. injection Ez as -> _. now exists y. }
  destruct R as [y R].
  assert (Id0 : forall t, id0 = b :: t -> False).
  { intros t Et. subst id0. simpl in L0. injection L0 as L0 _. congruence. }
  apply app_eq_app in R as [l [[R1 R2]|[R1 R2]]].
  - (* x ends inside the keyword *)
    rewrite R1 in Fu0. rewrite (last_or_letters_word prev x l Nx Fu0) in W.
    discriminate.
  - destruct l as [|c l].
    + rewrite app_nil_r in R1. subst x.
      rewrite (letters_last prev u0 Nu0 Fu0) in W. discriminate.
    + subst x. rewrite last_or_app in W.
      apply app_eq_app in R2 as [l2 [[R3 R4]|[R3 R4]]].
      * (* x ends inside the white space *)
        destruct l2 as [|d l2].
        -- simpl in R4. symmetry in R4. now apply Id0 in R4.
        -- simpl in R4. injection R4 as <- _.
           rewrite R3, forallb_app in Fw0.
           apply andb_true_iff in Fw0 as [_ Fw0]. simpl in Fw0.
           apply andb_true_iff in Fw0 as [Sb _].
           rewrite (letter_not_space b Fb) in Sb. discriminate.
      * destruct l2 as [|d l2].
        -- simpl in R4. now apply Id0 in R4.
        -- (* x ends inside the identifier *)
           rewrite R3, last_or_app in W.
           assert (Fi := identifier_chars id0 I0).
           rewrite R4, forallb_app in Fi. apply andb_true_iff in Fi as [Fi _].
           rewrite (last_or_ident_word _ (d :: l2)) in W;
             [discriminate|discriminate|exact Fi].
Qed.

Lemma existsb_false {A : Type} (f : A -> bool) l :
  existsb f l = false <-> forall x, In x l -> f x = false.
Proof.
  induction l as [|a l IH]; simpl.
  - split; [intros _ x []|reflexivity].
  - rewrite orb_false_iff, IH. split.
    + intros [Fa Fl] x [<-|I]; auto.
    + intros H. split; [apply H; now left|intros x I; apply H; now right].
Qed.

Lemma table_name_value : TABLE_NAME = py "transactions".
Proof. reflexivity. Qed.

Lemma not_bad_table id :
  negb (str_eqb (lower (group 1 [id])) TABLE_NAME) = false <->
  is_allowed_table id.
Proof.
  unfold is_allowed_table. rewrite negb_false_iff, str_eqb_eq.
  rewrite table_name_value. reflexivity.
Qed.

(** The loop over [finditer] of a table pattern finds no other table exactly
    when every identifier that follows the keyword is the allowed table. *)
Lemma table_loop_spec kw k0 kt s :
  kw = k0 :: kt -> forallb is_ascii_letter kw = true ->
  lower_chr k0 <> "t"%char ->
  (existsb (fun m => negb (str_eqb (lower (group 1 m)) TABLE_NAME))
     (finditer true
        (Cat WordB (Cat (Lit kw) (Cat (Plus isspace) (Grp IDENT_PATTERN)))) s)
   = false
   <-> forall id, follows_keyword kw id s -> is_allowed_table id).
Proof.
  intros Ek Fk Kt.
  assert (Nk : kw <> []) by (subst kw; discriminate).
  rewrite existsb_false. unfold finditer. split.
  - intros H id [pre [u [ws [post [E [W [L [Nw [Fw [I S]]]]]]]]]].
    apply stops_ident in S.
    set (m := MState [id] (last_or (last_or None pre) (u ++ ws ++ id)) post).
    assert (M : match_here true
                  (Cat WordB (Cat (Lit kw) (Cat (Plus isspace) (Grp IDENT_PATTERN))))
                  (last_or None pre) (u ++ ws ++ id ++ post) = Some m).
    { apply keyword_ident_match; auto.
      exists u, ws, id, post. now repeat split. }
    destruct (scan_complete true _ s 0 None pre _ m E (Nat.le_0_l _) M)
      as [In1|[pre0 [s0 [m0 [E0 [M0 [In0 [L1 L2]]]]]]]].
    + apply not_bad_table. now apply (H _ In1).
    + exfalso.
      apply keyword_ident_match in M0
        as [u0 [ws0 [id0 [post0 [Es0 [W0 [Lu0 [Nw0 [Fw0 [I0 [S0 Em0]]]]]]]]]]];
        auto.
      assert (A0 : is_allowed_table id0).
      { apply not_bad_table. rewrite Em0 in In0. exact (H _ In0). }
      assert (Ex : pre0 ++ s0 = pre ++ u ++ ws ++ id ++ post) by congruence.
      destruct (app_eq_longer _ _ _ _ Ex L1) as [x [Nx [Ep Es]]].
      assert (Len : List.length x < List.length (u0 ++ ws0 ++ id0)).
      { rewrite Em0 in L2. simpl in L2. rewrite Ep, length_app in L2.
        rewrite Es0 in L2. rewrite !length_app in *. lia. }
      rewrite Ep, last_or_app in W.
      rewrite Es0 in Es.
      eapply (no_keyword_inside (last_or None pre0) kw k0 kt u0 ws0 id0 post0 x u
                (ws ++ id ++ post)); eauto.
      * now apply (same_case_nonempty u0 kw).
      * now apply (same_case_letters u0 kw).
  - intros H g In1.
    apply scan_sound in In1 as [pre [s' [m [E [M G]]]]].
    apply keyword_ident_match in M
      as [u [ws [id [post [Es [W [Lu [Nw [Fw [I [S Em]]]]]]]]]]]; auto.
    subst m. simpl in G. subst g. apply not_bad_table. apply H.
    exists pre, u, ws, post. subst. apply stops_ident in S. now repeat split.
Qed.

Lemma table_search_spec s :
  is_some (search IGNORECASE TABLE_FROM_PATTERN s) = true <->
  exists id, follows_keyword (py "FROM") id s.
Proof.
  rewrite is_some_true. unfold search, IGNORECASE. rewrite from_pattern_shape.
  split.
  - intros [m H]. apply search_from_inv in H as [pre [s' [E M]]].
    apply keyword_ident_match in M
      as [u [ws [id [post [Es [W [Lu [Nw [Fw [I [S Em]]]]]]]]]]];
      [|discriminate|reflexivity].
    exists id, pre, u, ws, post. subst. apply stops_ident in S.
    now repeat split.
  - intros [id [pre [u [ws [post [E [W [L [Nw [Fw [I S]]]]]]]]]]].
    apply stops_ident in S. subst s.
    eapply search_from_some. apply keyword_ident_match;
      [discriminate|reflexivity|].
    exists u, ws, id, post. repeat split; eauto.
Qed.

Lemma from_loop_spec s :
  existsb (fun m => negb (str_eqb (lower (group 1 m)) TABLE_NAME))
    (finditer IGNORECASE TABLE_FROM_PATTERN s) = false
  <-> forall id, follows_keyword (py "FROM") id s -> is_allowed_table id.
Proof.
  apply (table_loop_spec (py "FROM") "F"%char (py "ROM") s);
    [reflexivity|reflexivity|discriminate].
Qed.

Lemma join_loop_spec s :
  existsb (fun m => negb (str_eqb (lower (group 1 m)) TABLE_NAME))
    (finditer IGNORECASE TABLE_JOIN_PATTERN s) = false
  <-> forall id, follows_keyword (py "JOIN") id s -> is_allowed_table id.
Proof.
  apply (table_loop_spec (py "JOIN") "J"%char (py "OIN") s);
    [reflexivity|reflexivity|discriminate].
Qed.

(** The table gate accepts a text exactly when its tables are allowed in the
    words of the specification. *)
Lemma only_allowed_tables_spec s :
  only_allowed_tables s = true <-> tables_allowed s.
Proof.
  unfold only_allowed_tables, tables_allowed.
  destruct (existsb _ (finditer IGNORECASE TABLE_FROM_PATTERN s)) eqn:EF.
  - split; [discriminate|]. intros [A _].
    assert (X : forall id, follows_keyword (py "FROM") id s -> is_allowed_table id)
      by (intros id H; apply A; now left).
    apply from_loop_spec in X. congruence.
  - destruct (existsb _ (finditer IGNORECASE TABLE_JOIN_PATTERN s)) eqn:EJ.
    + split; [discriminate|]. intros [A _].
      assert (X : forall id, follows_keyword (py "JOIN") id s -> is_allowed_table id)
        by (intros id H; apply A; now right).
      apply join_loop_spec in X. congruence.
    + rewrite table_search_spec.
      pose proof (proj1 (from_loop_spec s) EF) as AF.
      pose proof (proj1 (join_loop_spec s) EJ) as AJ.
      split.
      * intros [id H]. split.
        -- intros id' [H'|H']; auto.
        -- exists id. split; auto.
      * intros [_ [id [H _]]]. now exists id.
Qed.

(** ** Cleaning keeps what lies between the outer white space and terminators *)

Lemma clean_middle pre M post c M1 M0 d :
  M = c :: M1 -> M = M0 ++ [d] ->
  isspace c = false -> isspace d = false ->
  existsb (chr_eqb d) (py ";") = false ->
  clean (pre ++ M ++ post) =
  drop_while isspace pre ++ M
  ++ rstrip_by (fun x => existsb (chr_eqb x) (py ";")) (rstrip_by isspace post)
  ++ py ";".
Proof.
  intros Ec Ed Sc Sd Qd.
  unfold clean, rstrip, strip, lstrip_by.
  rewrite Ec at 1. cbn [app].
  rewrite (drop_while_app_stop isspace pre c (M1 ++ post) Sc).
  change (c :: M1 ++ post) with ((c :: M1) ++ post). rewrite <- Ec.
  set (pre1 := drop_while isspace pre).
  assert (S1 : forall p q, p d = false ->
             rstrip_by p (pre1 ++ M ++ q) = pre1 ++ M ++ rstrip_by p q).
  { intros p q Pd. rewrite Ed. rewrite <- !app_assoc. cbn [app].
    rewrite (app_assoc pre1 M0 (d :: q)).
    rewrite (rstrip_by_app_stop p (pre1 ++ M0) d q Pd).
    now rewrite <- app_assoc. }
  rewrite (S1 isspace post Sd).
  rewrite (S1 (fun x => existsb (chr_eqb x) (py ";")) _ Qd).
  now rewrite <- !app_assoc.
Qed.

Lemma clean_shape s :
  exists lead core semis trail,
    s = lead ++ core ++ semis ++ trail /\
    forallb isspace lead = true /\
    forallb (fun x => existsb (chr_eqb x) (py ";")) semis = true /\
    forallb isspace trail = true /\
    clean s = core ++ py ";".
Proof.
  destruct (drop_while_suffix isspace s) as [lead [E1 F1]].
  destruct (rstrip_by_prefix isspace (drop_while isspace s)) as [trail [E2 F2]].
  destruct (rstrip_by_prefix (fun x => existsb (chr_eqb x) (py ";"))
              (rstrip_by isspace (drop_while isspace s))) as [semis [E3 F3]].
  set (core := rstrip_by (fun x => existsb (chr_eqb x) (py ";"))
                 (rstrip_by isspace (drop_while isspace s))) in *.
  exists lead, core, semis, trail.
  split; [|repeat split; auto].
  rewrite (app_assoc core semis trail), <- E3, <- E2. exact E1.
Qed.

Lemma semi_not_ident c :
  existsb (chr_eqb c) (py ";") = true -> ident_char c = false.
Proof. each_char c. Qed.

Lemma ident_char_not_space c : ident_char c = true -> isspace c = false.
Proof. each_char c. Qed.

Lemma ident_char_not_semi c :
  ident_char c = true -> existsb (chr_eqb c) (py ";") = false.
Proof. each_char c. Qed.

Lemma spaces_last_not_word lead :
  forallb isspace lead = true -> wordp (last_or None lead) = false.
Proof.
  intros F. destruct lead as [|c t]; [reflexivity|].
  destruct (last_or_forall isspace None (c :: t)) as [x [E S]];
    [discriminate|exact F|].
  rewrite E. simpl. now apply isspace_not_word.
Qed.

Lemma outer_left_boundary lead pre :
  forallb isspace lead = true ->
  wordp (last_or None pre) = false -> wordp (last_or None (lead ++ pre)) = false.
Proof.
  intros F W. rewrite last_or_app. destruct pre as [|c t].
  - now apply spaces_last_not_word.
  - exact W.
Qed.

Lemma inner_left_boundary pre :
  wordp (last_or None pre) = false ->
  wordp (last_or None (drop_while isspace pre)) = false.
Proof.
  intros W. destruct (drop_while_last isspace pre) as [E|E]; now rewrite E.
Qed.

Lemma outer_right_ident post semis trail :
  forallb (fun x => existsb (chr_eqb x) (py ";")) semis = true ->
  forallb isspace trail = true ->
  ident_charp (hd_error (post ++ py ";")) = false ->
  ident_charp (hd_error (post ++ semis ++ trail)) = false.
Proof.
  intros Fs Ft H. destruct post as [|c t]; [|exact H].
  destruct semis as [|x semis]; simpl in *.
  - destruct trail as [|y trail]; [reflexivity|]. simpl in *.
    apply andb_true_iff in Ft as [Fy _]. now apply isspace_not_ident.
  - apply andb_true_iff in Fs as [Fx _]. now apply semi_not_ident.
Qed.

Lemma inner_right_ident post :
  ident_charp (hd_error post) = false ->
  ident_charp
    (hd_error (rstrip_by (fun x => existsb (chr_eqb x) (py ";"))
                 (rstrip_by isspace post) ++ py ";")) = false.
Proof.
  intros H.
  assert (K : forall p q, ident_charp (hd_error q) = false ->
                          ident_charp (hd_error (rstrip_by p q)) = false).
  { intros p q Hq. destruct (rstrip_by_nil_or_hd p q) as [E|E]; now rewrite E. }
  pose proof (K (fun x => existsb (chr_eqb x) (py ";")) _ (K isspace _ H)) as H2.
  destruct (rstrip_by _ (rstrip_by isspace post)); auto.
Qed.

Lemma follows_keyword_clean kw id s :
  kw <> [] -> forallb is_ascii_letter kw = true ->
  (follows_keyword kw id (clean s) <-> follows_keyword kw id s).
Proof.
  intros Nk Fk. split.
  - intros [pre [u [ws [post [E [W [L [Nw [Fw [I S]]]]]]]]]].
    destruct (clean_shape s) as [lead [core [semis [trail [Es [Fl [Fs [Ft C]]]]]]]].
    assert (Ni : id <> []) by (destruct id; [discriminate|discriminate]).
    destruct (exists_last Ni) as [id0 [d Ed]].
    assert (Fd : ident_char d = true).
    { pose proof (identifier_chars id I) as Fi. rewrite Ed, forallb_app in Fi.
      apply andb_true_iff in Fi as [_ Fi]. simpl in Fi.
      now rewrite andb_true_r in Fi. }
    (* the final terminator of the cleaned text lies after the identifier *)
    destruct (exists_last (l := post)) as [post0 [x Ep]].
    { intros ->. rewrite C, Ed in E. rewrite app_nil_r in E.
      rewrite !app_assoc in E. apply app_inj_tail in E as [_ E].
      subst d. discriminate. }
    rewrite C, Ep in E. rewrite !app_assoc in E.
    apply app_inj_tail in E as [E Ex]. rewrite <- !app_assoc in E.
    exists (lead ++ pre), u, ws, (post0 ++ semis ++ trail).
    repeat split; auto.
    + rewrite Es, E. now rewrite <- !app_assoc.
    + now apply outer_left_boundary.
    + apply outer_right_ident; auto. rewrite Ep in S. now subst x.
  - intros [pre [u [ws [post [E [W [L [Nw [Fw [I S]]]]]]]]]].
    assert (Fu := same_case_letters u kw L Fk).
    assert (Nu := same_case_nonempty u kw L Nk).
    destruct u as [|c u']; [congruence|].
    assert (Fc : is_ascii_letter c = true)
      by (simpl in Fu; now apply andb_true_iff in Fu as [Fc _]).
    assert (Ni : id <> []) by (destruct id; [discriminate|discriminate]).
    destruct (exists_last Ni) as [id0 [d Ed]].
    assert (Fd : ident_char d = true).
    { pose proof (identifier_chars id I) as Fi. rewrite Ed, forallb_app in Fi.
      apply andb_true_iff in Fi as [_ Fi]. simpl in Fi.
      now rewrite andb_true_r in Fi. }
    assert (C : clean s =
                drop_while isspace pre ++ ((c :: u') ++ ws ++ id)
                ++ rstrip_by (fun x => existsb (chr_eqb x) (py ";"))
                     (rstrip_by isspace post) ++ py ";").
    { rewrite E.
      replace (pre ++ (c :: u') ++ ws ++ id ++ post)
        with (pre ++ ((c :: u') ++ ws ++ id) ++ post)
        by now rewrite <- !app_assoc.
      apply (clean_middle pre _ post c (u' ++ ws ++ id)
               ((c :: u') ++ ws ++ id0) d).
      - reflexivity.
      - rewrite Ed. now rewrite <- !app_assoc.
      - now apply letter_not_space.
      - now apply ident_char_not_space.
      - now apply ident_char_not_semi. }
    exists (drop_while isspace pre), (c :: u'), ws,
      (rstrip_by (fun x => existsb (chr_eqb x) (py ";"))
         (rstrip_by isspace post) ++ py ";").
    repeat split; auto.
    + rewrite C. now rewrite <- !app_assoc.
    + now apply inner_left_boundary.
    + now apply inner_right_ident.
Qed.

Lemma tables_allowed_clean s : tables_allowed (clean s) <-> tables_allowed s.
Proof.
  assert (F : forall id,
             follows_keyword (py "FROM") id (clean s)
             <-> follows_keyword (py "FROM") id s)
    by (intros id; apply follows_keyword_clean; [discriminate|reflexivity]).
  assert (J : forall id,
             follows_keyword (py "JOIN") id (clean s)
             <-> follows_keyword (py "JOIN") id s)
    by (intros id; apply follows_keyword_clean; [discriminate|reflexivity]).
  unfold tables_allowed. split.
  - intros [A [id [B Al]]]. split.
    + intros id' [H|H]; apply A; [left; now apply F|right; now apply J].
    + exists id. split; [now apply F|exact Al].
  - intros [A [id [B Al]]]. split.
    + intros id' [H|H]; apply A; [left; now apply F|right; now apply J].
    + exists id. split; [now apply F|exact Al].
Qed.

(** ** The validator *)

Lemma sanitize_sql_gates s :
  sanitize_sql s =
  if negb (is_select (clean s)) then Rejected NotASelect
  else if is_some (search IGNORECASE DDL_DML_PATTERN (clean s))
  then Rejected UnsafeKeyword
  else if negb (only_allowed_tables (clean s)) then Rejected UnknownTable
  else if negb (dot_columns_are_allowed (clean s)) then Rejected UnknownColumn
  else Accepted (add_default_limit (clean s) DEFAULT_LIMIT).
Proof. reflexivity. Qed.

Lemma Rejected_inj r1 r2 : Rejected r1 = Rejected r2 -> r1 = r2.
Proof.
  destruct r1, r2; intros H; try reflexivity; vm_compute in H; discriminate.
Qed.

Lemma Rejected_not_Accepted r x : Rejected r <> Accepted x.
Proof. discriminate. Qed.

Lemma clean_incl c s : In c (clean s) -> In c s \/ c = ";"%char.
Proof.
  unfold clean, rstrip, strip, lstrip_by. intros H.
  apply in_app_or in H as [H|H].
  - left. apply rstrip_by_incl in H. apply rstrip_by_incl in H.
    now apply drop_while_incl in H.
  - right. destruct H as [<-|[]]. reflexivity.
Qed.

Lemma blank_not_select s : blank s = true -> is_select (clean s) = false.
Proof.
  intros B. destruct (is_select (clean s)) eqn:E; [|reflexivity]. exfalso.
  apply is_select_spec in E as [ws [u [post [E [F [L W]]]]]].
  assert (L' : lower u = lower (py "SELECT")) by exact L.
  destruct u as [|c u]; [discriminate|].
  assert (Fc : is_ascii_letter c = true).
  { pose proof (same_case_letters _ _ L' eq_refl) as Fu. simpl in Fu.
    now apply andb_true_iff in Fu as [Fc _]. }
  assert (I : In c (clean s)).
  { rewrite E. apply in_or_app. right. now left. }
  apply clean_incl in I as [I| ->]; [|discriminate].
  unfold blank in B. rewrite forallb_forall in B. apply B in I.
  apply orb_true_iff in I as [I|I].
  - rewrite (letter_not_space c Fc) in I. discriminate.
  - apply chr_eqb_eq in I. subst c. discriminate.
Qed.

(** ** Digits of the default limit *)

Lemma uint_digits d :
  forallb isdecimal (list_ascii_of_string (NilEmpty.string_of_uint d)) = true.
Proof. induction d; simpl; auto. Qed.

Lemma nilzero_digits d :
  list_ascii_of_string (NilZero.string_of_uint d) <> [] /\
  forallb isdecimal (list_ascii_of_string (NilZero.string_of_uint d)) = true.
Proof.
  destruct d; (split; [discriminate|]); try reflexivity;
    apply (uint_digits (_ d)).
Qed.

Lemma str_of_int_digits n :
  (0 <= n)%Z ->
  str_of_int n <> [] /\ forallb isdecimal (str_of_int n) = true.
Proof.
  intros H. unfold str_of_int. destruct n as [|p|p]; [| |lia].
  - split; [discriminate|reflexivity].
  - apply nilzero_digits.
Qed.

(** ** The limit pattern on a rewritten statement *)

Lemma limit_match_here ds :
  ds <> [] -> forallb isdecimal ds = true ->
  exists m,
    match_here true LIMIT_PATTERN (Some " "%char)
      (py "LIMIT" ++ py " " ++ ds ++ py ";") = Some m.
Proof.
  intros N F.
  exists (MState [] (last_or (Some " "%char) ds) (py ";")).
  unfold match_here. cbn [exec LIMIT_PATTERN].
  change (at_boundary (Some " "%char) (py "LIMIT" ++ py " " ++ ds ++ py ";"))
    with true. cbv iota.
  change (lit_prefix true (py "LIMIT") (Some " "%char)
            (py "LIMIT" ++ py " " ++ ds ++ py ";"))
    with (Some (Some "T"%char, py " " ++ ds ++ py ";")).
  cbv iota beta.
  change (exec true (Plus isspace) [] (Some "T"%char) (py " " ++ ds ++ py ";")
            (fun g' prev' s' =>
               exec true (Cat (Plus isdecimal) WordB) g' prev' s' accept)
          = Some (MState [] (last_or (Some " "%char) ds) (py ";"))).
  apply exec_plus_greedy; [discriminate|reflexivity| |].
  - destruct ds as [|c ds]; [congruence|]. simpl in *.
    apply andb_true_iff in F as [F _]. now apply decimal_not_space.
  - cbn [exec].
    change (exec true (Plus isdecimal) [] (last_or (Some "T"%char) (py " "))
              (ds ++ py ";")
              (fun g' prev' s' =>
                 if at_boundary prev' s' then accept g' prev' s' else None)
            = Some (MState [] (last_or (Some " "%char) ds) (py ";"))).
    apply exec_plus_greedy; [exact N|exact F|reflexivity|].
    destruct (last_or_forall isdecimal (last_or (Some "T"%char) (py " ")) ds N F)
      as [c [E D]].
    unfold at_boundary. rewrite E. simpl wordp. rewrite (decimal_word c D).
    simpl. unfold accept. f_equal. f_equal.
    rewrite <- E. reflexivity.
Qed.

Lemma has_limit_appended x d :
  (0 <= d)%Z -> has_limit (x ++ py " LIMIT " ++ str_of_int d ++ py ";") = true.
Proof.
  intros H. destruct (str_of_int_digits d H) as [N F].
  destruct (limit_match_here (str_of_int d) N F) as [m M].
  unfold has_limit, search, IGNORECASE. apply is_some_true.
  replace (x ++ py " LIMIT " ++ str_of_int d ++ py ";")
    with ((x ++ py " ") ++ py "LIMIT" ++ py " " ++ str_of_int d ++ py ";")
    by (rewrite <- !app_assoc; reflexivity).
  eapply search_from_some. rewrite last_or_app. exact M.
Qed.

Lemma add_default_limit_idempotent x d :
  (0 <= d)%Z ->
  add_default_limit (add_default_limit x d) d = add_default_limit x d.
Proof.
  intros H. unfold add_default_limit at 2 3.
  destruct (negb (has_limit x) && negb (is_aggregate x)) eqn:E.
  - unfold add_default_limit.
    now rewrite (has_limit_appended (rstrip (py ";") x) d H).
  - unfold add_default_limit. now rewrite E.
Qed.

(** ** Whole words, decided *)

Lemma has_word_from_eq w prev s :
  has_word_from w prev s =
  (negb (wordp prev)
   && starts_with chr_eqb (lower w) (lower s)
   && negb (wordp (hd_error (skipn (List.length w) s))))
  || match s with
     | [] => false
     | c :: t => has_word_from w (Some c) t
     end.
Proof. destruct s; reflexivity. Qed.

Lemma starts_with_app a t : starts_with chr_eqb a (a ++ t) = true.
Proof. induction a as [|x a IH]; simpl; auto. now rewrite chr_eqb_refl. Qed.

Lemma has_word_from_complete w prev pre u post :
  lower u = lower w -> wordp (last_or prev pre) = false ->
  wordp (hd_error post) = false ->
  has_word_from w prev (pre ++ u ++ post) = true.
Proof.
  intros L Wl Wr. revert prev Wl.
  induction pre as [|c pre IH]; intros prev Wl; rewrite has_word_from_eq.
  - simpl in Wl. cbn [app]. rewrite Wl, lower_app, L, starts_with_app.
    assert (Len : List.length w = List.length u)
      by (rewrite <- (lower_length w), <- L; apply lower_length).
    rewrite Len, skipn_app, Nat.sub_diag, skipn_all. simpl. now rewrite Wr.
  - cbn [app]. rewrite (IH (Some c) Wl). apply orb_true_r.
Qed.

Lemma whole_word_decide w s : whole_word_in w s -> has_word w s = true.
Proof.
  intros [pre [u [post [E [L [Wl Wr]]]]]]. subst s.
  now apply has_word_from_complete.
Qed.

Lemma aggregate_word_decide s : aggregate_word s -> has_aggregate_word s = true.
Proof.
  intros [f [I W]]. unfold has_aggregate_word. apply existsb_exists.
  exists f. split; [exact I|now apply whole_word_decide].
Qed.

(** ** Truncation *)

Section Rows.

Variable Row : Type.

Lemma head_nonneg (n : Z) (df : DataFrame Row) :
  (0 <= n)%Z -> head n df = firstn (Z.to_nat n) df.
Proof. intros H. unfold head. destruct (0 <=? n)%Z eqn:E; [reflexivity|lia]. Qed.

Lemma head_prefix (n : Z) (df : DataFrame Row) : is_prefix (head n df) df.
Proof.
  unfold head, is_prefix.
  destruct (0 <=? n)%Z; eexists; symmetry; apply firstn_skipn.
Qed.

(** The rows that [execute_sql] keeps of the result [df] of the engine. *)
Lemma execute_sql_returns (w : World Row) db_path sql limit_rows u df :
  sqlite3_connect w db_path = Returned u ->
  read_sql_query w db_path sql = Returned df ->
  execute_sql w db_path sql limit_rows =
  (Returned (if (Z.of_nat (List.length df) >? limit_rows)%Z
             then head limit_rows df else df),
   [Connect db_path; Query sql; Close]).
Proof. intros C Q. unfold execute_sql. now rewrite C, Q. Qed.

Lemma execute_sql_inv (w : World Row) db_path sql limit_rows out tr :
  execute_sql w db_path sql limit_rows = (Returned out, tr) ->
  exists df,
    read_sql_query w db_path sql = Returned df /\
    out = (if (Z.of_nat (List.length df) >? limit_rows)%Z
           then head limit_rows df else df).
Proof.
  unfold execute_sql.
  destruct (sqlite3_connect w db_path); [|discriminate].
  destruct (read_sql_query w db_path sql) as [df|]; [|discriminate].
  intros H. injection H as <- _. now exists df.
Qed.

(** The only statement that [execute_sql] sends to the engine is its
    argument. *)
Lemma execute_sql_queries (w : World Row) db_path sql limit_rows sql' :
  In (Query sql') (snd (execute_sql w db_path sql limit_rows)) -> sql' = sql.
Proof.
  unfold execute_sql.
  destruct (sqlite3_connect w db_path); cbn [snd].
  - destruct (read_sql_query w db_path sql); cbn [snd];
      intros [H|[H|[H|[]]]]; try discriminate H; now injection H.
  - intros [H|[]]. discriminate H.
Qed.

End Rows.

(** ** The column pattern *)

Lemma exec_cat ic r1 r2 g prev s k :
  exec ic (Cat r1 r2) g prev s k =
  exec ic r1 g prev s (fun g' prev' s' => exec ic r2 g' prev' s' k).
Proof. reflexivity. Qed.

Lemma exec_wordb ic g prev s k :
  exec ic WordB g prev s k = if at_boundary prev s then k g prev s else None.
Proof. reflexivity. Qed.

Lemma exec_lit ic w g prev s k :
  exec ic (Lit w) g prev s k =
  match lit_prefix ic w prev s with
  | Some (prev', s') => k g prev' s'
  | None => None
  end.
Proof. reflexivity. Qed.

Lemma dot_match_inv prev s m :
  match_here NOFLAGS DOT_COL_PATTERN prev s = Some m ->
  exists t c post,
    s = t ++ py "." ++ c ++ post /\ wordp prev = false /\
    is_identifier t = true /\ is_identifier c = true /\
    stops ident_char post /\ groups m = [t; c].
Proof.
  unfold match_here, NOFLAGS, DOT_COL_PATTERN.
  rewrite exec_cat, exec_wordb. intros H.
  destruct (at_boundary prev s) eqn:B; [|discriminate].
  rewrite exec_cat in H.
  apply exec_ident_group_inv in H as [t [post1 [E [It K]]]].
  rewrite exec_cat, exec_lit in K.
  destruct (lit_prefix false (py ".") (last_or prev t) post1)
    as [[pv s']|] eqn:L; [|discriminate].
  apply lit_prefix_cs_spec in L as [E1 P].
  apply exec_ident_group_accept in K as [c [post [E2 [Ic [S M]]]]].
  exists t, c, post. subst s post1 s' m. repeat split; auto.
  destruct t as [|a t]; [discriminate|]. simpl in It.
  apply andb_true_iff in It as [Ia _].
  unfold at_boundary in B. simpl in B.
  rewrite (ident_char_word a (ident_start_char a Ia)) in B.
  now destruct (wordp prev).
Qed.

Lemma existsb_str_In x l : existsb (str_eqb x) l = true <-> In x l.
Proof.
  rewrite existsb_exists. split.
  - intros [y [I E]]. apply str_eqb_eq in E. now subst.
  - intros I. exists x. split; [exact I|now apply str_eqb_eq].
Qed.

(** What the column gate does check: it accepts every text all of whose
    qualified references name the allowed table and an allowed column. *)
Lemma column_gate_sound s :
  (forall t c, qualified_ref t c s -> is_allowed_table t /\ is_allowed_column c) ->
  dot_columns_are_allowed s = true.
Proof.
  intros H. unfold dot_columns_are_allowed.
  destruct (existsb _ (finditer NOFLAGS DOT_COL_PATTERN s)) eqn:E;
    [|reflexivity].
  exfalso. apply existsb_exists in E as [g [I B]].
  apply scan_sound in I as [pre [s' [m [Es [M G]]]]].
  apply dot_match_inv in M as [t [c [post [E1 [W [It [Ic [S Gm]]]]]]]].
  destruct (H t c) as [At Ac].
  { exists pre, post. subst. apply stops_ident in S. now repeat split. }
  rewrite <- G, Gm in B. cbv beta zeta in B.
  change (group 1 [t; c]) with t in B. change (group 2 [t; c]) with c in B.
  apply orb_true_iff in B as [B|B]; apply negb_true_iff in B.
  - apply str_eqb_neq in B. apply B. exact At.
  - assert (X : existsb (str_eqb (lower c)) ALLOWED_COLS_LC = true)
      by (apply existsb_str_In; exact Ac).
    congruence.
Qed.

(** ** Aggregate names and the default limit *)

Lemma upper_of_letter c :
  is_ascii_letter c = true -> upper_cp c = [(ord (lower_chr c) - 32)%N].
Proof. each_char c. Qed.

Lemma ord_of_upper a :
  is_ascii_upper a = true -> (ord (lower_chr a) - 32)%N = ord a.
Proof. each_char a. Qed.

Lemma upper_is_letter a : is_ascii_upper a = true -> is_ascii_letter a = true.
Proof. each_char a. Qed.

Lemma upper_same_case u f :
  forallb is_ascii_upper f = true -> lower u = lower f -> upper u = codes f.
Proof.
  revert f. induction u as [|c u IH]; intros [|a f] F L; simpl in *;
    try discriminate; auto.
  apply andb_true_iff in F as [Fa Ff]. injection L as L1 L2.
  rewrite (upper_of_letter c (same_case_letter a c L1 (upper_is_letter a Fa))).
  rewrite L1, (ord_of_upper a Fa). simpl. f_equal. now apply IH.
Qed.

Lemma starts_with_N_app (n t : list N) : starts_with N.eqb n (n ++ t) = true.
Proof. induction n as [|x n IH]; simpl; auto. now rewrite N.eqb_refl. Qed.

Lemma contains_middle (a n b : list N) : contains N.eqb n (a ++ n ++ b) = true.
Proof.
  induction a as [|x a IH].
  - cbn [app]. destruct (n ++ b) eqn:E; simpl; rewrite <- E;
      rewrite starts_with_N_app; reflexivity.
  - cbn [app contains]. rewrite IH. apply orb_true_r.
Qed.

(** A statement with an aggregate function name as a whole word is an
    aggregate for [is_aggregate]; the converse fails (C3). *)
Lemma aggregate_word_is_aggregate s : aggregate_word s -> is_aggregate s = true.
Proof.
  intros [f [I [pre [u [post [E [L [_ _]]]]]]]].
  unfold is_aggregate. apply existsb_exists. exists f. split; [exact I|].
  assert (U : upper u = codes f).
  { apply upper_same_case; [|exact L].
    repeat (destruct I as [<-|I]; [reflexivity|]). destruct I. }
  subst s. unfold upper. rewrite !flat_map_app. fold (upper u). rewrite U.
  apply contains_middle.
Qed.

(** The parts of C3 that hold: no limit is appended to a statement with an
    aggregate function name as a whole word, and one limit clause is appended
    to a statement in which [has_limit] and [is_aggregate] find nothing. *)
Lemma aggregate_statement_unchanged s d :
  aggregate_word s -> add_default_limit s d = s.
Proof.
  intros A. unfold add_default_limit.
  rewrite (aggregate_word_is_aggregate s A). now rewrite andb_false_r.
Qed.

Lemma plain_statement_limited s d :
  has_limit s = false -> is_aggregate s = false ->
  add_default_limit s d
  = rstrip (py ";") s ++ py " LIMIT " ++ str_of_int d ++ py ";".
Proof. intros H A. unfold add_default_limit. now rewrite H, A. Qed.

(* ================================================================== *)
(** * The claims *)
(* ================================================================== *)

(** ** C1: the forbidden-keyword gate *)




(** ** C5: the statement-shape gate *)

(** C5, as stated, fails: a text made of two statements is not a single
    SELECT statement, yet the statement-shape gate lets it through (and the
    validator accepts it). *)
Lemma C5_two_statements_counterexample :
  single_statement
    (clean (py "SELECT * FROM transactions; SELECT * FROM transactions")) = false /\
  sanitize_sql (py "SELECT * FROM transactions; SELECT * FROM transactions")
  = Accepted
      (py "SELECT * FROM transactions; SELECT * FROM transactions LIMIT 100;") /\
  sanitize_sql (py "SELECT * FROM transactions; SELECT * FROM transactions")
  <> Rejected NotASelect.
Proof.
  split; [reflexivity|]. split; [reflexivity|].
  intros H. vm_compute in H. discriminate.
Qed.

(** C5 (amended): for candidates whose characters lie in U+0000..U+00FF, the
    statement-shape gate lets a candidate through exactly when its cleaned
    text begins, after optional white space, with the keyword SELECT in any
    case as a whole word; every other candidate, and no candidate of that
    form, is rejected with the reason NotASelect. *)
Theorem C5_statement_shape_gate (s : str) :
  (is_select (clean s) = true <-> starts_with_select (clean s)) /\
  (sanitize_sql s = Rejected NotASelect <-> ~ starts_with_select (clean s)).
Proof.
  split; [apply is_select_spec|].
  rewrite sanitize_sql_gates. destruct (is_select (clean s)) eqn:E; simpl.
  - split.
    + intros H. exfalso.
      destruct (is_some _); [now apply Rejected_inj in H|].
      destruct (negb (only_allowed_tables _)); [now apply Rejected_inj in H|].
      destruct (negb (dot_columns_are_allowed _));
        [now apply Rejected_inj in H|discriminate].
    + intros N. exfalso. apply N. now apply is_select_spec.
  - split; [|reflexivity]. intros _ H. apply is_select_spec in H. congruence.
Qed.

Lemma C5_statement_shape_gate_witness :
  starts_with_select
    (clean (py "  select id from transactions  ;; ")) /\
  ~ starts_with_select (clean (py "DROP TABLE transactions")).
Proof.
  split.
  - apply (proj1 (proj1 (C5_statement_shape_gate
                           (py "  select id from transactions  ;; ")))).
    reflexivity.
  - apply (proj1 (proj2 (C5_statement_shape_gate (py "DROP TABLE transactions")))).
    reflexivity.
Defined.

(** ** C6: the table allow-list gate *)

(** C6, evaluated where the code departs from it: in the candidate below the
    name that immediately follows JOIN is [sqlite_master], written as a
    quoted identifier, and it is not the allowed table; the pattern of the
    gate reads only a name that begins with a letter or an underscore, finds
    no table after this JOIN, and the candidate is accepted instead of
    rejected with the reason UnknownTable. *)
Theorem C6_quoted_table_accepted :
  reaches_table_gate
    (py "SELECT * FROM transactions JOIN " ++ quoted (py "sqlite_master")
     ++ py " ON 1=1") = true /\
  ~ is_allowed_table (py "sqlite_master") /\
  only_allowed_tables
    (clean (py "SELECT * FROM transactions JOIN "
            ++ quoted (py "sqlite_master") ++ py " ON 1=1")) = true /\
  sanitize_sql
    (py "SELECT * FROM transactions JOIN " ++ quoted (py "sqlite_master")
     ++ py " ON 1=1")
  = Accepted
      (py "SELECT * FROM transactions JOIN " ++ quoted (py "sqlite_master")
       ++ py " ON 1=1 LIMIT 100;").
Proof.
  split; [reflexivity|]. split; [|split; reflexivity].
  intros H. vm_compute in H. discriminate H.
Qed.

(** What the gate does check: the names that the pattern of the code reads
    after FROM and JOIN, which begin with a letter or an underscore and run
    on through letters, digits and underscores.  For candidates whose
    characters lie in U+0000..U+00FF that reach the gate, the answer is
    UnknownTable exactly when one of these names is not the allowed table
    or no FROM is followed by it. *)
Lemma table_gate_on_plain_names (s : str) :
  reaches_table_gate s = true ->
  (sanitize_sql s = Rejected UnknownTable <-> ~ tables_allowed s).
Proof.
  unfold reaches_table_gate. intros R.
  apply andb_true_iff in R as [S D]. apply negb_true_iff in D.
  rewrite sanitize_sql_gates, S, D. simpl.
  rewrite <- tables_allowed_clean, <- only_allowed_tables_spec.
  destruct (only_allowed_tables (clean s)); simpl.
  - split; [|intros N; now exfalso; apply N].
    intros H. exfalso.
    destruct (negb (dot_columns_are_allowed _));
      [now apply Rejected_inj in H|discriminate].
  - split; [intros _ H; discriminate|reflexivity].
Qed.

(** The scenario of the gate, which the code satisfies. *)
Example other_table_rejected :
  sanitize_sql (py "SELECT t.id FROM other_table t") = Rejected UnknownTable.
Proof. reflexivity. Qed.

(** ** C7: the qualified-column gate *)

(** C7, evaluated where the code departs from it: in the chain
    [transactions.id.secret] the text [id.secret] is an occurrence of
    identifier.identifier whose table part is [id], not the allowed table,
    and whose column part is not an allowed column; the scan of the gate
    resumes after [transactions.id] and never reads it, so the candidate is
    accepted instead of rejected with the reason UnknownColumn. *)
Theorem C7_chained_qualifier_accepted :
  qualified_ref (py "id") (py "secret")
    (py "SELECT transactions.id.secret FROM transactions") /\
  ~ is_allowed_table (py "id") /\
  ~ is_allowed_column (py "secret") /\
  dot_columns_are_allowed
    (clean (py "SELECT transactions.id.secret FROM transactions")) = true /\
  sanitize_sql (py "SELECT transactions.id.secret FROM transactions")
  = Accepted (py "SELECT transactions.id.secret FROM transactions LIMIT 100;").
Proof.
  split.
  - exists (py "SELECT transactions."), (py " FROM transactions").
    now repeat split.
  - split; [intros H; vm_compute in H; discriminate|].
    split; [|split; reflexivity].
    unfold is_allowed_column. intros H. vm_compute in H.
    repeat (destruct H as [H|H]; [discriminate|]). exact H.
Qed.

(** The scenarios of the gate that the code does satisfy. *)
Example qualified_unknown_column_rejected :
  sanitize_sql (py "SELECT transactions.secret FROM transactions")
  = Rejected UnknownColumn.
Proof. reflexivity. Qed.

Example unqualified_column_not_validated :
  sanitize_sql (py "SELECT secret FROM transactions")
  = Accepted (py "SELECT secret FROM transactions LIMIT 100;").
Proof. reflexivity. Qed.

(** ** C3: the default limit *)

(** C3, evaluated where the code departs from it: the validated statement
    below has no limit clause and no aggregate function name as a whole word,
    but the name of the column [counterparty] contains COUNT, which
    [is_aggregate] looks for as a substring of the upper-cased text; no limit
    is appended. *)
Theorem C3_counterparty_gets_no_limit :
  sanitize_sql (py "SELECT counterparty FROM transactions")
  = Accepted (py "SELECT counterparty FROM transactions;") /\
  has_limit (py "SELECT counterparty FROM transactions;") = false /\
  ~ aggregate_word (py "SELECT counterparty FROM transactions;") /\
  is_aggregate (py "SELECT counterparty FROM transactions;") = true /\
  add_default_limit (py "SELECT counterparty FROM transactions;") DEFAULT_LIMIT
  = py "SELECT counterparty FROM transactions;".
Proof.
  split; [reflexivity|]. split; [reflexivity|].
  split; [|split; reflexivity].
  intros H. apply aggregate_word_decide in H. vm_compute in H. discriminate.
Qed.

(** ** C8: rewriting twice *)

(** C8, evaluated where the code departs from it: the statement below
    carries an explicit LIMIT clause, whose count is written between
    brackets; the pattern of [has_limit] wants a decimal digit after the
    white space, does not see the clause, and the rewrite appends a second
    LIMIT clause instead of leaving the statement unchanged. *)
Theorem C8_bracketed_limit_rewritten :
  whole_word_in (py "LIMIT") (py "SELECT id FROM transactions LIMIT (5);") /\
  has_limit (py "SELECT id FROM transactions LIMIT (5);") = false /\
  add_default_limit (py "SELECT id FROM transactions LIMIT (5);") DEFAULT_LIMIT
  = py "SELECT id FROM transactions LIMIT (5) LIMIT 100;" /\
  sanitize_sql (py "SELECT id FROM transactions LIMIT (5)")
  = Accepted (py "SELECT id FROM transactions LIMIT (5) LIMIT 100;").
Proof.
  split; [|split; [|split]; reflexivity].
  exists (py "SELECT id FROM transactions "), (py "LIMIT"), (py " (5);").
  now repeat split.
Qed.

(** What the rewrite does satisfy: it is idempotent, for every text; and a
    statement in which [has_limit] finds a clause is left unchanged. *)
Lemma rewrite_idempotent (x : str) :
  add_default_limit (add_default_limit x DEFAULT_LIMIT) DEFAULT_LIMIT
  = add_default_limit x DEFAULT_LIMIT.
Proof. apply add_default_limit_idempotent. unfold DEFAULT_LIMIT. lia. Qed.

Example digit_limit_unchanged :
  add_default_limit (py "SELECT * FROM transactions LIMIT 5;") DEFAULT_LIMIT
  = py "SELECT * FROM transactions LIMIT 5;".
Proof. reflexivity. Qed.

(** ** C10: blank candidates *)

(** C10: the empty string and every candidate made only of white space and
    terminators is rejected with the reason NotASelect, which is the verdict
    of the first gate. *)
Theorem C10_blank_rejected (s : str) :
  blank s = true ->
  is_select (clean s) = false /\ sanitize_sql s = Rejected NotASelect.
Proof.
  intros B. pose proof (blank_not_select s B) as E.
  split; [exact E|]. rewrite sanitize_sql_gates, E. reflexivity.
Qed.

Lemma C10_blank_rejected_witness :
  blank (py "  ;; ") = true /\
  sanitize_sql (py "  ;; ") = Rejected NotASelect /\
  sanitize_sql [] = Rejected NotASelect.
Proof.
  assert (B : blank (py "  ;; ") = true) by reflexivity.
  split; [exact B|]. split.
  - exact (proj2 (C10_blank_rejected (py "  ;; ") B)).
  - exact (proj2 (C10_blank_rejected [] eq_refl)).
Defined.

(** ** C2: the row cap of the execution step *)

(** C2, as stated for every row cap, fails: the cap is an [int], and for the
    cap [-1] the guard [len(df) > limit_rows] holds and [df.head(-1)] drops
    only the last row; of five rows four are returned, more than the cap. *)
Lemma C2_negative_cap_counterexample :
  fst (execute_sql (echo_world 5) DEFAULT_DB_PATH
         (py "SELECT * FROM transactions LIMIT 100;") (-1))
  = Returned [0; 1; 2; 3] /\
  ~ (Z.of_nat (List.length [0; 1; 2; 3]) <= -1)%Z.
Proof. split; [reflexivity|simpl; lia]. Qed.

(** C2 (amended): for every SQL string and every row cap that is not
    negative, whatever [execute_sql] returns has at most that many rows, and
    when the connection and the query succeed it does return rows; when the
    engine gives 500 rows and the cap is 100, exactly 100 rows are
    returned. *)
Theorem C2_row_cap (Row : Type) (w : World Row) (db_path sql : str) (cap : Z) :
  (0 <= cap)%Z ->
  (forall out tr,
      execute_sql w db_path sql cap = (Returned out, tr) ->
      (Z.of_nat (List.length out) <= cap)%Z) /\
  (forall u df,
      sqlite3_connect w db_path = Returned u ->
      read_sql_query w db_path sql = Returned df ->
      exists out,
        fst (execute_sql w db_path sql cap) = Returned out /\
        (Z.of_nat (List.length out) <= cap)%Z /\
        (List.length df = 500 -> cap = 100%Z -> List.length out = 100)).
Proof.
  intros H.
  assert (B : forall df : DataFrame Row,
             (Z.of_nat (List.length
                (if (Z.of_nat (List.length df) >? cap)%Z
                 then head cap df else df)) <= cap)%Z).
  { intros df. destruct (Z.of_nat (List.length df) >? cap)%Z eqn:G; [|lia].
    rewrite (head_nonneg Row cap df H), length_firstn. lia. }
  split.
  - intros out tr E. apply execute_sql_inv in E as [df [_ ->]]. apply B.
  - intros u df C Q. rewrite (execute_sql_returns Row w db_path sql cap u df C Q).
    simpl. eexists. split; [reflexivity|]. split; [apply B|].
    intros L ->. rewrite L. simpl.
    rewrite (head_nonneg Row 100 df H), length_firstn, L. reflexivity.
Qed.

Lemma C2_row_cap_witness :
  (0 <= 100)%Z /\
  exists out,
    fst (execute_sql (echo_world 500) DEFAULT_DB_PATH
           (py "SELECT * FROM transactions;") 100) = Returned out /\
    List.length out = 100.
Proof.
  assert (H : (0 <= 100)%Z) by lia.
  split; [exact H|].
  destruct (proj2 (C2_row_cap nat (echo_world 500) DEFAULT_DB_PATH
                     (py "SELECT * FROM transactions;") 100 H)
              tt (seq 0 500) eq_refl eq_refl) as [out [E [_ L]]].
  exists out. split; [exact E|].
  apply L; [apply length_seq|reflexivity].
Defined.

(** ** C9: truncation keeps a prefix *)

(** C9, as stated, fails for a negative cap: the engine returns more rows
    than the cap [-1], and what comes back is all rows but the last, which is
    not the first [-1] rows. *)
Lemma C9_negative_cap_counterexample :
  read_sql_query (echo_world 5) DEFAULT_DB_PATH
    (py "SELECT * FROM transactions;") = Returned [0; 1; 2; 3; 4] /\
  (Z.of_nat (List.length [0; 1; 2; 3; 4]) > -1)%Z /\
  fst (execute_sql (echo_world 5) DEFAULT_DB_PATH
         (py "SELECT * FROM transactions;") (-1))
  = Returned [0; 1; 2; 3] /\
  ~ first_rows (-1) [0; 1; 2; 3; 4] [0; 1; 2; 3].
Proof.
  split; [reflexivity|]. split; [simpl; lia|]. split; [reflexivity|].
  intros [_ L]. simpl in L. lia.
Qed.

(** C9 (amended): when the connection and the query succeed, [execute_sql]
    returns a prefix of the result of the engine, in the order of the engine;
    it is the whole result when the engine returns at most [row_cap] rows,
    and for a row cap that is not negative it is exactly the first [row_cap]
    rows when the engine returns more. *)
Theorem C9_truncation_is_prefix (Row : Type) (w : World Row)
  (db_path sql : str) (row_cap : Z) (u : unit) (df : DataFrame Row) :
  sqlite3_connect w db_path = Returned u ->
  read_sql_query w db_path sql = Returned df ->
  exists out,
    fst (execute_sql w db_path sql row_cap) = Returned out /\
    is_prefix out df /\
    ((Z.of_nat (List.length df) <= row_cap)%Z -> out = df) /\
    ((0 <= row_cap < Z.of_nat (List.length df))%Z -> first_rows row_cap df out).
Proof.
  intros C Q. rewrite (execute_sql_returns Row w db_path sql row_cap u df C Q).
  simpl. eexists. split; [reflexivity|].
  destruct (Z.of_nat (List.length df) >? row_cap)%Z eqn:G.
  - split; [apply head_prefix|]. split; [lia|].
    intros [H0 H1]. split; [apply head_prefix|].
    rewrite (head_nonneg Row row_cap df H0), length_firstn. lia.
  - split; [exists []; now rewrite app_nil_r|]. split; [reflexivity|lia].
Qed.

Lemma C9_truncation_is_prefix_witness :
  exists out,
    fst (execute_sql (echo_world 5) DEFAULT_DB_PATH
           (py "SELECT * FROM transactions;") 3) = Returned out /\
    first_rows 3 [0; 1; 2; 3; 4] out.
Proof.
  destruct (C9_truncation_is_prefix nat (echo_world 5) DEFAULT_DB_PATH
              (py "SELECT * FROM transactions;") 3 tt (seq 0 5)
              eq_refl eq_refl) as [out [E [_ [_ F]]]].
  exists out. split; [exact E|]. apply F. simpl. lia.
Defined.

(** ** C4: the outcome of the pipeline *)

(** C4: the outcome of [nl2sql_run] has exactly one of the rows and the error
    set; every statement sent to the database was accepted by the validator,
    and nothing is sent when the generation fails or the candidate is
    rejected. *)
Theorem C4_outcome_and_execution (Row : Type) (w : World Row)
  (user_query db_path model : str) :
  let r := nl2sql_run w user_query db_path model in
  xorb (is_some (dataframe (fst r))) (is_some (error_message (fst r))) = true /\
  (forall sql,
      In (Query sql) (snd r) ->
      exists raw,
        llm_sql w user_query model = Returned raw /\
        sanitize_sql raw = Accepted sql) /\
  (forall e, llm_sql w user_query model = Raised e -> snd r = []) /\
  (forall raw,
      llm_sql w user_query model = Returned raw ->
      fst (sanitize_sql raw) = false ->
      snd r = [] /\ dataframe (fst r) = None).
Proof.
  cbv zeta. unfold nl2sql_run.
  destruct (path_exists w db_path); cbn [negb].
  2:{ split; [reflexivity|]. split; [intros sql []|]. now split. }
  destruct (llm_sql w user_query model) as [raw|e] eqn:L.
  2:{ split; [reflexivity|]. split; [intros sql []|].
      split; [reflexivity|]. intros raw E. discriminate E. }
  destruct (sanitize_sql raw) as [ok safe] eqn:S. destruct ok; cbn [negb].
  - pose proof (execute_sql_queries Row w db_path safe DEFAULT_LIMIT_ROWS) as Q.
    destruct (execute_sql w db_path safe DEFAULT_LIMIT_ROWS) as [[df|e] tr];
      cbn [fst snd] in *.
    + split; [reflexivity|]. split.
      * intros sql I. apply Q in I. subst sql. exists raw. now split.
      * split; [intros e E; discriminate E|].
        intros raw' E F. injection E as <-. rewrite S in F. discriminate F.
    + split; [reflexivity|]. split.
      * intros sql I. apply Q in I. subst sql. exists raw. now split.
      * split; [intros e' E; discriminate E|].
        intros raw' E F. injection E as <-. rewrite S in F. discriminate F.
  - split; [reflexivity|]. split; [intros sql []|].
    split; [intros e E; discriminate E|]. intros raw' E F. now split.
Qed.

Lemma C4_outcome_and_execution_witness :
  llm_sql (echo_world 3) (py "DROP TABLE transactions") DEFAULT_MODEL
  = Returned (py "DROP TABLE transactions") /\
  fst (sanitize_sql (py "DROP TABLE transactions")) = false /\
  snd (nl2sql_run (echo_world 3) (py "DROP TABLE transactions")
         DEFAULT_DB_PATH DEFAULT_MODEL) = [].
Proof.
  split; [reflexivity|]. split; [reflexivity|].
  exact (proj1 (proj2 (proj2 (proj2
           (C4_outcome_and_execution nat (echo_world 3)
              (py "DROP TABLE transactions") DEFAULT_DB_PATH DEFAULT_MODEL)))
           (py "DROP TABLE transactions") eq_refl eq_refl)).
Defined.

(* ================================================================== *)
(** * Further properties of the guardrails *)
(* ================================================================== *)

(** ** Cleaning *)

Lemma drop_while_idem (p : ascii -> bool) s :
  drop_while p (drop_while p s) = drop_while p s.
Proof.
  destruct (drop_while p s) as [|c t] eqn:E; [reflexivity|].
  apply drop_while_hd in E. simpl. now rewrite E.
Qed.

Lemma rstrip_by_idem (p : ascii -> bool) s :
  rstrip_by p (rstrip_by p s) = rstrip_by p s.
Proof.
  unfold rstrip_by. now rewrite rev_involutive, drop_while_idem.
Qed.

Lemma rstrip_by_snoc_strip (p : ascii -> bool) a c :
  p c = true -> rstrip_by p (a ++ [c]) = rstrip_by p a.
Proof.
  intros H. unfold rstrip_by. rewrite rev_app_distr. simpl. now rewrite H.
Qed.

Lemma rstrip_by_snoc_keep (p : ascii -> bool) a c :
  p c = false -> rstrip_by p (a ++ [c]) = a ++ [c].
Proof.
  intros H. unfold rstrip_by. rewrite rev_app_distr. simpl. rewrite H.
  simpl. now rewrite rev_involutive.
Qed.

(** The text between the outer white space and the trailing terminators. *)
Lemma clean_core s :
  exists core,
    clean s = core ++ py ";" /\
    rstrip (py ";") core = core /\
    drop_while isspace (core ++ py ";") = core ++ py ";".
Proof.
  exists (rstrip (py ";") (strip s)). split; [reflexivity|]. split.
  - unfold rstrip. apply rstrip_by_idem.
  - unfold rstrip, strip, lstrip_by.
    destruct (rstrip_by_prefix (fun c => existsb (chr_eqb c) (py ";"))
                (rstrip_by isspace (drop_while isspace s))) as [d1 [E1 _]].
    destruct (rstrip_by_prefix isspace (drop_while isspace s)) as [d2 [E2 _]].
    destruct (rstrip_by _ (rstrip_by isspace (drop_while isspace s)))
      as [|c t] eqn:E; [reflexivity|].
    assert (H : isspace c = false).
    { apply (drop_while_hd isspace s c (t ++ d1 ++ d2)).
      rewrite E2, E1. now rewrite <- !app_assoc. }
    simpl. now rewrite H.
Qed.

Lemma clean_idempotent s : clean (clean s) = clean s.
Proof.
  destruct (clean_core s) as [core [C [R D]]]. rewrite C.
  unfold clean at 1. unfold strip, lstrip_by. rewrite D.
  change (py ";") with [";"%char] in *.
  rewrite (rstrip_by_snoc_keep isspace core ";"%char eq_refl).
  unfold rstrip at 1.
  rewrite (rstrip_by_snoc_strip _ core ";"%char eq_refl).
  unfold rstrip in R. now rewrite R.
Qed.

(** ** The forbidden-keyword gate, read backwards *)

Lemma exec_grp ic r g prev s k :
  exec ic (Grp r) g prev s k =
  exec ic r g prev s
    (fun g' prev' s' =>
       k (g' ++ [firstn (List.length s - List.length s') s]) prev' s').
Proof. reflexivity. Qed.

Lemma exec_alts_inv w0 ws g prev s k m :
  exec true (alts w0 ws) g prev s k = Some m ->
  exists w prev' s',
    In w (w0 :: ws) /\ lit_prefix true w prev s = Some (prev', s') /\
    k g prev' s' = Some m.
Proof.
  revert w0. induction ws as [|w1 ws IH]; intros w0 H; cbn [alts] in H.
  - rewrite exec_lit in H.
    destruct (lit_prefix true w0 prev s) as [[p1 s1]|] eqn:E; [|discriminate].
    exists w0, p1, s1. repeat split; auto. now left.
  - cbn [exec] in H.
    destruct (lit_prefix true w0 prev s) as [[p1 s1]|] eqn:E.
    + destruct (k g p1 s1) eqn:K.
      * injection H as <-. exists w0, p1, s1. repeat split; auto. now left.
      * apply IH in H as [w [p2 [s2 [I [L K2]]]]].
        exists w, p2, s2. repeat split; auto. now right.
    + apply IH in H as [w [p2 [s2 [I [L K2]]]]].
      exists w, p2, s2. repeat split; auto. now right.
Qed.

Lemma ddl_match_inv prev s m :
  match_here true DDL_DML_PATTERN prev s = Some m ->
  exists kw u post,
    In kw DENYLIST /\ s = u ++ post /\ lower u = lower kw /\
    wordp prev = false /\ wordp (hd_error post) = false.
Proof.
  unfold match_here, DDL_DML_PATTERN. rewrite exec_cat, exec_wordb.
  destruct (at_boundary prev s) eqn:B; [|discriminate].
  rewrite exec_cat, exec_grp. intros H.
  apply exec_alts_inv in H as [kw [pv [post [I [L K]]]]].
  apply lit_prefix_ic_spec in L as [u [E [L P]]].
  destruct (denylist_letters kw I) as [Nk Fk].
  assert (Fu := same_case_letters u kw L Fk).
  assert (Nu := same_case_nonempty u kw L Nk).
  rewrite exec_wordb in K. subst s pv.
  rewrite (boundary_before prev u post Nu Fu) in B.
  rewrite (boundary_after prev u post Nu Fu) in K.
  exists kw, u, post. repeat split; auto.
  - now destruct (wordp prev).
  - now destruct (wordp (hd_error post)).
Qed.

Lemma ddl_search_inv s :
  is_some (search IGNORECASE DDL_DML_PATTERN s) = true ->
  exists kw, In kw DENYLIST /\ whole_word_in kw s.
Proof.
  intros H. apply is_some_true in H as [m H].
  apply search_from_inv in H as [pre [s' [E M]]].
  apply ddl_match_inv in M as [kw [u [post [I [E1 [L [Wl Wr]]]]]]].
  exists kw. split; [exact I|]. exists pre, u, post. subst. now repeat split.
Qed.

Lemma outer_right_word post semis trail :
  forallb (fun x => existsb (chr_eqb x) (py ";")) semis = true ->
  forallb isspace trail = true ->
  wordp (hd_error (post ++ py ";")) = false ->
  wordp (hd_error (post ++ semis ++ trail)) = false.
Proof.
  intros Fs Ft H. destruct post as [|c t]; [|exact H].
  destruct semis as [|x semis]; simpl in *.
  - destruct trail as [|y trail]; [reflexivity|]. simpl in *.
    apply andb_true_iff in Ft as [Fy _]. now apply isspace_not_word.
  - apply andb_true_iff in Fs as [Fx _]. rewrite orb_false_r in Fx.
    apply chr_eqb_eq in Fx. now subst x.
Qed.

(** A word of letters found in the cleaned text stands in the candidate. *)
Lemma whole_word_unclean kw s :
  kw <> [] -> forallb is_ascii_letter kw = true ->
  whole_word_in kw (clean s) -> whole_word_in kw s.
Proof.
  intros Nk Fk [pre [u [post [E [L [Wl Wr]]]]]].
  destruct (clean_shape s) as [lead [core [semis [trail [Es [Fl [Fs [Ft C]]]]]]]].
  assert (Fu := same_case_letters u kw L Fk).
  assert (Nu := same_case_nonempty u kw L Nk).
  destruct (exists_last Nu) as [u0 [d Ed]].
  assert (Fd : is_ascii_letter d = true).
  { rewrite Ed, forallb_app in Fu. apply andb_true_iff in Fu as [_ Fd].
    simpl in Fd. now rewrite andb_true_r in Fd. }
  destruct (exists_last (l := post)) as [post0 [x Ep]].
  { intros ->. rewrite C, Ed in E. rewrite app_nil_r in E.
    rewrite app_assoc in E. apply app_inj_tail in E as [_ E].
    subst d. discriminate. }
  rewrite C, Ep in E. rewrite !app_assoc in E.
  apply app_inj_tail in E as [E Ex]. rewrite <- !app_assoc in E.
  exists (lead ++ pre), u, (post0 ++ semis ++ trail). repeat split; auto.
  - rewrite Es, E. now rewrite <- !app_assoc.
  - now apply outer_left_boundary.
  - apply outer_right_word; auto. rewrite Ep in Wr. now subst x.
Qed.

(** X1. For candidates whose characters lie in U+0000..U+00FF the keyword
    gate has no false alarms: the validator answers with the DDL/DML message
    exactly for the candidates that begin with SELECT and contain a
    denylisted keyword as a whole word; a longer word that merely contains
    one (dropped, updated_at) does not trigger it. *)
Theorem keyword_gate_exact (s : str) :
  sanitize_sql s = Rejected UnsafeKeyword <->
  is_select (clean s) = true /\
  exists kw, In kw DENYLIST /\ whole_word_in kw s.
Proof.
  rewrite sanitize_sql_gates. split.
  - destruct (is_select (clean s)); simpl;
      [|intros H; now apply Rejected_inj in H].
    destruct (is_some (search IGNORECASE DDL_DML_PATTERN (clean s))) eqn:D.
    + intros _. split; [reflexivity|].
      apply ddl_search_inv in D as [kw [I W]]. exists kw. split; [exact I|].
      destruct (denylist_letters kw I) as [Nk Fk].
      now apply whole_word_unclean.
    + intros H. exfalso.
      destruct (negb (only_allowed_tables _)); [now apply Rejected_inj in H|].
      destruct (negb (dot_columns_are_allowed _));
        [now apply Rejected_inj in H|discriminate].
  - intros [S [kw [I W]]]. rewrite S. simpl.
    destruct (denylist_letters kw I) as [Nk Fk].
    now rewrite (ddl_search_hit kw (clean s) I (clean_keeps_word kw s Nk Fk W)).
Qed.

Lemma keyword_gate_exact_witness :
  sanitize_sql (py "SELECT dropped, updated_at FROM transactions")
  <> Rejected UnsafeKeyword /\
  sanitize_sql (py "select 1; drop table transactions") = Rejected UnsafeKeyword.
Proof.
  split.
  - intros H.
    apply (proj1 (keyword_gate_exact
                    (py "SELECT dropped, updated_at FROM transactions")))
      in H as [_ [kw [I W]]].
    apply whole_word_decide in W.
    repeat (destruct I as [<-|I]; [vm_compute in W; discriminate W|]).
    destruct I.
  - apply (proj2 (keyword_gate_exact (py "select 1; drop table transactions"))).
    split; [reflexivity|]. exists (py "DROP"). split; [now left|].
    exists (py "select 1; "), (py "drop"), (py " table transactions").
    now repeat split.
Defined.

(** ** What an accepted statement looks like *)

Lemma sanitize_accept_inv s y :
  sanitize_sql s = Accepted y ->
  is_select (clean s) = true /\
  is_some (search IGNORECASE DDL_DML_PATTERN (clean s)) = false /\
  only_allowed_tables (clean s) = true /\
  dot_columns_are_allowed (clean s) = true /\
  y = add_default_limit (clean s) DEFAULT_LIMIT.
Proof.
  rewrite sanitize_sql_gates.
  destruct (is_select (clean s)); simpl; [|discriminate].
  destruct (is_some _); [discriminate|].
  destruct (only_allowed_tables (clean s)); simpl; [|discriminate].
  destruct (dot_columns_are_allowed (clean s)); simpl; [|discriminate].
  intros H. injection H as <-. now repeat split.
Qed.

(** The accepted statement is the cleaned candidate, or its core followed by
    the default limit. *)
Lemma accepted_forms s y :
  sanitize_sql s = Accepted y ->
  exists core,
    clean s = core ++ py ";" /\
    ((y = core ++ py ";" /\ (has_limit y = true \/ is_aggregate y = true)) \/
     y = core ++ py " LIMIT 100;").
Proof.
  intros H. apply sanitize_accept_inv in H as [_ [_ [_ [_ ->]]]].
  destruct (clean_core s) as [core [C [R _]]]. exists core.
  split; [exact C|]. unfold add_default_limit.
  destruct (has_limit (clean s)) eqn:HL; simpl.
  - left. split; [exact C|]. left. exact HL.
  - destruct (is_aggregate (clean s)) eqn:A; simpl.
    + left. split; [exact C|]. right. exact A.
    + right. rewrite C. change (py ";") with [";"%char] in *.
      unfold rstrip in *.
      rewrite (rstrip_by_snoc_strip _ core ";"%char eq_refl), R.
      reflexivity.
Qed.

Lemma word_before_tail kw core t :
  forallb is_ascii_letter kw = true -> kw <> [] ->
  whole_word_in kw (core ++ " "%char :: t) ->
  whole_word_in kw (core ++ py ";") \/ whole_word_in kw (" "%char :: t).
Proof.
  intros Fk Nk [pre [u [post [E [L [Wl Wr]]]]]].
  assert (Fu := same_case_letters u kw L Fk).
  assert (Nu := same_case_nonempty u kw L Nk).
  assert (Sp : ~ In " "%char u).
  { intros I. rewrite forallb_forall in Fu. apply Fu in I. discriminate. }
  rewrite app_assoc in E. symmetry in E.
  apply app_eq_app in E as [l [[E1 E2]|[E1 E2]]].
  - destruct l as [|c l].
    + left. exists pre, u, (py ";"). rewrite app_nil_r in E1.
      repeat split; auto. rewrite <- E1. now rewrite <- app_assoc.
    + simpl in E2. injection E2 as <- E2.
      apply app_eq_app in E1 as [z [[E3 E4]|[E3 E4]]].
      * destruct z as [|c z].
        -- exfalso. apply Sp. simpl in E4. rewrite <- E4. now left.
        -- simpl in E4. injection E4 as <- E4.
           right. exists (" "%char :: z), u, post. repeat split; auto.
           ++ simpl. now rewrite E2, E4, <- app_assoc.
           ++ rewrite E3, last_or_app in Wl. exact Wl.
      * exfalso. apply Sp. rewrite E4. apply in_or_app. right. now left.
  - (* the word ends inside the core *)
    left. exists pre, u, (l ++ py ";"). repeat split; auto.
    + rewrite E1. now rewrite <- !app_assoc.
    + destruct l; [reflexivity|]. rewrite E2 in Wr. exact Wr.
Qed.

Lemma select_before_tail core t :
  starts_with_select (core ++ py ";") ->
  starts_with_select (core ++ " "%char :: t).
Proof.
  intros [ws [u [post [E [F [L W]]]]]].
  assert (L' : lower u = lower (py "SELECT")) by exact L.
  assert (Fu := same_case_letters u _ L' eq_refl).
  assert (Nu : u <> []) by (apply (same_case_nonempty u _ L'); discriminate).
  destruct (exists_last Nu) as [u0 [d Ed]].
  assert (Fd : is_ascii_letter d = true).
  { rewrite Ed, forallb_app in Fu. apply andb_true_iff in Fu as [_ Fd].
    simpl in Fd. now rewrite andb_true_r in Fd. }
  destruct (exists_last (l := post)) as [post0 [x Ep]].
  { intros ->. rewrite Ed, app_nil_r, app_assoc in E.
    apply app_inj_tail in E as [_ E]. subst d. discriminate. }
  rewrite Ep, !app_assoc in E. apply app_inj_tail in E as [E Ex].
  rewrite <- !app_assoc in E.
  exists ws, u, (post0 ++ " "%char :: t). repeat split; auto.
  - rewrite E. now rewrite <- !app_assoc.
  - destruct post0; [reflexivity|]. rewrite Ep in W. exact W.
Qed.

(** The four guarantees on an accepted statement, together. *)
Lemma accepted_guarded (s y : str) :
  sanitize_sql s = Accepted y ->
  starts_with_select y /\
  (exists body, y = body ++ py ";") /\
  (forall kw, In kw DENYLIST -> ~ whole_word_in kw y) /\
  (has_limit y = true \/ is_aggregate y = true).
Proof.
  intros H. pose proof (sanitize_accept_inv s y H) as [S [D _]].
  apply is_select_spec in S.
  assert (N : forall kw, In kw DENYLIST -> ~ whole_word_in kw (clean s)).
  { intros kw I W. rewrite (ddl_search_hit kw (clean s) I W) in D.
    discriminate. }
  destruct (accepted_forms s y H) as [core [C [[Ey L]|Ey]]].
  - rewrite Ey, <- C in L. rewrite Ey, <- C.
    split; [exact S|]. split; [now exists core|]. split; [exact N|exact L].
  - rewrite C in S, N. split; [|split; [|split]].
    + rewrite Ey. now apply select_before_tail.
    + exists (core ++ py " LIMIT 100"). rewrite Ey.
      now rewrite <- app_assoc.
    + intros kw I W. rewrite Ey in W.
      destruct (denylist_letters kw I) as [Nk Fk].
      apply (word_before_tail kw core (py "LIMIT 100;") Fk Nk) in W as [W|W].
      * now apply (N kw I).
      * apply whole_word_decide in W.
        repeat (destruct I as [<-|I]; [vm_compute in W; discriminate W|]).
        destruct I.
    + left. rewrite Ey.
      change (py " LIMIT 100;") with (py " LIMIT " ++ str_of_int 100 ++ py ";").
      apply has_limit_appended. lia.
Qed.

(** X2. For candidates whose characters lie in U+0000..U+00FF, what the
    validator hands to the database is always a statement that begins with
    the keyword SELECT, ends with a terminator, contains no denylisted
    keyword as a whole word, and either carries a LIMIT clause that
    [has_limit] recognises or is an aggregate for [is_aggregate]. *)
Theorem accepted_statement_is_guarded (s y : str) :
  sanitize_sql s = Accepted y ->
  starts_with_select y /\
  (exists body, y = body ++ py ";") /\
  (forall kw, In kw DENYLIST -> ~ whole_word_in kw y) /\
  (has_limit y = true \/ is_aggregate y = true).
Proof. exact (accepted_guarded s y). Qed.

Lemma accepted_statement_is_guarded_witness :
  sanitize_sql (py "  select id from transactions where ccy = 'USD' ;")
  = Accepted (py "select id from transactions where ccy = 'USD'  LIMIT 100;") /\
  has_limit (py "select id from transactions where ccy = 'USD'  LIMIT 100;")
  = true.
Proof.
  assert (H : sanitize_sql (py "  select id from transactions where ccy = 'USD' ;")
              = Accepted
                  (py "select id from transactions where ccy = 'USD'  LIMIT 100;"))
    by reflexivity.
  split; [exact H|].
  destruct (accepted_statement_is_guarded _ _ H) as [_ [_ [_ [L|A]]]];
    [exact L|vm_compute in A; discriminate A].
Defined.

(** X3. The verdict depends on the candidate only through its cleaned text:
    cleaning twice changes nothing, so outer white space and trailing
    terminators never change what the validator answers. *)
Theorem sanitize_sql_of_cleaned (s : str) :
  clean (clean s) = clean s /\ sanitize_sql (clean s) = sanitize_sql s.
Proof.
  split; [apply clean_idempotent|].
  rewrite !sanitize_sql_gates. now rewrite clean_idempotent.
Qed.

(** ** The column gate, read backwards *)

Lemma unclean_middle s pre M M0 d post :
  clean s = pre ++ M ++ post -> M = M0 ++ [d] -> d <> ";"%char ->
  exists lead post0 semis trail,
    s = (lead ++ pre) ++ M ++ post0 ++ semis ++ trail /\
    post = post0 ++ py ";" /\
    forallb isspace lead = true /\
    forallb (fun x => existsb (chr_eqb x) (py ";")) semis = true /\
    forallb isspace trail = true.
Proof.
  intros E Ed Nd.
  destruct (clean_shape s) as [lead [core [semis [trail [Es [Fl [Fs [Ft C]]]]]]]].
  destruct (exists_last (l := post)) as [post0 [x Ep]].
  { intros ->. rewrite C, Ed in E. rewrite app_nil_r in E.
    rewrite app_assoc in E. apply app_inj_tail in E as [_ E]. congruence. }
  rewrite C, Ep in E. rewrite !app_assoc in E.
  apply app_inj_tail in E as [E Ex]. rewrite <- !app_assoc in E.
  exists lead, post0, semis, trail. repeat split; auto.
  - rewrite Es, E. now rewrite <- !app_assoc.
  - rewrite Ep. now subst x.
Qed.

Lemma qualified_ref_unclean t c s :
  qualified_ref t c (clean s) -> qualified_ref t c s.
Proof.
  intros [pre [post [E [W [It [Ic S]]]]]].
  assert (Nc : c <> []) by (destruct c; discriminate).
  destruct (exists_last Nc) as [c0 [d Ed]].
  assert (Fd : ident_char d = true).
  { pose proof (identifier_chars c Ic) as Fi. rewrite Ed, forallb_app in Fi.
    apply andb_true_iff in Fi as [_ Fi]. simpl in Fi.
    now rewrite andb_true_r in Fi. }
  assert (E' : clean s = pre ++ (t ++ py "." ++ c) ++ post)
    by (rewrite E; now rewrite <- !app_assoc).
  destruct (unclean_middle s pre (t ++ py "." ++ c) (t ++ py "." ++ c0) d post E')
    as [lead [post0 [semis [trail [Es [Ep [Fl [Fs Ft]]]]]]]].
  - rewrite Ed. now rewrite <- !app_assoc.
  - intros ->. discriminate.
  - exists (lead ++ pre), (post0 ++ semis ++ trail). repeat split; auto.
    + rewrite Es. now rewrite <- !app_assoc.
    + now apply outer_left_boundary.
    + apply outer_right_ident; auto. now rewrite <- Ep.
Qed.

Lemma column_gate_reject_cause s :
  dot_columns_are_allowed s = false ->
  exists t c,
    qualified_ref t c s /\ ~ (is_allowed_table t /\ is_allowed_column c).
Proof.
  unfold dot_columns_are_allowed.
  destruct (existsb _ (finditer NOFLAGS DOT_COL_PATTERN s)) eqn:E;
    [intros _|discriminate].
  apply existsb_exists in E as [g [I B]].
  apply scan_sound in I as [pre [s' [m [Es [M G]]]]].
  apply dot_match_inv in M as [t [c [post [E1 [W [It [Ic [S Gm]]]]]]]].
  exists t, c. split.
  - exists pre, post. subst. apply stops_ident in S. now repeat split.
  - intros [At Ac]. rewrite <- G, Gm in B. cbv beta zeta in B.
    change (group 1 [t; c]) with t in B. change (group 2 [t; c]) with c in B.
    apply orb_true_iff in B as [B|B]; apply negb_true_iff in B.
    + apply str_eqb_neq in B. apply B. exact At.
    + assert (X : existsb (str_eqb (lower c)) ALLOWED_COLS_LC = true)
        by (apply existsb_str_In; exact Ac).
      congruence.
Qed.

(** X4. The column gate has no false alarms: when the validator answers with
    the unknown-column message, the candidate contains a qualified reference
    [t.c] whose table is not the allowed table or whose column is not an
    allowed column. *)
Theorem column_rejection_has_cause (s : str) :
  sanitize_sql s = Rejected UnknownColumn ->
  exists t c,
    qualified_ref t c s /\ ~ (is_allowed_table t /\ is_allowed_column c).
Proof.
  rewrite sanitize_sql_gates.
  destruct (is_select (clean s)); simpl;
    [|intros H; now apply Rejected_inj in H].
  destruct (is_some _); [intros H; now apply Rejected_inj in H|].
  destruct (only_allowed_tables (clean s)); simpl;
    [|intros H; now apply Rejected_inj in H].
  destruct (dot_columns_are_allowed (clean s)) eqn:D; simpl; [discriminate|].
  intros _. apply column_gate_reject_cause in D as [t [c [Q N]]].
  exists t, c. split; [now apply qualified_ref_unclean|exact N].
Qed.

Lemma column_rejection_has_cause_witness :
  exists t c,
    qualified_ref t c (py "SELECT transactions.secret FROM transactions") /\
    ~ (is_allowed_table t /\ is_allowed_column c).
Proof.
  apply (column_rejection_has_cause
           (py "SELECT transactions.secret FROM transactions")).
  reflexivity.
Defined.

(** ** The pipeline, end to end *)

Section EndToEnd.

Variable Row : Type.



End EndToEnd.


(* ================================================================== *)
(** * Substitution and the privacy filter *)
(* ================================================================== *)

(** ** Where a match can end *)

Lemma lit_prefix_suffix ic w prev s prev' s' :
  lit_prefix ic w prev s = Some (prev', s') -> exists u, s = u ++ s'.
Proof.
  revert prev s. induction w as [|a w IH]; intros prev s H; simpl in H.
  - injection H as _ <-. now exists [].
  - destruct s as [|b s]; [discriminate|].
    destruct (lit_eqb ic a b); [|discriminate].
    apply IH in H as [u ->]. now exists (b :: u).
Qed.

(** A successful run of the matcher reaches its continuation on a suffix of
    the text. *)
Lemma exec_through ic r : forall g prev s k m,
  exec ic r g prev s k = Some m ->
  exists u g' prev' s', s = u ++ s' /\ k g' prev' s' = Some m.
Proof.
  induction r as [| |w|p|p|p|r1 IH1 r2 IH2|r1 IH1 r2 IH2|r IH];
    intros g prev s k m H; cbn [exec] in H.
  - destruct prev; [discriminate|]. now exists [], g, None, s.
  - destruct (at_boundary prev s); [|discriminate]. now exists [], g, prev, s.
  - destruct (lit_prefix ic w prev s) as [[pv t]|] eqn:L; [|discriminate].
    apply lit_prefix_suffix in L as [u ->]. now exists u, g, pv, t.
  - destruct s as [|c s]; [discriminate|].
    destruct (p c); [|discriminate]. now exists [c], g, (Some c), s.
  - apply star_loop_inv in H as [u [s' [E [_ K]]]].
    now exists u, g, (last_or prev u), s'.
  - destruct s as [|c s]; [discriminate|].
    destruct (p c); [|discriminate].
    apply star_loop_inv in H as [u [s' [E [_ K]]]].
    exists (c :: u), g, (last_or (Some c) u), s'. subst s. now split.
  - apply IH1 in H as [u1 [g1 [p1 [s1 [E1 K1]]]]].
    apply IH2 in K1 as [u2 [g2 [p2 [s2 [E2 K2]]]]].
    exists (u1 ++ u2), g2, p2, s2. subst. now rewrite <- app_assoc.
  - destruct (exec ic r1 g prev s k) eqn:E.
    + injection H as <-. now apply IH1 in E.
    + now apply IH2 in H.
  - apply IH in H as [u [g1 [p1 [s1 [E1 K1]]]]]. eauto 6.
Qed.

(** ** The scan of [sub] *)

Lemma sub_scan_unfold m repl prev s :
  sub_scan m repl 0 prev s =
  match m prev s with
  | Some ms =>
      repl ++
      match s with
      | [] => []
      | c :: s' =>
          match List.length s - List.length (rest ms) with
          | O => c :: sub_scan m repl 0 (Some c) s'
          | S n => sub_scan m repl n (Some c) s'
          end
      end
  | None =>
      match s with
      | [] => []
      | c :: s' => c :: sub_scan m repl 0 (Some c) s'
      end
  end.
Proof. destruct s; reflexivity. Qed.

(** A stretch of text in which the pattern matches nowhere is copied. *)
Lemma sub_scan_copy m repl pre : forall prev rest,
  (forall a b, pre = a ++ b -> b <> [] -> m (last_or prev a) (b ++ rest) = None) ->
  sub_scan m repl 0 prev (pre ++ rest)
  = pre ++ sub_scan m repl 0 (last_or prev pre) rest.
Proof.
  induction pre as [|c pre IH]; intros prev rest H; [reflexivity|].
  cbn [app]. rewrite sub_scan_unfold.
  assert (H0 : m prev (c :: pre ++ rest) = None)
    by (apply (H [] (c :: pre) eq_refl); discriminate).
  rewrite H0. f_equal. apply IH. intros a b E N.
  apply (H (c :: a) b); [now rewrite E|exact N].
Qed.

Lemma sub_no_match m repl s :
  (forall a b, s = a ++ b -> m (last_or None a) b = None) ->
  sub m repl s = s.
Proof.
  intros H. unfold sub.
  rewrite <- (app_nil_r s) at 1. rewrite sub_scan_copy.
  - rewrite sub_scan_unfold, (H s []); [|now rewrite app_nil_r].
    apply app_nil_r.
  - intros a b E _. rewrite app_nil_r. now apply H.
Qed.

Lemma sub_scan_skip m repl u : forall prev rest,
  sub_scan m repl (List.length u) prev (u ++ rest)
  = sub_scan m repl 0 (last_or prev u) rest.
Proof.
  induction u as [|c u IH]; intros prev rest; [reflexivity|].
  simpl. apply IH.
Qed.

(** A match that is not empty is replaced, and the scan resumes after it. *)
Lemma sub_scan_replace m repl prev u rest' ms :
  m prev (u ++ rest') = Some ms -> rest ms = rest' -> u <> [] ->
  sub_scan m repl 0 prev (u ++ rest')
  = repl ++ sub_scan m repl 0 (last_or prev u) rest'.
Proof.
  intros M R N. rewrite sub_scan_unfold, M, R.
  destruct u as [|c u]; [congruence|]. cbn [app].
  replace (List.length (c :: u ++ rest') - List.length rest')
    with (S (List.length u)) by (simpl; rewrite length_app; lia).
  f_equal. exact (sub_scan_skip m repl u (Some c) rest').
Qed.

(** ** What the three patterns need *)

Lemma email_needs_at prev s m :
  match_here NOFLAGS EMAIL prev s = Some m -> In "@"%char s.
Proof.
  unfold match_here, EMAIL. rewrite exec_cat, exec_wordb.
  destruct (at_boundary prev s); [|discriminate].
  rewrite exec_cat. intros H.
  apply exec_through in H as [u [g1 [p1 [s1 [E K]]]]].
  rewrite exec_cat, exec_lit in K.
  destruct (lit_prefix NOFLAGS (py "@") p1 s1) as [[pv t]|] eqn:L;
    [|discriminate].
  apply lit_prefix_cs_spec in L as [E1 _]. subst.
  apply in_or_app. right. now left.
Qed.

Lemma account_needs_digit prev s m :
  match_here NOFLAGS ACCOUNT prev s = Some m ->
  exists c t, s = c :: t /\ isdecimal c = true.
Proof.
  unfold match_here, ACCOUNT. rewrite exec_cat, exec_wordb.
  destruct (at_boundary prev s); [|discriminate].
  rewrite exec_cat. cbn [times]. rewrite exec_cat. cbn [exec].
  destruct s as [|c t]; [discriminate|].
  destruct (isdecimal c) eqn:D; [|discriminate]. intros _. now exists c, t.
Qed.

Lemma phone_needs_digit prev s m :
  match_here NOFLAGS PHONE prev s = Some m ->
  exists c, In c s /\ isdecimal c = true.
Proof.
  unfold match_here, PHONE. rewrite exec_cat, exec_wordb.
  destruct (at_boundary prev s); [|discriminate].
  rewrite exec_cat. intros H.
  apply exec_through in H as [u [g1 [p1 [s1 [E K]]]]].
  rewrite exec_cat in K. cbn [exec] in K.
  destruct s1 as [|c t]; [discriminate|].
  destruct (isdecimal c) eqn:D; [|discriminate].
  exists c. split; [|exact D]. subst. apply in_or_app. right. now left.
Qed.

Lemma sub_email_without_at s :
  no_at s -> sub (compiled NOFLAGS EMAIL) (py "[EMAIL]") s = s.
Proof.
  intros H. apply sub_no_match. intros a b E.
  destruct (compiled NOFLAGS EMAIL (last_or None a) b) eqn:M; [|reflexivity].
  exfalso. apply email_needs_at in M. apply H. subst.
  apply in_or_app. now right.
Qed.

Lemma sub_account_without_digit s :
  no_digit s -> sub (compiled NOFLAGS ACCOUNT) (py "[ACCT]") s = s.
Proof.
  intros H. apply sub_no_match. intros a b E.
  destruct (compiled NOFLAGS ACCOUNT (last_or None a) b) eqn:M; [|reflexivity].
  exfalso. apply account_needs_digit in M as [c [t [Eb D]]].
  rewrite (H c) in D; [discriminate|]. subst. apply in_or_app. right. now left.
Qed.

Lemma sub_phone_without_digit s :
  no_digit s -> sub (compiled NOFLAGS PHONE) (py "[PHONE]") s = s.
Proof.
  intros H. apply sub_no_match. intros a b E.
  destruct (compiled NOFLAGS PHONE (last_or None a) b) eqn:M; [|reflexivity].
  exfalso. apply phone_needs_digit in M as [c [I D]].
  rewrite (H c) in D; [discriminate|]. subst. apply in_or_app. now right.
Qed.

Lemma no_digit_app a b : no_digit (a ++ b) <-> no_digit a /\ no_digit b.
Proof.
  unfold no_digit. split.
  - intros H. split; intros c I; apply H; apply in_or_app; auto.
  - intros [Ha Hb] c I. apply in_app_or in I as [I|I]; auto.
Qed.

Lemma no_at_app a b : no_at (a ++ b) <-> no_at a /\ no_at b.
Proof.
  unfold no_at. split.
  - intros H. split; intros I; apply H; apply in_or_app; auto.
  - intros [Ha Hb] I. apply in_app_or in I as [I|I]; auto.
Qed.

(** X6. Text without an at sign and without a digit passes through the
    privacy filter unchanged. *)
Theorem redact_leaves_plain_text (text : str) :
  no_at text -> no_digit text -> redact text = text.
Proof.
  intros A D. unfold redact.
  rewrite (sub_email_without_at text A).
  rewrite (sub_account_without_digit text D).
  now apply sub_phone_without_digit.
Qed.

Lemma redact_leaves_plain_text_witness :
  redact (py "Summarize Basel III in two bullet points.")
  = py "Summarize Basel III in two bullet points.".
Proof.
  apply redact_leaves_plain_text.
  - intros H. vm_compute in H.
    repeat (destruct H as [H|H]; [discriminate H|]). exact H.
  - intros c H. vm_compute in H.
    repeat (destruct H as [<-|H]; [reflexivity|]). destruct H.
Defined.

(** ** Account numbers *)

Lemma exec_times ic p n r : forall u g prev s k,
  List.length u = n -> forallb p u = true ->
  exec ic (times p n r) g prev (u ++ s) k = exec ic r g (last_or prev u) s k.
Proof.
  induction n as [|n IH]; intros u g prev s k L F.
  - destruct u; [reflexivity|discriminate].
  - destruct u as [|c u]; [discriminate|]. simpl in F.
    apply andb_true_iff in F as [Pc F]. cbn [times app]. rewrite exec_cat.
    cbn [exec]. rewrite Pc.
    apply (IH u g (Some c) s k); [now injection L|exact F].
Qed.

Lemma exec_upto_greedy ic p m : forall u g prev s k r,
  List.length u <= m -> forallb p u = true -> stops p s ->
  k g (last_or prev u) s = Some r ->
  exec ic (upto p m) g prev (u ++ s) k = Some r.
Proof.
  induction m as [|m IH]; intros u g prev s k r L F S K.
  - destruct u; [|simpl in L; lia]. exact K.
  - cbn [upto exec]. destruct u as [|c u].
    + cbn [app]. destruct s as [|c s]; [exact K|].
      simpl in S. rewrite S. exact K.
    + simpl in F. apply andb_true_iff in F as [Pc F]. cbn [app]. rewrite Pc.
      rewrite (IH u g (Some c) s k r); auto. simpl in L. lia.
Qed.

Lemma digits_word_hd ds t :
  ds <> [] -> forallb isdecimal ds = true -> wordp (hd_error (ds ++ t)) = true.
Proof.
  destruct ds as [|c ds]; [congruence|]. simpl. intros _ F.
  apply andb_true_iff in F as [F _]. now apply decimal_word.
Qed.

Lemma digits_word_last prev ds :
  ds <> [] -> forallb isdecimal ds = true -> wordp (last_or prev ds) = true.
Proof.
  intros N F. destruct (last_or_forall isdecimal prev ds N F) as [c [E D]].
  rewrite E. simpl. now apply decimal_word.
Qed.

Lemma non_word_stops_digits post :
  wordp (hd_error post) = false -> stops isdecimal post.
Proof.
  destruct post as [|c t]; simpl; [trivial|]. intros W.
  destruct (isdecimal c) eqn:D; [|reflexivity].
  rewrite (decimal_word c D) in W. discriminate.
Qed.

(** A run of 10 to 16 digits between two non-word neighbours is one match of
    the account pattern. *)
Lemma account_match prev ds post :
  wordp prev = false -> forallb isdecimal ds = true ->
  10 <= List.length ds <= 16 -> wordp (hd_error post) = false ->
  match_here NOFLAGS ACCOUNT prev (ds ++ post)
  = Some (MState [] (last_or prev ds) post).
Proof.
  intros Wl F [L1 L2] Wr.
  assert (N : ds <> []) by (destruct ds; [simpl in L1; lia|discriminate]).
  unfold match_here, ACCOUNT. rewrite exec_cat, exec_wordb.
  unfold at_boundary. rewrite (digits_word_hd ds post N F), Wl. cbn [xorb].
  rewrite exec_cat.
  rewrite <- (firstn_skipn 10 ds) at 1. rewrite <- app_assoc.
  assert (F1 : forallb isdecimal (firstn 10 ds) = true /\
               forallb isdecimal (skipn 10 ds) = true).
  { rewrite <- (firstn_skipn 10 ds), forallb_app in F.
    now apply andb_true_iff in F. }
  destruct F1 as [F1 F2].
  rewrite exec_times; [|rewrite length_firstn; lia|exact F1].
  apply exec_upto_greedy.
  - rewrite length_skipn. lia.
  - exact F2.
  - now apply non_word_stops_digits.
  - rewrite exec_wordb. unfold at_boundary.
    rewrite <- last_or_app, (firstn_skipn 10 ds).
    rewrite (digits_word_last prev ds N F), Wr. reflexivity.
Qed.

Lemma no_account_in_plain prev pre rest :
  no_digit pre ->
  forall a b, pre = a ++ b -> b <> [] ->
    compiled NOFLAGS ACCOUNT (last_or prev a) (b ++ rest) = None.
Proof.
  intros D a b E N.
  destruct (compiled NOFLAGS ACCOUNT (last_or prev a) (b ++ rest)) eqn:M;
    [|reflexivity].
  exfalso. apply account_needs_digit in M as [c [t [Eb Dc]]].
  destruct b as [|c' b]; [congruence|]. simpl in Eb. injection Eb as -> _.
  rewrite (D c) in Dc; [discriminate|]. subst. apply in_or_app. right. now left.
Qed.

(** X7. A run of 10 to 16 digits that stands between non-word neighbours,
    in a text that has no other digit and no at sign, is replaced by [ACCT];
    the rest of the text is kept. *)
Theorem redact_masks_account_number (pre ds post : str) :
  no_at pre -> no_at post -> no_digit pre -> no_digit post ->
  forallb isdecimal ds = true -> 10 <= List.length ds <= 16 ->
  wordp (last_or None pre) = false -> wordp (hd_error post) = false ->
  redact (pre ++ ds ++ post) = pre ++ py "[ACCT]" ++ post.
Proof.
  intros A1 A2 D1 D2 F L Wl Wr.
  assert (N : ds <> []) by (destruct ds; [simpl in L; lia|discriminate]).
  assert (Ads : no_at ds).
  { intros I. rewrite forallb_forall in F. apply F in I. discriminate. }
  unfold redact.
  rewrite sub_email_without_at by (apply no_at_app; split; [exact A1|];
                                   apply no_at_app; now split).
  assert (S : sub (compiled NOFLAGS ACCOUNT) (py "[ACCT]") (pre ++ ds ++ post)
              = pre ++ py "[ACCT]" ++ post).
  { unfold sub.
    rewrite sub_scan_copy by (now apply no_account_in_plain).
    f_equal.
    rewrite (sub_scan_replace _ _ _ ds post
               (MState [] (last_or (last_or None pre) ds) post));
      [|now apply account_match|reflexivity|exact N].
    f_equal.
    rewrite <- (app_nil_r post) at 1.
    rewrite sub_scan_copy by (now apply no_account_in_plain).
    rewrite sub_scan_unfold.
    destruct (compiled NOFLAGS ACCOUNT _ []) eqn:M; [|apply app_nil_r].
    apply account_needs_digit in M as [c [t [E _]]]. discriminate E. }
  rewrite S. apply sub_phone_without_digit.
  apply no_digit_app. split; [exact D1|]. apply no_digit_app. split; [|exact D2].
  intros c I. vm_compute in I.
  repeat (destruct I as [<-|I]; [reflexivity|]). destruct I.
Qed.

Lemma redact_masks_account_number_witness :
  redact (py "Wire to account 123456789012 today")
  = py "Wire to account [ACCT] today".
Proof.
  apply (redact_masks_account_number (py "Wire to account ")
           (py "123456789012") (py " today")).
  - intros H. vm_compute in H.
    repeat (destruct H as [H|H]; [discriminate H|]). exact H.
  - intros H. vm_compute in H.
    repeat (destruct H as [H|H]; [discriminate H|]). exact H.
  - intros c H. vm_compute in H.
    repeat (destruct H as [<-|H]; [reflexivity|]). destruct H.
  - intros c H. vm_compute in H.
    repeat (destruct H as [<-|H]; [reflexivity|]). destruct H.
  - reflexivity.
  - simpl. lia.
  - reflexivity.
  - reflexivity.
Defined.

(** ** E-mail addresses *)

Lemma star_loop_fail p k prev s :
  (forall x y, s = x ++ y -> forallb p x = true ->
               k (last_or prev x) y = None) ->
  star_loop p k prev s = None.
Proof.
  revert prev. induction s as [|c s IH]; intros prev H; simpl.
  - now apply (H [] []).
  - assert (K0 : k prev (c :: s) = None) by now apply (H [] (c :: s)).
    destruct (p c) eqn:Pc; [|exact K0].
    rewrite IH; [exact K0|]. intros x y E F.
    apply (H (c :: x) y); [now rewrite E|]. simpl. now rewrite Pc.
Qed.

(** Backtracking stops at the longest run after which the rest matches. *)
Lemma star_loop_deepest p k prev u v m :
  forallb p u = true ->
  (forall x y, v = x ++ y -> x <> [] -> forallb p x = true ->
               k (last_or (last_or prev u) x) y = None) ->
  k (last_or prev u) v = Some m ->
  star_loop p k prev (u ++ v) = Some m.
Proof.
  revert prev. induction u as [|a u IH]; intros prev F H K.
  - cbn [app]. simpl in H, K. destruct v as [|c v]; [exact K|].
    simpl. destruct (p c) eqn:Pc; [|exact K].
    rewrite star_loop_fail; [exact K|]. intros x y E Fx.
    apply (H (c :: x) y); [now rewrite E|discriminate|].
    simpl. now rewrite Pc.
  - simpl in F. apply andb_true_iff in F as [Pa F]. cbn [app]. simpl.
    rewrite Pa. now rewrite (IH (Some a) F H K).
Qed.

Lemma exec_plus_deepest ic p g prev u v k m :
  u <> [] -> forallb p u = true ->
  (forall x y, v = x ++ y -> x <> [] -> forallb p x = true ->
               k g (last_or (last_or prev u) x) y = None) ->
  k g (last_or prev u) v = Some m ->
  exec ic (Plus p) g prev (u ++ v) k = Some m.
Proof.
  intros N F H K. destruct u as [|c u]; [congruence|].
  simpl in F. apply andb_true_iff in F as [Pc F]. cbn [exec app].
  rewrite Pc. now apply star_loop_deepest.
Qed.

Lemma first_at_unique (a1 r1 a2 r2 : str) :
  a1 ++ "@"%char :: r1 = a2 ++ "@"%char :: r2 ->
  no_at a1 -> no_at a2 -> a1 = a2.
Proof.
  revert a2. induction a1 as [|x a1 IH]; intros [|y a2] E N1 N2; simpl in E.
  - reflexivity.
  - injection E as <- _. exfalso. apply N2. now left.
  - injection E as -> _. exfalso. apply N1. now left.
  - injection E as -> E. f_equal. apply (IH a2 E).
    + intros I. apply N1. now right.
    + intros I. apply N2. now right.
Qed.

Lemma local_no_at u : forallb email_local u = true -> no_at u.
Proof.
  intros F I. rewrite forallb_forall in F. apply F in I. discriminate.
Qed.

Lemma email_match_inv prev s m :
  match_here NOFLAGS EMAIL prev s = Some m ->
  exists u rest,
    u <> [] /\ forallb email_local u = true /\ s = u ++ "@"%char :: rest.
Proof.
  unfold match_here, EMAIL. rewrite exec_cat, exec_wordb.
  destruct (at_boundary prev s); [|discriminate].
  rewrite exec_cat. intros H.
  apply exec_plus_inv in H as [u [s1 [E [N [F K]]]]].
  rewrite exec_cat, exec_lit in K.
  destruct (lit_prefix NOFLAGS (py "@") (last_or prev u) s1)
    as [[pv t]|] eqn:L; [|discriminate].
  apply lit_prefix_cs_spec in L as [E1 _]. exists u, t. subst. now repeat split.
Qed.

Lemma lit_dot_none pv c s :
  c <> "."%char -> lit_prefix NOFLAGS (py ".") pv (c :: s) = None.
Proof.
  intros N. destruct (lit_prefix NOFLAGS (py ".") pv (c :: s)) as [[p1 s1]|] eqn:L;
    [|reflexivity].
  apply lit_prefix_cs_spec in L as [E _]. injection E as E _. congruence.
Qed.

Lemma letter_not_dot_start t post :
  forallb is_ascii_letter t = true -> email_domainp (hd_error post) = false ->
  forall pv, lit_prefix NOFLAGS (py ".") pv (t ++ post) = None.
Proof.
  intros F D pv. destruct t as [|c t]; cbn [app].
  - destruct post as [|c post]; [reflexivity|]. apply lit_dot_none.
    intros ->. discriminate D.
  - apply lit_dot_none. intros ->. discriminate F.
Qed.

Lemma letter_domain c : is_ascii_letter c = true -> email_domain c = true.
Proof. each_char c. Qed.

Lemma non_word_stops_letters post :
  wordp (hd_error post) = false -> stops is_ascii_letter post.
Proof.
  destruct post as [|c t]; simpl; [trivial|]. intros W.
  destruct (is_ascii_letter c) eqn:D; [|reflexivity].
  rewrite (letter_word c D) in W. discriminate.
Qed.

(** An address [l@d.t] whose top-level part [t] is two letters or more, in
    front of a character that can neither continue the domain nor a word, is
    one match of the e-mail pattern. *)
Lemma email_match prev l d t post :
  wordp prev = false ->
  l <> [] -> forallb email_local l = true -> wordp (hd_error l) = true ->
  d <> [] -> forallb email_domain d = true ->
  forallb is_ascii_letter t = true -> 2 <= List.length t ->
  wordp (hd_error post) = false -> email_domainp (hd_error post) = false ->
  match_here NOFLAGS EMAIL prev (l ++ py "@" ++ d ++ py "." ++ t ++ post)
  = Some (MState [] (last_or (Some "."%char) t) post).
Proof.
  intros Wl Nl Fl Hl Nd Fd Ft Lt Wr Dr.
  assert (Nt : t <> []) by (destruct t; [simpl in Lt; lia|discriminate]).
  unfold match_here, EMAIL. rewrite exec_cat, exec_wordb.
  assert (B : at_boundary prev (l ++ py "@" ++ d ++ py "." ++ t ++ post) = true).
  { unfold at_boundary. destruct l as [|c l]; [congruence|].
    simpl in Hl. simpl. now rewrite Wl, Hl. }
  rewrite B, exec_cat.
  apply exec_plus_greedy; [exact Nl|exact Fl|reflexivity|].
  rewrite exec_cat, exec_lit.
  change (lit_prefix NOFLAGS (py "@") (last_or prev l)
            (py "@" ++ d ++ py "." ++ t ++ post))
    with (Some (Some "@"%char, d ++ py "." ++ t ++ post)).
  cbv iota beta. rewrite exec_cat.
  apply exec_plus_deepest; [exact Nd|exact Fd| |].
  - (* no longer run of domain characters is followed by the dot *)
    intros x y E Nx Fx. rewrite exec_cat, exec_lit.
    assert (Y : exists t2, forallb is_ascii_letter t2 = true /\ y = t2 ++ post).
    { destruct x as [|c x]; [congruence|]. cbn [app] in E.
      injection E as _ E. symmetry in E.
      apply app_eq_app in E as [z [[E1 E2]|[E1 E2]]].
      - destruct z as [|c' z].
        + exists []. rewrite app_nil_r in E1. simpl in E2. now split.
        + exfalso. rewrite E2 in Dr. cbn [forallb] in Fx.
          apply andb_true_iff in Fx as [_ Fx]. rewrite E1, forallb_app in Fx.
          apply andb_true_iff in Fx as [_ Fx]. cbn [forallb] in Fx.
          apply andb_true_iff in Fx as [Fx _]. simpl in Dr. congruence.
      - exists z. split; [|exact E2].
        rewrite E1, forallb_app in Ft. now apply andb_true_iff in Ft as [_ Ft]. }
    destruct Y as [t2 [F2 ->]].
    now rewrite (letter_not_dot_start t2 post F2 Dr).
  - rewrite exec_cat, exec_lit.
    change (lit_prefix NOFLAGS (py ".") (last_or (Some "@"%char) d)
              (py "." ++ t ++ post))
      with (Some (Some "."%char, t ++ post)).
    cbv iota beta. rewrite exec_cat.
    rewrite <- (firstn_skipn 2 t) at 1. rewrite <- app_assoc.
    assert (F1 : forallb is_ascii_letter (firstn 2 t) = true /\
                 forallb is_ascii_letter (skipn 2 t) = true).
    { rewrite <- (firstn_skipn 2 t), forallb_app in Ft.
      now apply andb_true_iff in Ft. }
    destruct F1 as [F1 F2].
    rewrite exec_times; [|rewrite length_firstn; lia|exact F1].
    cbn [exec]. apply star_loop_greedy.
    + exact F2.
    + now apply non_word_stops_letters.
    + unfold at_boundary.
      rewrite <- last_or_app, (firstn_skipn 2 t).
      rewrite (letters_last (Some "."%char) t Nt Ft), Wr. reflexivity.
Qed.

(** X8. An e-mail address [l@d.t] is replaced by [EMAIL] when it stands in a
    text without other at signs and without digits, after a character that
    can neither continue a local part nor a word, and before a character
    that can neither continue the domain nor a word. *)
Theorem redact_masks_email (pre l d t post : str) :
  no_at pre -> no_at post -> no_digit pre -> no_digit post ->
  wordp (last_or None pre) = false -> email_localp (last_or None pre) = false ->
  l <> [] -> forallb email_local l = true -> wordp (hd_error l) = true ->
  d <> [] -> forallb email_domain d = true ->
  forallb is_ascii_letter t = true -> 2 <= List.length t ->
  wordp (hd_error post) = false -> email_domainp (hd_error post) = false ->
  redact (pre ++ l ++ py "@" ++ d ++ py "." ++ t ++ post)
  = pre ++ py "[EMAIL]" ++ post.
Proof.
  intros A1 A2 D1 D2 Wl Ll Nl Fl Hl Nd Fd Ft Lt Wr Dr.
  set (addr := l ++ py "@" ++ d ++ py "." ++ t).
  assert (Ea : l ++ py "@" ++ d ++ py "." ++ t ++ post = addr ++ post)
    by (unfold addr; now rewrite <- !app_assoc).
  assert (Na : addr <> []) by (unfold addr; destruct l; [congruence|discriminate]).
  assert (S : sub (compiled NOFLAGS EMAIL) (py "[EMAIL]") (pre ++ addr ++ post)
              = pre ++ py "[EMAIL]" ++ post).
  { unfold sub. rewrite sub_scan_copy.
    - f_equal.
      rewrite (sub_scan_replace _ _ _ addr post
                 (MState [] (last_or (Some "."%char) t) post));
        [|rewrite <- Ea; now apply email_match|reflexivity|exact Na].
      f_equal.
      assert (P : sub (compiled NOFLAGS EMAIL) (py "[EMAIL]") post = post)
        by now apply sub_email_without_at.
      unfold sub in P.
      rewrite <- (app_nil_r post) at 1. rewrite sub_scan_copy.
      + rewrite sub_scan_unfold.
        destruct (compiled NOFLAGS EMAIL _ []) eqn:M; [|apply app_nil_r].
        apply email_needs_at in M. destruct M.
      + intros a b E _. rewrite app_nil_r.
        destruct (compiled NOFLAGS EMAIL _ b) eqn:M; [|reflexivity].
        exfalso. apply email_needs_at in M. apply A2. subst.
        apply in_or_app. now right.
    - (* no match starts in the text before the address *)
      intros a b E Nb.
      destruct (compiled NOFLAGS EMAIL (last_or None a) (b ++ addr ++ post))
        eqn:M; [|reflexivity].
      exfalso. apply email_match_inv in M as [u [rest' [Nu [Fu Eu]]]].
      unfold addr in Eu. rewrite <- !app_assoc in Eu.
      rewrite (app_assoc b l) in Eu.
      assert (X : u = b ++ l).
      { apply (first_at_unique u rest' (b ++ l)
                 (d ++ py "." ++ t ++ post)).
        - symmetry. exact Eu.
        - now apply local_no_at.
        - apply no_at_app. split; [|now apply local_no_at].
          intros I. apply A1. subst pre. apply in_or_app. now right. }
      rewrite X, forallb_app in Fu. apply andb_true_iff in Fu as [Fb _].
      destruct (last_or_forall email_local None b Nb Fb) as [c [Ec Lc]].
      rewrite E, last_or_app, (last_or_nonempty _ b Nb), Ec in Ll.
      simpl in Ll. congruence. }
  unfold redact. rewrite Ea, S.
  assert (D : no_digit (pre ++ py "[EMAIL]" ++ post)).
  { apply no_digit_app. split; [exact D1|]. apply no_digit_app.
    split; [|exact D2]. intros c I. vm_compute in I.
    repeat (destruct I as [<-|I]; [reflexivity|]). destruct I. }
  rewrite (sub_account_without_digit _ D).
  now apply sub_phone_without_digit.
Qed.

Lemma redact_masks_email_witness :
  redact (py "Contact bob.smith42@mail.example.com, please")
  = py "Contact [EMAIL], please".
Proof.
  apply (redact_masks_email (py "Contact ") (py "bob.smith42")
           (py "mail.example") (py "com") (py ", please"));
    try reflexivity; try discriminate; try (simpl; lia);
    try (intros H; vm_compute in H;
         repeat (destruct H as [H|H]; [discriminate H|]); exact H);
    try (intros c H; vm_compute in H;
         repeat (destruct H as [<-|H]; [reflexivity|]); destruct H).
Defined.

(* ================================================================== *)
(** * The text that [llm_sql] returns *)
(* ================================================================== *)

Lemma replace_char_removes c s : ~ In c (replace_char c [] s).
Proof.
  unfold replace_char. intros I. apply in_flat_map in I as [x [_ I]].
  destruct (chr_eqb x c) eqn:E; [destruct I|].
  destruct I as [<-|[]]. rewrite chr_eqb_refl in E. discriminate.
Qed.

Lemma replace_char_absent c s : ~ In c s -> replace_char c [] s = s.
Proof.
  unfold replace_char. induction s as [|x s IH]; intros N; [reflexivity|].
  simpl. destruct (chr_eqb x c) eqn:E.
  - apply chr_eqb_eq in E. subst x. exfalso. apply N. now left.
  - simpl. f_equal. apply IH. intros I. apply N. now right.
Qed.

Lemma drop_while_all (p : ascii -> bool) a b :
  forallb p a = true -> drop_while p (a ++ b) = drop_while p b.
Proof.
  induction a as [|x a IH]; intros F; [reflexivity|].
  simpl in F. apply andb_true_iff in F as [Px F]. simpl. now rewrite Px, IH.
Qed.

Lemma rstrip_by_all (p : ascii -> bool) a b :
  forallb p a = true -> rstrip_by p (b ++ a) = rstrip_by p b.
Proof.
  intros F. unfold rstrip_by. rewrite rev_app_distr, drop_while_all; auto.
  rewrite forallb_forall in *. intros x I. apply F. now apply in_rev.
Qed.

(** Stripping removes exactly the outer white space of a text that begins
    and ends with other characters. *)
Lemma strip_outer lead c mid d trail :
  forallb isspace lead = true -> forallb isspace trail = true ->
  isspace c = false -> isspace d = false ->
  strip (lead ++ (c :: mid ++ [d]) ++ trail) = c :: mid ++ [d].
Proof.
  intros Fl Ft Sc Sd. unfold strip, lstrip_by.
  rewrite (drop_while_all isspace lead _ Fl). cbn [app drop_while].
  rewrite Sc.
  replace (c :: (mid ++ [d]) ++ trail) with ((c :: mid ++ [d]) ++ trail)
    by reflexivity.
  rewrite (rstrip_by_all isspace trail _ Ft).
  change (c :: mid ++ [d]) with ((c :: mid) ++ [d]).
  now apply rstrip_by_snoc_keep.
Qed.

Lemma strip_single c : isspace c = false -> strip [c] = [c].
Proof.
  intros S. unfold strip, lstrip_by. cbn [drop_while]. rewrite S.
  exact (rstrip_by_snoc_keep isspace [] c S).
Qed.

(** A text that begins and ends with characters other than white space is
    its own strip. *)
Lemma strip_fixed s :
  s <> [] ->
  (forall c t, s = c :: t -> isspace c = false) ->
  (forall t d, s = t ++ [d] -> isspace d = false) ->
  strip s = s.
Proof.
  intros N Hh Hl. destruct s as [|c t]; [congruence|].
  destruct (list_eq_dec ascii_dec t []) as [->|Nt].
  - apply strip_single. now apply (Hh c []).
  - destruct (exists_last Nt) as [mid [d Ed]]. subst t.
    pose proof (strip_outer [] c mid d [] eq_refl eq_refl
                  (Hh c _ eq_refl) (Hl (c :: mid) d eq_refl)) as S.
    cbn [app] in S. now rewrite app_nil_r in S.
Qed.

Lemma first_occurrence_unique (c : ascii) (a1 r1 a2 r2 : str) :
  a1 ++ c :: r1 = a2 ++ c :: r2 -> ~ In c a1 -> ~ In c a2 -> a1 = a2.
Proof.
  revert a2. induction a1 as [|x a1 IH]; intros [|y a2] E N1 N2; simpl in E.
  - reflexivity.
  - injection E as <- _. exfalso. apply N2. now left.
  - injection E as -> _. exfalso. apply N1. now left.
  - injection E as -> E. f_equal. apply (IH a2 E).
    + intros I. apply N1. now right.
    + intros I. apply N2. now right.
Qed.

Lemma lower_backtick c : lower_chr c = "`"%char -> c = "`"%char.
Proof. each_char c. Qed.

Lemma space_not_backtick s : forallb isspace s = true -> ~ In "`"%char s.
Proof.
  intros F I. rewrite forallb_forall in F. apply F in I. discriminate.
Qed.

(** The closing alternative needs a backtick after a run of white space. *)
Lemma fence_close_inv prev s m :
  exec IGNORECASE FENCE_CLOSE [] prev s
    (fun g prev' s' => if at_end s' then accept g prev' s' else None) = Some m ->
  exists ws t, forallb isspace ws = true /\ s = ws ++ "`"%char :: t.
Proof.
  unfold FENCE_CLOSE, IGNORECASE. rewrite exec_cat. cbn [exec]. intros H.
  apply star_loop_inv in H as [ws [s' [E [F K]]]].
  destruct (lit_prefix true (py "```") (last_or prev ws) s')
    as [[pv t]|] eqn:L; [|discriminate].
  apply lit_prefix_ic_spec in L as [u [E1 [L _]]].
  destruct u as [|c u]; [discriminate|].
  injection L as L _. apply lower_backtick in L. subst.
  now exists ws, (u ++ t).
Qed.

Lemma fence_open_needs_start c s :
  exec IGNORECASE FENCE_OPEN [] (Some c) s accept = None.
Proof. reflexivity. Qed.

Lemma fence_none_in_body c a b tail :
  forallb isspace tail = true ->
  b <> [] -> ~ In "`"%char b ->
  (forall t d, b = t ++ [d] -> isspace d = false) ->
  FENCE (last_or (Some c) a) (b ++ tail ++ py "```") = None.
Proof.
  intros Ft Nb Bb Hl. unfold FENCE.
  assert (P : exists x, last_or (Some c) a = Some x).
  { revert c. induction a as [|y a IH]; intros c; simpl; eauto. }
  destruct P as [x ->]. rewrite fence_open_needs_start.
  destruct (exec IGNORECASE FENCE_CLOSE [] (Some x) (b ++ tail ++ py "```") _)
    eqn:M; [|reflexivity].
  exfalso. apply fence_close_inv in M as [ws [t [F E]]].
  assert (X : ws = b ++ tail).
  { apply (first_occurrence_unique "`"%char ws t (b ++ tail) (py "``")).
    - rewrite <- E. now rewrite <- app_assoc.
    - now apply space_not_backtick.
    - intros I. apply in_app_or in I as [I|I]; [now apply Bb|].
      now apply (space_not_backtick tail Ft). }
  rewrite X, forallb_app in F. apply andb_true_iff in F as [F _].
  destruct (exists_last Nb) as [t0 [d Ed]].
  rewrite Ed, forallb_app in F. apply andb_true_iff in F as [_ F].
  simpl in F. rewrite (Hl t0 d Ed) in F. discriminate.
Qed.

Lemma fence_open_match lang nl rest' :
  lower lang = py "sql" \/ lang = [] ->
  nl <> [] -> forallb isspace nl = true -> stops isspace rest' ->
  FENCE None (py "```" ++ lang ++ nl ++ rest')
  = Some (MState [] (last_or None (py "```" ++ lang ++ nl)) rest').
Proof.
  intros Hl Nn Fn S. unfold FENCE.
  assert (O : exec IGNORECASE FENCE_OPEN [] None
                (py "```" ++ lang ++ nl ++ rest') accept
              = Some (MState [] (last_or None (py "```" ++ lang ++ nl)) rest')).
  { unfold FENCE_OPEN, IGNORECASE. rewrite exec_cat. cbn [exec].
    change (lit_prefix true (py "```") None (py "```" ++ lang ++ nl ++ rest'))
      with (lit_prefix true [] (Some "`"%char) (lang ++ nl ++ rest')).
    cbn [lit_prefix]. unfold optional. cbn [exec].
    destruct Hl as [Hl| ->].
    - assert (P : lit_prefix true (py "sql") (Some "`"%char) (lang ++ nl ++ rest')
                  = Some (last_or (Some "`"%char) lang, nl ++ rest'))
        by (apply lit_prefix_ic_spec; exists lang; now repeat split).
      rewrite P.
      rewrite (star_loop_greedy isspace _ _ nl rest'
                 (MState [] (last_or None (py "```" ++ lang ++ nl)) rest')
                 Fn S); [reflexivity|].
      unfold accept. f_equal. f_equal. rewrite !last_or_app. reflexivity.
    - cbn [app].
      assert (P : lit_prefix true (py "sql") (Some "`"%char) (nl ++ rest') = None).
      { destruct (lit_prefix true (py "sql") (Some "`"%char) (nl ++ rest'))
          as [[pv t]|] eqn:L; [|reflexivity].
        exfalso. apply lit_prefix_ic_spec in L as [u [E [L _]]].
        destruct u as [|c u]; [discriminate|].
        destruct nl as [|c' nl]; [congruence|].
        cbn [app] in E. injection E as -> _.
        injection L as L _. simpl in Fn. apply andb_true_iff in Fn as [Fc _].
        assert (Lc : is_ascii_letter c = true)
          by (apply (same_case_letter "S"%char c); [exact L|reflexivity]).
        rewrite (letter_not_space c Lc) in Fc. discriminate. }
      rewrite P. cbn [lit_prefix].
      apply star_loop_greedy; auto. }
  now rewrite O.
Qed.

Lemma fence_close_match c nl' :
  forallb isspace nl' = true ->
  FENCE (Some c) (nl' ++ py "```")
  = Some (MState [] (Some "`"%char) []).
Proof.
  intros F. unfold FENCE. rewrite fence_open_needs_start.
  unfold FENCE_CLOSE, IGNORECASE. rewrite exec_cat. cbn [exec].
  now apply star_loop_greedy.
Qed.

Lemma fence_none_at_end c : FENCE (Some c) [] = None.
Proof. reflexivity. Qed.

Lemma last_or_some_nonempty prev u :
  u <> [] -> exists x, last_or prev u = Some x.
Proof.
  revert prev. induction u as [|c u IH]; intros prev N; [congruence|].
  destruct u as [|d u]; [now exists c|]. apply (IH (Some c)). discriminate.
Qed.

(** X9. The text that [llm_sql] returns never contains a backtick; and when
    the reply of the model is a fenced block (an opening fence with or
    without the tag sql in any case, white space, a body without backticks,
    optional white space, a closing fence, with any white space around the
    block), the text returned is exactly the body. *)
Theorem llm_sql_text_unfences :
  (forall content, ~ In "`"%char (llm_sql_text content)) /\
  (forall lead lang nl body nl' trail,
      forallb isspace lead = true -> forallb isspace trail = true ->
      lower lang = py "sql" \/ lang = [] ->
      nl <> [] -> forallb isspace nl = true -> forallb isspace nl' = true ->
      body <> [] -> ~ In "`"%char body ->
      (forall c t, body = c :: t -> isspace c = false) ->
      (forall t d, body = t ++ [d] -> isspace d = false) ->
      llm_sql_text
        (lead ++ (py "```" ++ lang ++ nl ++ body ++ nl' ++ py "```") ++ trail)
      = body).
Proof.
  split; [intros content; apply replace_char_removes|].
  intros lead lang nl body nl' trail Fl Ft Hl Nn Fn Fn' Nb Bb Hh Hla.
  unfold llm_sql_text.
  assert (S1 : strip (lead ++ (py "```" ++ lang ++ nl ++ body ++ nl' ++ py "```")
                        ++ trail)
               = py "```" ++ lang ++ nl ++ body ++ nl' ++ py "```").
  { replace (py "```" ++ lang ++ nl ++ body ++ nl' ++ py "```")
      with ("`"%char :: (py "``" ++ lang ++ nl ++ body ++ nl' ++ py "``") ++ ["`"%char])
      by (cbn [py list_ascii_of_string app]; now rewrite <- !app_assoc).
    now apply strip_outer. }
  rewrite S1.
  assert (Sb : stops isspace (body ++ nl' ++ py "```")).
  { destruct body as [|c t]; [congruence|]. simpl. now apply (Hh c t). }
  assert (S2 : sub FENCE [] (py "```" ++ lang ++ nl ++ body ++ nl' ++ py "```")
               = body).
  { unfold sub.
    replace (py "```" ++ lang ++ nl ++ body ++ nl' ++ py "```")
      with ((py "```" ++ lang ++ nl) ++ body ++ nl' ++ py "```")
      by now rewrite <- !app_assoc.
    rewrite (sub_scan_replace FENCE [] None (py "```" ++ lang ++ nl)
               (body ++ nl' ++ py "```")
               (MState [] (last_or None (py "```" ++ lang ++ nl))
                  (body ++ nl' ++ py "```")));
      [|rewrite <- !app_assoc; now apply fence_open_match
       |reflexivity|discriminate].
    cbn [app].
    destruct (last_or_some_nonempty None (py "```" ++ lang ++ nl))
      as [x Ex]; [discriminate|]. rewrite Ex.
    rewrite sub_scan_copy.
    - destruct (last_or_some_nonempty (Some x) body Nb) as [y Ey]. rewrite Ey.
      replace (nl' ++ py "```") with ((nl' ++ py "```") ++ [])
        by apply app_nil_r.
      rewrite (sub_scan_replace FENCE [] (Some y) (nl' ++ py "```") []
                 (MState [] (Some "`"%char) []));
        [|rewrite app_nil_r; now apply fence_close_match|reflexivity
         |destruct nl'; discriminate].
      cbn [app]. rewrite sub_scan_unfold.
      destruct (last_or_some_nonempty (Some y) (nl' ++ py "```")) as [z Ez];
        [destruct nl'; discriminate|].
      rewrite Ez, fence_none_at_end. apply app_nil_r.
    - intros a b E N. apply fence_none_in_body; auto.
      + intros I. apply Bb. rewrite E. apply in_or_app. now right.
      + intros t d Ed. apply (Hla (a ++ t) d). rewrite E, Ed.
        now rewrite app_assoc. }
  rewrite S2, (strip_fixed body Nb Hh Hla).
  now apply replace_char_absent.
Qed.

Lemma llm_sql_text_unfences_witness :
  llm_sql_text
    ((py " " ++ carriage_return)
     ++ (py "```" ++ py "SQL" ++ newline ++ py "SELECT id FROM transactions"
         ++ newline ++ py "```")
     ++ newline)
  = py "SELECT id FROM transactions".
Proof.
  apply (proj2 llm_sql_text_unfences (py " " ++ carriage_return) (py "SQL")
           newline (py "SELECT id FROM transactions") newline newline);
    try reflexivity; try discriminate.
  - now left.
  - intros H. vm_compute in H.
    repeat (destruct H as [H|H]; [discriminate H|]). exact H.
  - intros c t E. injection E as <- _. reflexivity.
  - intros t d E.
    assert (L : last_or None (t ++ [d]) = Some "s"%char) by now rewrite <- E.
    rewrite last_or_app in L. simpl in L. injection L as ->. reflexivity.
Defined.

(* ================================================================== *)
(** * Rag/Ingest.py: chunks of words *)
(* ================================================================== *)

(** ** Splitting and joining *)

Lemma pyword_rev cur :
  cur <> [] -> forallb nospace cur = true -> pyword (rev cur).
Proof.
  intros N F. split.
  - intros E. apply (f_equal (@rev ascii)) in E.
    rewrite rev_involutive in E. now apply N.
  - rewrite forallb_forall in *. intros x I. apply F. now apply in_rev.
Qed.

Lemma split_from_words cur s :
  forallb nospace cur = true -> Forall pyword (split_from cur s).
Proof.
  revert cur. induction s as [|c t IH]; intros cur F; simpl.
  - destruct cur as [|x cur]; constructor; [|constructor].
    now apply pyword_rev.
  - destruct (isspace c) eqn:Sc.
    + destruct cur as [|x cur]; [now apply IH|].
      constructor; [now apply pyword_rev|now apply IH].
    + apply IH. simpl. unfold nospace at 1. now rewrite Sc.
Qed.

Lemma split_words s : Forall pyword (split s).
Proof. now apply split_from_words. Qed.

Lemma split_from_word w cur rest :
  forallb nospace w = true ->
  split_from cur (w ++ rest) = split_from (rev w ++ cur) rest.
Proof.
  revert cur. induction w as [|c w IH]; intros cur F; [reflexivity|].
  simpl in F. apply andb_true_iff in F as [Sc F].
  unfold nospace in Sc. apply negb_true_iff in Sc.
  cbn [app split_from]. rewrite Sc, (IH (c :: cur) F).
  cbn [rev]. now rewrite <- app_assoc.
Qed.

Lemma split_from_joined cur t :
  Forall pyword t -> cur <> [] ->
  split_from cur (flat_map (fun x => py " " ++ x) t) = rev cur :: t.
Proof.
  revert cur. induction t as [|x t IH]; intros cur F N.
  - destruct cur; [congruence|reflexivity].
  - inversion F as [|x' t' [Nx Fx] Ft]; subst.
    cbn [flat_map]. rewrite <- app_assoc.
    change (py " " ++ x ++ flat_map (fun x0 => py " " ++ x0) t)
      with (" "%char :: x ++ flat_map (fun x0 => py " " ++ x0) t).
    cbn [split_from]. change (isspace " "%char) with true. cbv iota.
    destruct cur as [|c cur]; [congruence|]. f_equal.
    rewrite (split_from_word x [] _ Fx), app_nil_r, IH; auto.
    + now rewrite rev_involutive.
    + intros E. apply (f_equal (@rev ascii)) in E.
      rewrite rev_involutive in E. now apply Nx.
Qed.

(** Splitting what was joined with single spaces gives the words back. *)
Lemma split_join ws :
  Forall pyword ws -> split (join (py " ") ws) = ws.
Proof.
  intros F. destruct ws as [|w t]; [reflexivity|].
  inversion F as [|w' t' [Nw Fw] Ft]; subst.
  unfold split, join.
  rewrite (split_from_word w [] _ Fw), app_nil_r, split_from_joined; auto.
  - now rewrite rev_involutive.
  - intros E. apply (f_equal (@rev ascii)) in E.
    rewrite rev_involutive in E. now apply Nw.
Qed.

Lemma strip_join_nonempty w t :
  pyword w -> strip (join (py " ") (w :: t)) <> [].
Proof.
  intros [N F]. destruct w as [|c w]; [congruence|].
  simpl in F. apply andb_true_iff in F as [Sc _].
  unfold nospace in Sc. apply negb_true_iff in Sc.
  unfold join. cbn [app]. unfold strip, lstrip_by. cbn [drop_while].
  rewrite Sc.
  pose proof (rstrip_by_app_stop isspace []%list c
                (w ++ flat_map (fun x => py " " ++ x) t) Sc) as R.
  cbn [app] in R. rewrite R. discriminate.
Qed.

(** ** Slices and ranges *)

Lemma slice_window {A : Type} (l : list A) (i size : nat) :
  i < List.length l ->
  slice l (Z.of_nat i) (Z.of_nat i + Z.of_nat size) = firstn size (skipn i l).
Proof.
  intros H. unfold slice, slice_index.
  destruct (Z.ltb_spec (Z.of_nat i) 0); [lia|].
  destruct (Z.ltb_spec (Z.of_nat i + Z.of_nat size) 0); [lia|].
  replace (Z.to_nat (Z.min (Z.of_nat (List.length l)) (Z.of_nat i)))
    with i by lia.
  destruct (Nat.le_gt_cases (i + size) (List.length l)) as [L|G].
  - f_equal. lia.
  - rewrite (firstn_all2 (n := size)) by (rewrite length_skipn; lia).
    apply firstn_all2. rewrite length_skipn. lia.
Qed.

Lemma range_length_nat n step :
  0 < n -> 0 < step ->
  Z.to_nat (range_length 0 (Z.max 1 (Z.of_nat n)) (Z.of_nat step))
  = (n - 1) / step + 1.
Proof.
  intros Hn Hs. unfold range_length.
  destruct (Z.ltb_spec 0 (Z.of_nat step)); [|lia].
  destruct (Z.ltb_spec 0 (Z.max 1 (Z.of_nat n))); [|lia].
  replace (Z.max 1 (Z.of_nat n) - 0 - 1)%Z with (Z.of_nat (n - 1)) by lia.
  rewrite <- Nat2Z.inj_div. lia.
Qed.

Lemma flat_map_map_singletons {A B C : Type} (f : B -> list C) (g : A -> B)
  (h : A -> C) l :
  (forall x, In x l -> f (g x) = [h x]) -> flat_map f (map g l) = map h l.
Proof.
  induction l as [|x l IH]; intros H; [reflexivity|].
  cbn [map flat_map]. rewrite (H x (or_introl eq_refl)), IH; [reflexivity|].
  intros y I. apply H. now right.
Qed.

Lemma index_in_range j n step :
  0 < step -> j < (n - 1) / step + 1 -> 0 < n -> j * step < n.
Proof.
  intros Hs Hj Hn.
  assert (M := Nat.Div0.mul_div_le (n - 1) step). nia.
Qed.

Lemma window_words (size step : nat) ws j :
  Forall pyword ws -> Forall pyword (window size step ws j).
Proof.
  intros F. unfold window. rewrite Forall_forall in *. intros x I.
  apply F. rewrite <- (firstn_skipn (j * step) ws). apply in_or_app. right.
  rewrite <- (firstn_skipn size (skipn (j * step) ws)). apply in_or_app.
  now left.
Qed.

Lemma window_length {A : Type} (size step : nat) (ws : list A) j :
  0 < size -> j * step < List.length ws ->
  1 <= List.length (window size step ws j) <= size.
Proof.
  intros Hs Hj. unfold window. rewrite length_firstn, length_skipn. lia.
Qed.

(** ** The chunks, one by one *)

Lemma chunk_text_explicit text size overlap :
  overlap < size ->
  chunk_text text (Z.of_nat size) (Z.of_nat overlap)
  = Returned
      (map (fun j => join (py " ") (window size (size - overlap) (split text) j))
         (seq 0 (chunk_count (List.length (split text)) (size - overlap)))).
Proof.
  intros H. unfold chunk_text, range.
  replace (Z.of_nat size - Z.of_nat overlap)%Z
    with (Z.of_nat (size - overlap)) by lia.
  assert (Hs : 0 < size - overlap) by lia.
  destruct (Z.eqb_spec (Z.of_nat (size - overlap)) 0); [lia|].
  f_equal. unfold chunk_count.
  destruct (Nat.eqb_spec (List.length (split text)) 0) as [E|N].
  - apply length_zero_iff_nil in E. rewrite E. cbn [List.length].
    replace (Z.to_nat (range_length 0 (Z.max 1 (Z.of_nat 0))
                         (Z.of_nat (size - overlap)))) with 1.
    + cbn [seq map flat_map]. unfold slice. rewrite skipn_nil, firstn_nil.
      reflexivity.
    + unfold range_length.
      destruct (Z.ltb_spec 0 (Z.of_nat (size - overlap))); [|lia].
      change (Z.max 1 (Z.of_nat 0)) with 1%Z. change (0 <? 1)%Z with true.
      change (1 - 0 - 1)%Z with 0%Z. cbv iota.
      rewrite Z.div_0_l by lia. reflexivity.
  - rewrite range_length_nat by lia.
    apply flat_map_map_singletons. intros j I. apply in_seq in I.
    assert (J : j * (size - overlap) < List.length (split text))
      by (apply index_in_range; lia).
    replace (0 + Z.of_nat j * Z.of_nat (size - overlap))%Z
      with (Z.of_nat (j * (size - overlap))) by lia.
    rewrite slice_window by exact J.
    change (firstn size (skipn (j * (size - overlap)) (split text)))
      with (window size (size - overlap) (split text) j).
    pose proof (window_words size (size - overlap) (split text) j
                  (split_words text)) as F.
    pose proof (window_length size (size - overlap) (split text) j
                  ltac:(lia) J) as L.
    destruct (window size (size - overlap) (split text) j) as [|w t] eqn:Ew;
      [cbn in L; lia|].
    inversion F as [|w' t' Pw Ft]; subst.
    pose proof (strip_join_nonempty w t Pw) as S.
    destruct (strip (join (py " ") (w :: t))); [congruence|reflexivity].
Qed.

Lemma nth_error_map_seq {A : Type} (f : nat -> A) k j c :
  nth_error (map f (seq 0 k)) j = Some c -> j < k /\ c = f j.
Proof.
  intros E.
  assert (L : j < k).
  { pose proof (proj1 (nth_error_Some (map f (seq 0 k)) j)) as N.
    rewrite length_map, length_seq in N. apply N. congruence. }
  split; [exact L|].
  rewrite nth_error_map in E.
  rewrite (nth_error_nth' _ 0) in E by (rewrite length_seq; exact L).
  rewrite seq_nth in E by exact L. cbn in E. congruence.
Qed.

Lemma firstn_add_skipn {A : Type} (a b : nat) (l : list A) :
  firstn (a + b) l = firstn a l ++ firstn b (skipn a l).
Proof.
  revert l. induction a as [|a IH]; intros l; [reflexivity|].
  destruct l as [|x l]; [now rewrite skipn_nil, !firstn_nil|].
  cbn [Nat.add firstn skipn app]. now rewrite IH.
Qed.

Lemma concat_strides {A : Type} (step k : nat) (l : list A) :
  List.concat (map (fun j => firstn step (skipn (j * step) l)) (seq 0 k))
  = firstn (k * step) l.
Proof.
  induction k as [|k IH]; [reflexivity|].
  rewrite seq_S, map_app, concat_app, IH. cbn [map List.concat Nat.add].
  rewrite app_nil_r. replace (S k * step) with (k * step + step) by lia.
  now rewrite firstn_add_skipn.
Qed.

Lemma strides_cover n step :
  0 < step -> n <= chunk_count n step * step.
Proof.
  intros Hs. unfold chunk_count.
  destruct (Nat.eqb_spec n 0) as [->|N]; [lia|].
  pose proof (Nat.mul_succ_div_gt (n - 1) step ltac:(lia)) as G. nia.
Qed.

Lemma skipn_window {A : Type} (size step : nat) (ws : list A) j :
  step <= size ->
  skipn step (window size step ws j)
  = firstn (size - step) (window size step ws (S j)).
Proof.
  intros L. unfold window.
  rewrite skipn_firstn_comm, skipn_skipn, firstn_firstn.
  replace (step + j * step) with (S j * step) by lia.
  now rewrite Nat.min_l by lia.
Qed.

(** ** What [chunk_text] gives *)

(** X10. When the overlap equals the chunk size, [chunk_text] raises for
    every text (the step of its range is zero); when the overlap is larger
    than the chunk size, it returns no chunk at all, whatever the text. *)
Theorem chunk_text_bad_overlap (text : str) (words_per_chunk overlap : Z) :
  (words_per_chunk = overlap ->
   chunk_text text words_per_chunk overlap
   = Raised (py "range() arg 3 must not be zero")) /\
  ((words_per_chunk < overlap)%Z ->
   chunk_text text words_per_chunk overlap = Returned []).
Proof.
  split; intros H; unfold chunk_text, range.
  - subst overlap. now rewrite Z.sub_diag.
  - destruct (Z.eqb_spec (words_per_chunk - overlap) 0); [lia|].
    unfold range_length.
    destruct (Z.ltb_spec 0 (words_per_chunk - overlap)); [lia|].
    destruct (Z.ltb_spec (Z.max 1 (Z.of_nat (List.length (split text)))) 0);
      [lia|].
    reflexivity.
Qed.

Lemma chunk_text_bad_overlap_witness :
  chunk_text (py "net income rose") 2 2
  = Raised (py "range() arg 3 must not be zero") /\
  chunk_text (py "net income rose") 2 3 = Returned [].
Proof.
  split.
  - exact (proj1 (chunk_text_bad_overlap (py "net income rose") 2 2) eq_refl).
  - exact (proj2 (chunk_text_bad_overlap (py "net income rose") 2 3) eq_refl).
Defined.

(** X11. With an overlap smaller than the chunk size, [chunk_text] returns
    one chunk for every multiple of the step that is smaller than the number
    of words, and none for a text without words.  Chunk number [j] is the
    words from number [j * step] on, at most [words_per_chunk] and at least
    one of them, joined by single spaces. *)
Theorem chunk_text_windows (text : str) (size overlap : nat) :
  overlap < size ->
  exists chunks,
    chunk_text text (Z.of_nat size) (Z.of_nat overlap) = Returned chunks /\
    List.length chunks
    = chunk_count (List.length (split text)) (size - overlap) /\
    forall j c,
      nth_error chunks j = Some c ->
      split c = window size (size - overlap) (split text) j /\
      c = join (py " ") (split c) /\
      1 <= List.length (split c) <= size.
Proof.
  intros H. eexists. split; [now apply chunk_text_explicit|].
  split; [now rewrite length_map, length_seq|].
  intros j c E. apply nth_error_map_seq in E as [L ->].
  rewrite split_join by (apply window_words, split_words).
  split; [reflexivity|]. split; [reflexivity|].
  apply window_length; [lia|].
  unfold chunk_count in L.
  destruct (Nat.eqb_spec (List.length (split text)) 0); [lia|].
  apply index_in_range; lia.
Qed.

Lemma chunk_text_windows_witness :
  exists chunks,
    chunk_text (py "a b c d e") 3 1 = Returned chunks /\
    List.length chunks = 3 /\
    forall j c,
      nth_error chunks j = Some c ->
      split c = window 3 2 (split (py "a b c d e")) j /\
      c = join (py " ") (split c) /\
      1 <= List.length (split c) <= 3.
Proof.
  exact (chunk_text_windows (py "a b c d e") 3 1 ltac:(lia)).
Defined.

(** X12. With an overlap smaller than the chunk size no word is lost and the
    order is kept: the first [step] words of every chunk, put one after the
    other, are the words of the text. *)
Theorem chunk_text_keeps_every_word (text : str) (size overlap : nat) :
  overlap < size ->
  exists chunks,
    chunk_text text (Z.of_nat size) (Z.of_nat overlap) = Returned chunks /\
    List.concat (map (fun c => firstn (size - overlap) (split c)) chunks)
    = split text.
Proof.
  intros H. eexists. split; [now apply chunk_text_explicit|].
  rewrite map_map.
  rewrite (map_ext _
             (fun j => firstn (size - overlap)
                         (skipn (j * (size - overlap)) (split text)))).
  - rewrite concat_strides. apply firstn_all2. apply strides_cover. lia.
  - intros j. rewrite split_join by (apply window_words, split_words).
    unfold window. rewrite firstn_firstn. f_equal. lia.
Qed.

Lemma chunk_text_keeps_every_word_witness :
  exists chunks,
    chunk_text (py "a b c d e") 3 1 = Returned chunks /\
    List.concat (map (fun c => firstn 2 (split c)) chunks)
    = [py "a"; py "b"; py "c"; py "d"; py "e"].
Proof.
  exact (chunk_text_keeps_every_word (py "a b c d e") 3 1 ltac:(lia)).
Defined.

(** X13. Two chunks that follow each other share the overlap: what a chunk
    holds after its first [step] words is the first [overlap] words of the
    next chunk. *)
Theorem chunk_text_overlap (text : str) (size overlap : nat) chunks j c c' :
  overlap < size ->
  chunk_text text (Z.of_nat size) (Z.of_nat overlap) = Returned chunks ->
  nth_error chunks j = Some c ->
  nth_error chunks (S j) = Some c' ->
  skipn (size - overlap) (split c) = firstn overlap (split c').
Proof.
  intros H E Ec Ec'. rewrite chunk_text_explicit in E by exact H.
  injection E as <-.
  apply nth_error_map_seq in Ec as [_ ->].
  apply nth_error_map_seq in Ec' as [_ ->].
  rewrite !split_join by (apply window_words, split_words).
  rewrite skipn_window by lia. f_equal. lia.
Qed.

Lemma chunk_text_overlap_witness :
  skipn 2 (split (py "a b c")) = firstn 1 (split (py "c d e")).
Proof.
  exact (chunk_text_overlap (py "a b c d e") 3 1
           [py "a b c"; py "c d e"; py "e"] 0 (py "a b c") (py "c d e")
           ltac:(lia) eq_refl eq_refl eq_refl).
Defined.

Lemma chunk_words_bound text (size overlap : nat) chunks c :
  overlap < size ->
  chunk_text text (Z.of_nat size) (Z.of_nat overlap) = Returned chunks ->
  In c chunks -> 1 <= List.length (split c) <= size.
Proof.
  intros H E I. rewrite chunk_text_explicit in E by exact H.
  injection E as <-. apply in_map_iff in I as [j [<- I]].
  apply in_seq in I.
  rewrite split_join by (apply window_words, split_words).
  apply window_length; [lia|].
  unfold chunk_count in I.
  destruct (Nat.eqb_spec (List.length (split text)) 0); [lia|].
  apply index_in_range; lia.
Qed.

(** ** Where the entries of the index come from *)

Lemma page_docs_provenance fname k pages d :
  In d (fst (page_docs fname k pages)) ->
  exists p text chunks,
    nth_error pages p = Some (Returned text) /\
    chunk_text text 300 60 = Returned chunks /\
    In (doc_text d) chunks /\
    doc_source d = fname /\
    doc_page d = (k + Z.of_nat p + 1)%Z /\
    forall q, q < p -> exists t, nth_error pages q = Some (Returned t).
Proof.
  revert k. induction pages as [|pg pages IH]; intros k I; [destruct I|].
  assert (Later :
            In d (fst (page_docs fname (k + 1) pages)) ->
            forall text0, pg = Returned text0 ->
            exists p text chunks,
              nth_error (pg :: pages) p = Some (Returned text) /\
              chunk_text text 300 60 = Returned chunks /\
              In (doc_text d) chunks /\
              doc_source d = fname /\
              doc_page d = (k + Z.of_nat p + 1)%Z /\
              forall q, q < p ->
                        exists t, nth_error (pg :: pages) q = Some (Returned t)).
  { intros I' text0 E0.
    destruct (IH (k + 1)%Z I') as [p [text [chunks [N [C [Ic [Sd [Pd Q]]]]]]]].
    exists (S p), text, chunks. repeat split; auto; [lia|].
    intros [|q] Lq; [exists text0; now rewrite E0|].
    apply Q. lia. }
  destruct pg as [[|c t]|e]; cbn [page_docs] in I.
  - now apply (Later I []).
  - destruct (chunk_text (c :: t) 300 60) as [chunks|e] eqn:C; [|destruct I].
    destruct (page_docs fname (k + 1) pages) as [later err] eqn:P.
    cbn [fst] in I. apply in_app_or in I as [I|I].
    + apply in_map_iff in I as [chunk [<- I]].
      exists 0, (c :: t), chunks. cbn [doc_text doc_source doc_page].
      repeat split; auto; [lia|]. intros q Lq. lia.
    + apply (Later I (c :: t) eq_refl).
  - destruct I.
Qed.

(** X14. Every entry that [load_pdfs_to_chunks] returns comes from a file of
    the folder whose name ends in .pdf (in any case) and that could be
    opened; its page number is the 1-based number of a page of that file,
    every page before it was read without an exception, its text is one of
    the chunks of that page for a chunk size of 300 and an overlap of 60, and
    so holds between 1 and 300 words. *)
Theorem load_pdfs_provenance (folder : list FolderEntry) (d : Doc) :
  In d (fst (load_pdfs_to_chunks folder)) ->
  exists pages p text chunks,
    In (doc_source d, Returned pages) folder /\
    endswith (lower (doc_source d)) (py ".pdf") = true /\
    nth_error pages p = Some (Returned text) /\
    doc_page d = (Z.of_nat p + 1)%Z /\
    (forall q, q < p -> exists t, nth_error pages q = Some (Returned t)) /\
    chunk_text text 300 60 = Returned chunks /\
    In (doc_text d) chunks /\
    1 <= List.length (split (doc_text d)) <= 300.
Proof.
  induction folder as [|[fname opened] folder IH]; intros I; [destruct I|].
  assert (Rest :
            In d (fst (load_pdfs_to_chunks folder)) ->
            exists pages p text chunks,
              In (doc_source d, Returned pages) ((fname, opened) :: folder) /\
              endswith (lower (doc_source d)) (py ".pdf") = true /\
              nth_error pages p = Some (Returned text) /\
              doc_page d = (Z.of_nat p + 1)%Z /\
              (forall q, q < p ->
                         exists t, nth_error pages q = Some (Returned t)) /\
              chunk_text text 300 60 = Returned chunks /\
              In (doc_text d) chunks /\
              1 <= List.length (split (doc_text d)) <= 300).
  { intros I'. destruct (IH I') as [pages [p [text [chunks [F R]]]]].
    exists pages, p, text, chunks. split; [now right|exact R]. }
  cbn [load_pdfs_to_chunks] in I.
  destruct (load_pdfs_to_chunks folder) as [docs warnings] eqn:L.
  cbn [fst] in Rest.
  destruct (endswith (lower fname) (py ".pdf")) eqn:E; cbn [negb] in I;
    [|now apply Rest].
  destruct opened as [pages|e]; [|now apply Rest].
  assert (Here :
            In d (fst (page_docs fname 0 pages)) ->
            exists pages0 p text chunks,
              In (doc_source d, Returned pages0)
                ((fname, Returned pages) :: folder) /\
              endswith (lower (doc_source d)) (py ".pdf") = true /\
              nth_error pages0 p = Some (Returned text) /\
              doc_page d = (Z.of_nat p + 1)%Z /\
              (forall q, q < p ->
                         exists t, nth_error pages0 q = Some (Returned t)) /\
              chunk_text text 300 60 = Returned chunks /\
              In (doc_text d) chunks /\
              1 <= List.length (split (doc_text d)) <= 300).
  { intros I'.
    destruct (page_docs_provenance fname 0 pages d I')
      as [p [text [chunks [N [C [Ic [Sd [Pd Q]]]]]]]].
    exists pages, p, text, chunks. rewrite Sd.
    repeat split; auto; try (now left); try lia;
      apply (chunk_words_bound text 300 60 chunks (doc_text d)
               ltac:(lia) C Ic). }
  destruct (page_docs fname 0 pages) as [here [e|]] eqn:P;
    cbn [fst] in I, Here; apply in_app_or in I as [I|I]; auto.
Qed.

Lemma load_pdfs_provenance_witness :
  exists pages p text chunks,
    In (py "Q1.PDF", Returned pages)
      [(py "notes.txt", Returned [Returned (py "x")]);
       (py "Q1.PDF",
        Returned [Returned []; Returned (py "net income rose");
                  Raised (py "bad page")])] /\
    endswith (lower (py "Q1.PDF")) (py ".pdf") = true /\
    nth_error pages p = Some (Returned text) /\
    2%Z = (Z.of_nat p + 1)%Z /\
    (forall q, q < p -> exists t, nth_error pages q = Some (Returned t)) /\
    chunk_text text 300 60 = Returned chunks /\
    In (py "net income rose") chunks /\
    1 <= List.length (split (py "net income rose")) <= 300.
Proof.
  apply (load_pdfs_provenance
           [(py "notes.txt", Returned [Returned (py "x")]);
            (py "Q1.PDF",
             Returned [Returned []; Returned (py "net income rose");
                       Raised (py "bad page")])]
           (MkDoc (py "net income rose") (py "Q1.PDF") 2)).
  vm_compute. now left.
Defined.

(* ================================================================== *)
(** * App.py: the NL-to-SQL tab *)
(* ================================================================== *)

Section Tab.

Variable Row : Type.

Lemma apply_privacy_shown PRIVACY_ON label text :
  snd (apply_privacy (Row := Row) PRIVACY_ON label text) = [] \/
  snd (apply_privacy (Row := Row) PRIVACY_ON label text) = [Caption label].
Proof.
  unfold apply_privacy. destruct text as [|c t]; [now left|].
  destruct (negb _); [now right|now left].
Qed.

Lemma apply_privacy_on label text :
  fst (apply_privacy (Row := Row) true label text) = redact text.
Proof.
  unfold apply_privacy. destruct text as [|c t]; [reflexivity|].
  now destruct (negb _).
Qed.

Lemma accepted_nonempty raw sql : sanitize_sql raw = Accepted sql -> sql <> [].
Proof.
  intros S E. destruct (accepted_guarded raw sql S) as [_ [[body B] _]].
  rewrite E in B. destruct body; discriminate B.
Qed.

Lemma capped_rows (rows : list Row) :
  (if (Z.of_nat (List.length rows) >? DEFAULT_LIMIT_ROWS)%Z
   then head DEFAULT_LIMIT_ROWS rows else rows)
  = firstn 100 rows.
Proof.
  unfold DEFAULT_LIMIT_ROWS.
  destruct (Z.of_nat (List.length rows) >? 100)%Z eqn:G; [reflexivity|].
  symmetry. apply firstn_all2.
  rewrite Z.gtb_ltb in G. apply Z.ltb_ge in G. lia.
Qed.

(** X15. After the button is pressed the tab shows, after the note of
    [apply_privacy] when there is one, one of two things.  Either the error
    message of [nl2sql_run], which is not empty, comes last, after the
    generated SQL when [nl2sql_run] returned one that is not empty; no rows
    are shown, and any statement sent to the database is the one shown.  Or
    the statement that [sanitize_sql] made of the model's reply to the
    question as [apply_privacy] returned it comes first, and under it the
    first 100 of the rows that the engine returned for that statement, which
    is the only thing the database was asked. *)
Theorem run_nl2sql_tab_shows (PRIVACY_ON : bool) (w : World Row)
  (user_q model_name : str) :
  let safe_query :=
    fst (apply_privacy (Row := Row) PRIVACY_ON (py "NL Query") user_q) in
  let caption :=
    snd (apply_privacy (Row := Row) PRIVACY_ON (py "NL Query") user_q) in
  let o := fst (nl2sql_run w safe_query DEFAULT_DB_PATH model_name) in
  let r := run_nl2sql_tab PRIVACY_ON w user_q model_name in
  (caption = [] \/ caption = [Caption (py "NL Query")]) /\
  ((exists code e,
       fst r = caption ++ code ++ [Error e] /\
       error_message o = Some e /\ e <> [] /\ dataframe o = None /\
       (code = [] /\ (generated_sql o = None \/ generated_sql o = Some [])
        \/ exists sql,
             sql <> [] /\ generated_sql o = Some sql /\
             code = [Subheader (py "Generated SQL"); Code sql]) /\
       (forall sql, In (Query sql) (snd r) -> In (Code sql) code)) \/
   (exists raw sql rows,
       llm_sql w safe_query model_name = Returned raw /\
       sanitize_sql raw = Accepted sql /\
       read_sql_query w DEFAULT_DB_PATH sql = Returned rows /\
       fst r = caption ++ [Subheader (py "Generated SQL"); Code sql;
                           Subheader (py "Results");
                           Dataframe (firstn 100 rows)] /\
       snd r = [Connect DEFAULT_DB_PATH; Query sql; Close])).
Proof.
  cbv zeta. unfold run_nl2sql_tab.
  pose proof (apply_privacy_shown PRIVACY_ON (py "NL Query") user_q) as Cap.
  destruct (apply_privacy PRIVACY_ON (py "NL Query") user_q)
    as [safe_query shown]. cbn [fst snd] in *.
  split; [exact Cap|].
  unfold nl2sql_run.
  destruct (path_exists w DEFAULT_DB_PATH); cbn [negb].
  2:{ left. exists [], (py "Database not found at " ++ DEFAULT_DB_PATH
                        ++ py ". Run data/make_transactions_db.py first.").
      cbn [fst snd generated_sql dataframe error_message truthy app].
      repeat split; [discriminate|left; split; [reflexivity|now left]
                    |intros sql []]. }
  destruct (llm_sql w safe_query model_name) as [raw|e].
  2:{ left. exists [], (py "LLM error: " ++ e).
      cbn [fst snd generated_sql dataframe error_message truthy app].
      repeat split; [discriminate|left; split; [reflexivity|now left]
                    |intros sql []]. }
  destruct (sanitize_sql raw) as [ok safe] eqn:S. destruct ok; cbn [negb].
  - pose proof (accepted_nonempty raw safe S) as Ns.
    destruct safe as [|c t]; [congruence|].
    unfold execute_sql.
    destruct (sqlite3_connect w DEFAULT_DB_PATH) as [u|e].
    + destruct (read_sql_query w DEFAULT_DB_PATH (c :: t)) as [df|e] eqn:Q.
      * right. exists raw, (c :: t), df. rewrite capped_rows.
        cbn [fst snd generated_sql dataframe error_message truthy app].
        split; [reflexivity|]. split; [exact S|]. split; [exact Q|].
        split; reflexivity.
      * left. exists [Subheader (py "Generated SQL"); Code (c :: t)],
          (py "SQL execution error: " ++ e).
        cbn [fst snd generated_sql dataframe error_message truthy app].
        repeat split;
          [discriminate|right; exists (c :: t); now repeat split|].
        intros sql [H|[H|[H|[]]]]; try discriminate H.
        injection H as <-. right. now left.
    + left. exists [Subheader (py "Generated SQL"); Code (c :: t)],
        (py "SQL execution error: " ++ e).
      cbn [fst snd generated_sql dataframe error_message truthy app].
      repeat split; [discriminate|right; exists (c :: t); now repeat split|].
      intros sql [H|[]]. discriminate H.
  - left. destruct raw as [|c t].
    + exists [], (py "Blocked query: " ++ safe).
      cbn [fst snd generated_sql dataframe error_message truthy app].
      repeat split; [discriminate|left; split; [reflexivity|now right]
                    |intros sql []].
    + exists [Subheader (py "Generated SQL"); Code (c :: t)],
        (py "Blocked query: " ++ safe).
      cbn [fst snd generated_sql dataframe error_message truthy app].
      repeat split;
        [discriminate|right; exists (c :: t); now repeat split
        |intros sql []].
Qed.

(** X16. With the privacy toggle on, the tab depends on the question only
    through its redacted text: two questions that [redact] maps to the same
    text give the same generated SQL, results or error on the page, and the
    same requests to the database. *)
Theorem run_nl2sql_tab_sees_redacted_only (w : World Row)
  (q1 q2 model_name : str) :
  redact q1 = redact q2 ->
  without_captions (fst (run_nl2sql_tab true w q1 model_name))
  = without_captions (fst (run_nl2sql_tab true w q2 model_name)) /\
  snd (run_nl2sql_tab true w q1 model_name)
  = snd (run_nl2sql_tab true w q2 model_name).
Proof.
  intros E. unfold run_nl2sql_tab.
  pose proof (apply_privacy_on (py "NL Query") q1) as F1.
  pose proof (apply_privacy_on (py "NL Query") q2) as F2.
  pose proof (apply_privacy_shown true (py "NL Query") q1) as C1.
  pose proof (apply_privacy_shown true (py "NL Query") q2) as C2.
  destruct (apply_privacy true (py "NL Query") q1) as [s1 shown1].
  destruct (apply_privacy true (py "NL Query") q2) as [s2 shown2].
  cbn [fst snd] in *. rewrite F1, F2, E.
  destruct (nl2sql_run w (redact q2) DEFAULT_DB_PATH model_name) as [o tr].
  cbn [fst snd]. split; [|reflexivity].
  unfold without_captions. rewrite !filter_app. f_equal.
  destruct C1 as [-> | ->], C2 as [-> | ->]; reflexivity.
Qed.

End Tab.

Lemma run_nl2sql_tab_shows_witness :
  fst (run_nl2sql_tab true (echo_world 3)
         (py "SELECT id FROM transactions") DEFAULT_MODEL)
  = [Subheader (py "Generated SQL");
     Code (py "SELECT id FROM transactions LIMIT 100;");
     Subheader (py "Results"); Dataframe [0; 1; 2]] /\
  ((exists code e,
       fst (run_nl2sql_tab true (echo_world 3)
              (py "SELECT id FROM transactions") DEFAULT_MODEL)
       = [] ++ code ++ [Error e] /\
       error_message
         (fst (nl2sql_run (echo_world 3) (py "SELECT id FROM transactions")
                 DEFAULT_DB_PATH DEFAULT_MODEL)) = Some e /\
       e <> [] /\
       dataframe
         (fst (nl2sql_run (echo_world 3) (py "SELECT id FROM transactions")
                 DEFAULT_DB_PATH DEFAULT_MODEL)) = None /\
       (code = [] /\
        (generated_sql
           (fst (nl2sql_run (echo_world 3) (py "SELECT id FROM transactions")
                   DEFAULT_DB_PATH DEFAULT_MODEL)) = None \/
         generated_sql
           (fst (nl2sql_run (echo_world 3) (py "SELECT id FROM transactions")
                   DEFAULT_DB_PATH DEFAULT_MODEL)) = Some [])
        \/ exists sql,
             sql <> [] /\
             generated_sql
               (fst (nl2sql_run (echo_world 3)
                       (py "SELECT id FROM transactions")
                       DEFAULT_DB_PATH DEFAULT_MODEL)) = Some sql /\
             code = [Subheader (py "Generated SQL"); Code sql]) /\
       (forall sql,
           In (Query sql)
             (snd (run_nl2sql_tab true (echo_world 3)
                     (py "SELECT id FROM transactions") DEFAULT_MODEL)) ->
           In (Code sql) code)) \/
   (exists raw sql rows,
       llm_sql (echo_world 3) (py "SELECT id FROM transactions") DEFAULT_MODEL
       = Returned raw /\
       sanitize_sql raw = Accepted sql /\
       read_sql_query (echo_world 3) DEFAULT_DB_PATH sql = Returned rows /\
       fst (run_nl2sql_tab true (echo_world 3)
              (py "SELECT id FROM transactions") DEFAULT_MODEL)
       = [] ++ [Subheader (py "Generated SQL"); Code sql;
                Subheader (py "Results"); Dataframe (firstn 100 rows)] /\
       snd (run_nl2sql_tab true (echo_world 3)
              (py "SELECT id FROM transactions") DEFAULT_MODEL)
       = [Connect DEFAULT_DB_PATH; Query sql; Close])).
Proof.
  split; [reflexivity|].
  exact (proj2 (run_nl2sql_tab_shows nat true (echo_world 3)
                  (py "SELECT id FROM transactions") DEFAULT_MODEL)).
Defined.

Lemma run_nl2sql_tab_sees_redacted_only_witness :
  snd (run_nl2sql_tab true (echo_world 3)
         (py "total for account 1234567890123") DEFAULT_MODEL)
  = snd (run_nl2sql_tab true (echo_world 3)
           (py "total for account 9999999999") DEFAULT_MODEL).
Proof.
  exact (proj2 (run_nl2sql_tab_sees_redacted_only nat (echo_world 3)
                  (py "total for account 1234567890123")
                  (py "total for account 9999999999") DEFAULT_MODEL
                  ltac:(vm_compute; reflexivity))).
Defined.

(* ================================================================== *)
(** * Utils/Privacy.py: telephone numbers *)
(* ================================================================== *)



(** ** Runs of digits *)









(** ** The telephone pattern *)



Lemma phone_char_not_at c : phone_char c = true -> c <> "@"%char.
Proof. each_char c. Qed.


Lemma plus_not_word : is_word "+"%char = false.
Proof. reflexivity. Qed.







